(** * Rank-date projection engine of mapranktimes-back

    A shallow embedding of [_shared/osuFunctions.ts]: the uniform-sum CDF and
    the probability engine, the replay of a beatmap set's moderation events
    that derives its queue date, and the projector that assigns
    [rankDateEarly], [rankDate] and [probability] to the qualified sets.

    Modelling conventions.
    - A JavaScript [number] that takes part in the probability arithmetic is
      an IEEE 754 binary64 value: Rocq's primitive [float], with the same
      round-to-nearest-even [+], [-], [*], [/] and the same comparisons.
    - A count, an index or an epoch time in milliseconds is an integer-valued
      [number]; it is a [Z] (or a [nat] for an array index), converted with
      [Z2F] where the source mixes it into float arithmetic.
    - A [Date] is its time value in milliseconds ([Z]); [Date | null] is
      [option Z].
    - The beatmap-set objects are mutated in place and reached through
      references, so they live in a heap ([gmap loc BeatmapSet]) and the
      arrays hold locations; a computation returns a value or throws a
      [TypeError] (the outcome [None]), and leaves a heap either way. *)

From Stdlib Require Import ZArith Floats List Bool Lia String Sorted.
From stdpp Require Import base option list gmap.

Local Open Scope Z_scope.

(** ** Numbers *)

(** An integer-valued [number] as a binary64 value (exact below [2^53]). *)
Definition Z2F (z : Z) : float :=
  if z <? 0
  then (- of_uint63 (Uint63.of_Z (- z)))%float
  else of_uint63 (Uint63.of_Z z).

(** [Math.pow(b, e)] at an exponent that is a non-negative integer, which is
    the only way the source calls it: the [e]-fold product.  It is exact
    whenever the power is representable, in particular for the small integer
    bases met at the boundary points of the CDF.  Where the power is not
    representable the product is rounded at every step, and the engine's
    [Math.pow] may differ from it in the last bits; the properties below
    assert a computed value only at points of the first kind. *)
Fixpoint pow_nat (b : float) (e : nat) : float :=
  match e with
  | O => 1%float
  | S e' => (b * pow_nat b e')%float
  end.

Definition Math_pow (b : float) (e : Z) : float := pow_nat b (Z.to_nat e).

(** [Math.floor]: a finite value with a negative exponent is cut at the binary
    point (towards minus infinity); every other value is its own floor. *)
Definition Math_floor (x : float) : float :=
  match Prim2SF x with
  | S754_finite s m e =>
      if 0 <=? e then x
      else Z2F (Z.shiftr (if s then Z.neg m else Z.pos m) (- e))
  | _ => x
  end.

(** ** probability.ts + distributions.ts *)

Definition sgn (x : float) : float :=
  if (0 <? x)%float then 1%float
  else if (x <? 0)%float then (-1)%float
  else 0%float.

(** [for (let i = 0; i < k; i++) p = p * (n - i)] *)
Definition perm (n k : Z) : float :=
  fold_left (fun p i => (p * Z2F (n - i))%float) (seqZ 0 k) 1%float.

Definition factorial (n : Z) : float := perm n n.

Definition binomial (n k : Z) : float :=
  if (k <? 0) || (n <? k) then 0%float
  else fold_left (fun p i => (p * (Z2F (n - i) / Z2F (k - i)))%float)
                 (seqZ 0 k) 1%float.

(** One round of the loop of [uniformSumCDF]. *)
Definition cdfTerm (n : Z) (x : float) (sum : float) (k : Z) : float :=
  (sum +
   Math_pow (-1) k * binomial n k * sgn (x - Z2F k) * Math_pow (x - Z2F k) n)%float.

Definition uniformSumCDF (n : Z) (x : float) : float :=
  if (x <? 0)%float then 0%float
  else if (Z2F n <? x)%float then 1%float
  else
    let sum := fold_left (cdfTerm n x) (seqZ 0 (n + 1)) 0%float in
    (0.5 + sum / (2 * factorial n))%float.

(** ** constants.ts

    The module of constants is not among the sources; the functions take its
    values as a record.  Times are in milliseconds, as [Date.getTime] gives
    them; the two delays are in seconds. *)
Record Constants := {
  DAY : Z;
  HOUR : Z;
  MINUTE : Z;
  RANK_INTERVAL : Z;
  RANK_PER_RUN : nat;
  RANK_PER_DAY : nat;
  MINIMUM_DAYS_FOR_RANK : Z;
  MAXIMUM_PENALTY_DAYS : Z;
  DELAY_MIN : float;
  DELAY_MAX : float;
  SPLIT : float
}.

(** Modelled from the spec: constants.ts is missing; these are the values that
    section 3 of the specification gives as examples ([RANK_INTERVAL] 20,
    [RANK_PER_RUN] 3, [RANK_PER_DAY] 8, [MINIMUM_DAYS_FOR_RANK] 7, [SPLIT]
    0.5), with [DAY], [HOUR] and [MINUTE] in milliseconds.  The specification
    names no value for the penalty cap and the two delays; 7 days and 60 to
    300 seconds stand in for them wherever a statement is evaluated. *)
Definition specConstants : Constants := {|
  DAY := 86400000;
  HOUR := 3600000;
  MINUTE := 60000;
  RANK_INTERVAL := 20;
  RANK_PER_RUN := 3;
  RANK_PER_DAY := 8;
  MINIMUM_DAYS_FOR_RANK := 7;
  MAXIMUM_PENALTY_DAYS := 7;
  DELAY_MIN := 60;
  DELAY_MAX := 300;
  SPLIT := 0.5
|}.

(** [permutations(iterable, 2)] of npm itertools: the ordered pairs of
    elements at two different positions, in the order of the positions. *)
Definition permutations2 (l : list Z) : list (list Z) :=
  let indexed := zip (seq 0 (length l)) l in
  flat_map (fun a =>
    flat_map (fun b => if Nat.eqb a.1 b.1 then [] else [[a.2; b.2]]) indexed)
    indexed.

(** [xs.reduce((a, b) => a + b, 0)] *)
Definition reduceSum (xs : list Z) : Z := fold_left Z.add xs 0.

Section Probability.
Context (c : Constants).

(** The list [permSums] that [probabilityAfter] builds for a position. *)
Definition permSumsAt (otherModes : option (list Z)) (pos : Z) : list Z :=
  match otherModes with
  | None => [0]
  | Some om =>
      if pos =? 2 then om
      else if pos =? 3 then map reduceSum (permutations2 om)
      else if pos =? 4 then [reduceSum om]
      else [0]
  end.

(** [(seconds - m * DELAY_MIN) / (DELAY_MAX - DELAY_MIN)] with
    [m = pos + permSum] *)
Definition transformedAt (seconds : float) (m : Z) : float :=
  ((seconds - Z2F m * DELAY_MIN c) / (DELAY_MAX c - DELAY_MIN c))%float.

(** [1 - uniformSumCDF(pos + permSum, transformed)] *)
Definition positionValue (seconds : float) (m : Z) : float :=
  (1 - uniformSumCDF m (transformedAt seconds m))%float.

(** The arguments [pos + permSum] at which one call evaluates the CDF. *)
Definition probabilityKeys (otherModes : option (list Z)) : list Z :=
  flat_map (fun pos => map (Z.add pos) (permSumsAt otherModes pos)) (seqZ 1 4).

(** Body of [for (const permSum of permSums)]: the state is [memo] and
    [modeSum]. *)
Definition permSumStep (seconds : float) (pos : Z)
    (st : gmap Z float * float) (permSum : Z) : gmap Z float * float :=
  let '(memo, modeSum) := st in
  match memo !! (pos + permSum) with
  | Some v => (memo, (modeSum + v)%float)
  | None =>
      let value := positionValue seconds (pos + permSum) in
      (<[pos + permSum := value]> memo, (modeSum + value)%float)
  end.

(** Body of [for (let pos = 1; pos <= 4; pos++)]: the state is [memo] and
    [sum]. *)
Definition positionStep (seconds : float) (otherModes : option (list Z))
    (st : gmap Z float * float) (pos : Z) : gmap Z float * float :=
  let '(memo, sum) := st in
  let permSums := permSumsAt otherModes pos in
  let '(memo', modeSum) :=
    fold_left (permSumStep seconds pos) permSums (memo, 0%float) in
  (memo', (sum + modeSum / Z2F (Z.of_nat (length permSums)))%float).

Definition probabilityAfter (seconds : float) (otherModes : option (list Z))
    : float :=
  let '(_, sum) :=
    fold_left (positionStep seconds otherModes) (seqZ 1 4) (∅, 0%float) in
  (Math_floor ((sum / 4) * 100000) / 100000)%float.

(** The same average with every term computed directly, without the memo
    table: the reading of section 4.2 that [probabilityAfter] is compared
    with. *)
Definition modeSumDirect (seconds : float) (pos : Z) (permSums : list Z)
    : float :=
  fold_left (fun modeSum permSum =>
               (modeSum + positionValue seconds (pos + permSum))%float)
            permSums 0%float.

Definition probabilityAfterDirect (seconds : float)
    (otherModes : option (list Z)) : float :=
  let sum :=
    fold_left (fun sum pos =>
                 let permSums := permSumsAt otherModes pos in
                 (sum + modeSumDirect seconds pos permSums
                        / Z2F (Z.of_nat (length permSums)))%float)
              (seqZ 1 4) 0%float in
  (Math_floor ((sum / 4) * 100000) / 100000)%float.

End Probability.

(** ** beatmap.types.ts

    The type declarations are not among the sources; the records carry the
    fields that the functions read and write, under their names there. *)

(** [mode_int]: one of the four game modes, 0 to 3. *)
Inductive Mode := Mode0 | Mode1 | Mode2 | Mode3.

Definition modeIndex (m : Mode) : nat :=
  match m with Mode0 => 0 | Mode1 => 1 | Mode2 => 2 | Mode3 => 3 end%nat.

Record Beatmap := {
  beatmapId : Z;
  ver : string;
  spin : Z;
  sr : float;
  len : Z;
  beatmapMode : Mode
}.

Record BeatmapSet := {
  setId : Z;
  queueDate : option Z;
  rankDate : option Z;
  rankDateEarly : option Z;
  artist : string;
  title : string;
  mapper : string;
  mapperId : Z;
  probability : option float;
  unresolved : bool;
  beatmaps : list Beatmap;
  mode : Mode
}.

Definition withQueueDate (d : option Z) (b : BeatmapSet) : BeatmapSet :=
  {| setId := setId b; queueDate := d; rankDate := rankDate b;
     rankDateEarly := rankDateEarly b; artist := artist b; title := title b;
     mapper := mapper b; mapperId := mapperId b; probability := probability b;
     unresolved := unresolved b; beatmaps := beatmaps b; mode := mode b |}.

Definition withRankDate (d : option Z) (b : BeatmapSet) : BeatmapSet :=
  {| setId := setId b; queueDate := queueDate b; rankDate := d;
     rankDateEarly := rankDateEarly b; artist := artist b; title := title b;
     mapper := mapper b; mapperId := mapperId b; probability := probability b;
     unresolved := unresolved b; beatmaps := beatmaps b; mode := mode b |}.

Definition withRankDateEarly (d : option Z) (b : BeatmapSet) : BeatmapSet :=
  {| setId := setId b; queueDate := queueDate b; rankDate := rankDate b;
     rankDateEarly := d; artist := artist b; title := title b;
     mapper := mapper b; mapperId := mapperId b; probability := probability b;
     unresolved := unresolved b; beatmaps := beatmaps b; mode := mode b |}.

Definition withProbability (p : option float) (b : BeatmapSet) : BeatmapSet :=
  {| setId := setId b; queueDate := queueDate b; rankDate := rankDate b;
     rankDateEarly := rankDateEarly b; artist := artist b; title := title b;
     mapper := mapper b; mapperId := mapperId b; probability := p;
     unresolved := unresolved b; beatmaps := beatmaps b; mode := mode b |}.

(** The event types that [getMapEvents] asks for; [otherType] is whatever else
    the API may send (the [default] case of the replay). *)
Inductive EventType :=
  qualify | disqualify | rank | nominate | nomination_reset | otherType.

Record CommentAPI := {
  beatmap_ids : list Z;
  nominator_ids : list Z
}.

(** An event as the API sends it; [created_at] is the value of
    [Date.parse(event.created_at)]. *)
Record MapEventAPI := {
  type : EventType;
  created_at : Z;
  comment : option CommentAPI;
  user_id : Z
}.

(** ** osuRequests.ts: [setQueueDate] *)

(** The event type local to [setQueueDate]. *)
Record MapEvent := {
  eventType : EventType;
  time : Z;
  beatmapIds : list Z;
  nominators : list Z;
  userId : Z
}.

Definition toMapEvent (event : MapEventAPI) : MapEvent :=
  {| eventType := type event;
     time := created_at event;
     beatmapIds := from_option beatmap_ids [] (comment event);
     nominators := from_option nominator_ids [] (comment event);
     userId := user_id event |}.

Definition hasId (xs : list Z) (x : Z) : bool := existsb (Z.eqb x) xs.

(** [a.length === b.length && a.every((item) => setB.has(item))] *)
Definition sameIds (a b : list Z) : bool :=
  Nat.eqb (length a) (length b) && forallb (hasId b) a.

(** [newMapIds.filter((id) => !oldMapIdsSet.has(id)).length > 0] *)
Definition diffsAdded (newMapIds oldMapIds : list Z) : bool :=
  negb (Nat.eqb (length (filter (fun x => negb (hasId oldMapIds x)) newMapIds)) 0).

(** The variables of the replay loop. *)
Record Replay := {
  previousQueueDuration : Z;
  queuedAt : option Z;
  lastDisqualifiedEvent : option MapEvent;
  currentNominators : list Z;
  penaltyDays : Z
}.

Definition replayStart : Replay :=
  {| previousQueueDuration := 0; queuedAt := None;
     lastDisqualifiedEvent := None; currentNominators := []; penaltyDays := 0 |}.

(** The errors of section 7 of the specification.  The source throws only
    from its fetchers ([getAPI], [getAccessToken], the database reader);
    [EventLogInconsistent] is listed because the specification names it. *)
Inductive ErrorKind :=
  AuthFailure | ApiFailure | EventLogInconsistent | MissingDatabaseSnapshot.

Inductive Outcome (A : Type) :=
  | Threw (e : ErrorKind)
  | Returned (a : A).
Arguments Threw {A} e.
Arguments Returned {A} a.

Section QueueDate.
Context (c : Constants).

(** The [qualify] case.  [Math.floor(interval / 7)] with
    [interval = (event.time - lastDisqualifiedEvent.time) / DAY] is the floor
    of the real quotient by [DAY * 7]. *)
Definition replayQualify (beatmapSet : BeatmapSet) (event : MapEvent)
    (s : Replay) : Replay :=
  let lastDq := lastDisqualifiedEvent s in
  let resetDuration :=
    match lastDq with
    | Some dq => negb (sameIds (nominators dq) (currentNominators s))
    | None => false
    end in
  let previousQueueDuration1 :=
    if resetDuration then 0 else previousQueueDuration s in
  let added :=
    match lastDq with
    | Some dq => diffsAdded (map beatmapId (beatmaps beatmapSet)) (beatmapIds dq)
    | None => false
    end in
  if added then
    {| previousQueueDuration := previousQueueDuration1;
       queuedAt := Some (time event);
       lastDisqualifiedEvent := lastDq;
       currentNominators := currentNominators s;
       penaltyDays := penaltyDays s |}
  else
    let maxAdjustment := (MINIMUM_DAYS_FOR_RANK c - 1) * DAY c in
    let adjustment := Z.min previousQueueDuration1 maxAdjustment in
    let queuedAt1 := time event - adjustment in
    match lastDq with
    | Some dq =>
        let penaltyDays1 :=
          Z.min ((time event - time dq) / (DAY c * 7)) (MAXIMUM_PENALTY_DAYS c) in
        {| previousQueueDuration := previousQueueDuration1;
           queuedAt := Some (queuedAt1 + penaltyDays1 * DAY c);
           lastDisqualifiedEvent := lastDq;
           currentNominators := currentNominators s;
           penaltyDays := penaltyDays1 |}
    | None =>
        {| previousQueueDuration := previousQueueDuration1;
           queuedAt := Some queuedAt1;
           lastDisqualifiedEvent := lastDq;
           currentNominators := currentNominators s;
           penaltyDays := penaltyDays s |}
    end.

(** Body of the [switch (event.type)]. *)
Definition replayEvent (beatmapSet : BeatmapSet) (s : Replay)
    (event : MapEvent) : Replay :=
  match eventType event with
  | qualify => replayQualify beatmapSet event s
  | disqualify =>
      {| previousQueueDuration :=
           match queuedAt s with
           | Some q => time event - q
           | None => previousQueueDuration s
           end;
         queuedAt := queuedAt s;
         lastDisqualifiedEvent := Some event;
         currentNominators := [];
         penaltyDays := penaltyDays s |}
  | rank =>
      {| previousQueueDuration := 0;
         queuedAt := None;
         lastDisqualifiedEvent := lastDisqualifiedEvent s;
         currentNominators := currentNominators s;
         penaltyDays := penaltyDays s |}
  | nominate =>
      {| previousQueueDuration := previousQueueDuration s;
         queuedAt := queuedAt s;
         lastDisqualifiedEvent := lastDisqualifiedEvent s;
         currentNominators := currentNominators s ++ [userId event];
         penaltyDays := penaltyDays s |}
  | nomination_reset =>
      {| previousQueueDuration := previousQueueDuration s;
         queuedAt := queuedAt s;
         lastDisqualifiedEvent := lastDisqualifiedEvent s;
         currentNominators := [];
         penaltyDays := penaltyDays s |}
  | otherType => s
  end.

(** The replay over the events, oldest first. *)
Definition replay (beatmapSet : BeatmapSet) (events : list MapEvent) : Replay :=
  fold_left (replayEvent beatmapSet) events replayStart.

(** [queuedAt! + MINIMUM_DAYS_FOR_RANK * DAY]: the [!] is erased when the
    source is compiled, and [null] counts as 0 in the addition. *)
Definition queueDateOf (queuedAt : option Z) : Z :=
  from_option (fun q => q) 0 queuedAt + MINIMUM_DAYS_FOR_RANK c * DAY c.

(** [setQueueDate]: [fetched] is what [getMapEvents] resolves to, newest
    event first, or [None] when the request fails and [getAPI] throws.  The
    result is the beatmap set after the assignment to its [queueDate]. *)
Definition setQueueDate (beatmapSet : BeatmapSet)
    (fetched : option (list MapEventAPI)) : Outcome BeatmapSet :=
  match fetched with
  | None => Threw ApiFailure
  | Some api =>
      let events := rev (map toMapEvent api) in
      let s := replay beatmapSet events in
      Returned (withQueueDate (Some (queueDateOf (queuedAt s))) beatmapSet)
  end.

End QueueDate.

(** ** Dates *)

(** [Date.prototype.getUTCMinutes] and [getUTCSeconds] of a time value. *)
Definition getUTCMinutes (t : Z) : Z := (t / 60000) mod 60.
Definition getUTCSeconds (t : Z) : Z := (t / 1000) mod 60.

(** [Date.prototype.getSeconds]: the seconds of the local time, which is the
    time value plus the host's offset from UTC at that time. *)
Definition getSeconds (localTZA : Z -> Z) (t : Z) : Z :=
  ((t + localTZA t) / 1000) mod 60.

(** ** The heap of beatmap-set objects *)

Definition loc := nat.

(** A computation over the heap: it returns a value or throws a [TypeError]
    ([None]), and either way leaves the heap with the writes made so far. *)
Definition M (A : Type) : Type :=
  gmap loc BeatmapSet -> option A * gmap loc BeatmapSet.

Definition ret {A} (a : A) : M A := fun h => (Some a, h).

Definition bind {A B} (m : M A) (k : A -> M B) : M B :=
  fun h => match m h with
           | (Some a, h') => k a h'
           | (None, h') => (None, h')
           end.

Definition throw {A} : M A := fun h => (None, h).

Notation "'let!' x := m 'in' k" := (bind m (fun x => k))
  (at level 10, x name, m at level 100, k at level 200).

(** Reading through a reference. *)
Definition deref (l : loc) : M BeatmapSet := fun h => (h !! l, h).

(** Assigning to a field of the object behind a reference. *)
Definition assign (l : loc) (f : BeatmapSet -> BeatmapSet) : M unit :=
  fun h => match h !! l with
           | Some b => (Some tt, <[l := f b]> h)
           | None => (None, h)
           end.

(** [xs[i].field]: reading a property of [undefined] throws. *)
Definition arrayAt {A} (xs : list A) (i : nat) : M A :=
  match xs !! i with
  | Some x => ret x
  | None => throw
  end.

(** [date!.getTime()]: throws on [null]. *)
Definition getTime (date : option Z) : M Z :=
  match date with
  | Some t => ret t
  | None => throw
  end.

Fixpoint derefAll (ls : list loc) : M (list BeatmapSet) :=
  match ls with
  | [] => ret []
  | l :: ls' => let! b := deref l in let! bs := derefAll ls' in ret (b :: bs)
  end.

(** [for (const x of xs) body(x)] *)
Fixpoint forEach {A} (body : A -> M unit) (xs : list A) : M unit :=
  match xs with
  | [] => ret tt
  | x :: xs' => let! _ := body x in forEach body xs'
  end.

(** [xs.every(p)]: stops at the first element that fails. *)
Fixpoint every {A} (p : A -> M bool) (xs : list A) : M bool :=
  match xs with
  | [] => ret true
  | x :: xs' => let! b := p x in if b then every p xs' else ret false
  end.

(** [refs.filter((b) => !b.unresolved)] *)
Fixpoint filterResolved (ls : list loc) : M (list loc) :=
  match ls with
  | [] => ret []
  | l :: ls' =>
      let! b := deref l in
      let! rest := filterResolved ls' in
      ret (if unresolved b then rest else l :: rest)
  end.

(** ** osuHelpers.ts *)

Section Projector.
Context (c : Constants) (localTZA : Z -> Z).

(** [roundMinutes(milliseconds, down)]: [Math.floor] and [Math.ceil] of the
    quotient by the interval, times the interval. *)
Definition roundMinutes (milliseconds : Z) (down : bool) : Z :=
  let interval := RANK_INTERVAL c * MINUTE c in
  (if down then milliseconds / interval else - ((- milliseconds) / interval))
  * interval.

(** [(date.getUTCMinutes() % 20) * 60 + date.getSeconds()] *)
Definition intervalTimeDelta (date : Z) : Z :=
  (getUTCMinutes date mod 20) * 60 + getSeconds localTZA date.

(** The loop that looks for [compareMap], over
    [combined.slice(0, i).reverse()]: the state is [count] and [compareMap]. *)
Definition compareStep (st : nat * option BeatmapSet) (beatmapSet : BeatmapSet)
    : nat * option BeatmapSet :=
  if unresolved beatmapSet then st
  else
    let count := S st.1 in
    (count, if Nat.eqb count (RANK_PER_DAY c) then Some beatmapSet else st.2).

Definition findCompareMap (reversed : list BeatmapSet) : option BeatmapSet :=
  (fold_left compareStep reversed (0%nat, None)).2.

Definition compareDateOf (compareMap : option BeatmapSet)
    (rankedLength i : nat) : Z :=
  match compareMap with
  | Some m =>
      match rankDate m with
      | Some t =>
          let compareDate := t + DAY c in
          if (rankedLength + RANK_PER_DAY c <=? i)%nat
          then compareDate + RANK_INTERVAL c * MINUTE c
          else compareDate
      | None => 0
      end
  | None => 0
  end.

(** [roundMinutes(ref.rankDate!.getTime(), true)] *)
Definition rankSlot (l : loc) : M Z :=
  let! b := deref l in let! t := getTime (rankDate b) in ret (roundMinutes t true).

(** [qualifiedMap.rankDateEarly = qualifiedMap.rankDate;
     qualifiedMap.probability = 0] *)
Definition settleAtRankDate (qualifiedMap : loc) : M unit :=
  let! q := deref qualifiedMap in
  let! _ := assign qualifiedMap (withRankDateEarly (rankDate q)) in
  assign qualifiedMap (withProbability (Some 0%float)).

(** The first [if] of the block below ("fix date for maps after the
    adjustment below"); [first] is [filteredMaps[0]]. *)
Definition pullForward (first qualifiedMap : loc) : M unit :=
  let! firstSet := deref first in
  match queueDate firstSet with
  | Some _ =>
      let! q := deref qualifiedMap in
      let! t := getTime (rankDate q) in
      let! slot := rankSlot first in
      if t <? slot then
        let! slot' := rankSlot first in
        let! _ := assign qualifiedMap (withRankDate (Some slot')) in
        settleAtRankDate qualifiedMap
      else ret tt
  | None => ret tt
  end.

(** The second [if] of the block below ("if 3 maps have the same time, the
    3rd map is pushed to next interval"). *)
Definition pushBack (filteredMaps : list loc) (first qualifiedMap : loc)
    : M unit :=
  let! saturated :=
    every (fun l =>
             let! slot := rankSlot l in
             let! q := deref qualifiedMap in
             let! early := getTime (rankDateEarly q) in
             ret (roundMinutes early true <=? slot))
          (take (RANK_PER_RUN c) filteredMaps) in
  if saturated then
    let! allSame :=
      every (fun l =>
               let! slot := rankSlot l in
               let! last := arrayAt filteredMaps (RANK_PER_RUN c - 1) in
               let! lastSlot := rankSlot last in
               ret (slot =? lastSlot))
            (take (RANK_PER_RUN c) filteredMaps) in
    let! slot := rankSlot first in
    let! _ := assign qualifiedMap
           (withRankDate
              (Some (if allSame then slot + RANK_INTERVAL c * MINUTE c
                     else slot))) in
    settleAtRankDate qualifiedMap
  else ret tt.

(** The block guarded by [i - RANK_PER_RUN >= 0 && !qualifiedMap.unresolved]. *)
Definition perRunCap (combined : list loc) (i : nat) (qualifiedMap : loc)
    : M unit :=
  let! resolved := filterResolved (take i combined) in
  let filteredMaps := rev resolved in
  let! first := arrayAt filteredMaps 0 in
  let! _ := pullForward first qualifiedMap in
  pushBack filteredMaps first qualifiedMap.

(** Body of the loop of [adjustRankDates] at index [i] of [combined]. *)
Definition adjustRankDatesAt (rankedLength : nat) (combined : list loc)
    (i : nat) : M unit :=
  let! qualifiedMap := arrayAt combined i in
  let! before := derefAll (take i combined) in
  let compareMap := findCompareMap (rev before) in
  let compareDate := compareDateOf compareMap rankedLength i in
  let! q := deref qualifiedMap in
  let! queueTime := getTime (queueDate q) in
  let early := Z.max queueTime compareDate in
  let! _ := assign qualifiedMap (withRankDateEarly (Some early)) in
  let! _ := assign qualifiedMap (withProbability None) in
  (* don't calculate probability for maps using rounded compare date *)
  let! _ := (if (compareDate <? queueTime) || (i <? rankedLength + RANK_PER_DAY c)%nat
        then assign qualifiedMap
               (withProbability
                  (Some (probabilityAfter c (Z2F (intervalTimeDelta early))
                                          None)))
        else ret tt) in
  let! _ := assign qualifiedMap (withRankDate (Some (roundMinutes early false))) in
  if (RANK_PER_RUN c <=? i)%nat && negb (unresolved q)
  then perRunCap combined i qualifiedMap
  else ret tt.

(** [adjustRankDates(qualifiedMaps, rankedMaps, start)] for one mode. *)
Definition adjustRankDates (qualifiedMaps rankedMaps : list loc) (start : nat)
    : M unit :=
  let combined := rankedMaps ++ qualifiedMaps in
  let first := (length rankedMaps + start)%nat in
  forEach (adjustRankDatesAt (length rankedMaps) combined)
          (seq first (length combined - first)).

(** The first loop of [calcEarlyProbability]: the table [rankDates], from a
    time to the number of sets of each mode. *)
Definition countRankDate (rankDates : gmap Z (list Z)) (l : loc)
    : M (gmap Z (list Z)) :=
  let! beatmapSet := deref l in
  (* assume map will be ranked early if probability > SPLIT *)
  let! key :=
    (if (SPLIT c <? from_option (fun p => p) 0%float (probability beatmapSet))%float
     then let! early := getTime (rankDateEarly beatmapSet) in ret (roundMinutes early true)
     else getTime (rankDate beatmapSet)) in
  let counts := from_option (fun x => x) [0; 0; 0; 0] (rankDates !! key) in
  ret (<[key := alter (Z.add 1) (modeIndex (mode beatmapSet)) counts]> rankDates).

Fixpoint countRankDates (rankDates : gmap Z (list Z)) (ls : list loc)
    : M (gmap Z (list Z)) :=
  match ls with
  | [] => ret rankDates
  | l :: ls' => let! r := countRankDate rankDates l in countRankDates r ls'
  end.

(** [counts.filter((_, mode) => mode != beatmapSet.mode)] *)
Definition otherModesOf (m : Mode) (counts : list Z) : list Z :=
  map snd (filter (fun p => negb (Nat.eqb p.1 (modeIndex m)))
                  (zip (seq 0 (length counts)) counts)).

(** Body of the second loop of [calcEarlyProbability]. *)
Definition recalcProbability (rankDates : gmap Z (list Z)) (l : loc) : M unit :=
  let! beatmapSet := deref l in
  let! early := getTime (rankDateEarly beatmapSet) in
  let key := roundMinutes early true in
  match probability beatmapSet with
  | Some _ =>
      let! t := getTime (rankDate beatmapSet) in
      if early =? t then ret tt
      else
        let otherModes := otherModesOf (mode beatmapSet) <$> (rankDates !! key) in
        assign l (withProbability
                    (Some (probabilityAfter c (Z2F (intervalTimeDelta early))
                                            otherModes)))
  | None => ret tt
  end.

Definition calcEarlyProbability (qualifiedMaps : list (list loc)) : M unit :=
  let! rankDates := countRankDates ∅ (concat qualifiedMaps) in
  forEach (recalcProbability rankDates) (concat qualifiedMaps).

Definition adjustAllRankDates (qualifiedMaps rankedMaps : list (list loc))
    : M unit :=
  let! _ := forEach (fun mode =>
                  let! qs := arrayAt qualifiedMaps mode in
                  let! rs := arrayAt rankedMaps mode in
                  adjustRankDates qs rs 0)
               (seq 0 4) in
  calcEarlyProbability qualifiedMaps.

End Projector.

(** ** utils.ts and osuRequests.ts: [mapEventFromAPI] and [getEventsAfter]

    The fields of an event of the feed that [getEventsAfter] and
    [mapEventFromAPI] read (the record [MapEventAPI] above has those that
    [setQueueDate] reads): [beatmapset] is [beatmapset?.id], [discussion] is
    [discussion.beatmapset_id] ([None] when there is no [discussion]), and
    [created_at] is the time value of [new Date(created_at)]. *)
Module Api.
Record MapEventAPI := {
  id : Z;
  beatmapset : option Z;
  discussion : option Z;
  type : EventType;
  created_at : Z
}.
End Api.

(** The [MapEvent] of beatmap.types.ts, which [mapEventFromAPI] builds (the
    record [MapEvent] above is the type of that name local to
    [setQueueDate]). *)
Module Utils.
Record MapEvent := {
  id : Z;
  beatmapSetId : Z;
  type : EventType;
  createdAt : Z
}.
End Utils.

(** What an [async] function may throw here: the [Error] of [getAPI], or a
    [TypeError] from reading a property of [undefined]. *)
Inductive Thrown := FetchError | TypeError.

Inductive Settled (A : Type) :=
  | Fulfilled (a : A)
  | Rejected (e : Thrown).
Arguments Fulfilled {A} a.
Arguments Rejected {A} e.

(** What a run does to the outside: a request for a page of the feed, or a
    pause ([setTimeout]). *)
Inductive Effect := Request (page : nat) | Pause (milliseconds : Z).

(** [beatmapset?.id ?? discussion.beatmapset_id]: without a [beatmapset] and
    without a [discussion] the read throws. *)
Definition mapEventFromAPI (event : Api.MapEventAPI) : option Utils.MapEvent :=
  match
    match Api.beatmapset event with
    | Some i => Some i
    | None => Api.discussion event
    end
  with
  | Some beatmapSetId =>
      Some {| Utils.id := Api.id event;
              Utils.beatmapSetId := beatmapSetId;
              Utils.type := Api.type event;
              Utils.createdAt := Api.created_at event |}
  | None => None
  end.

(** The outcome of [for (const event of data.events)]: the marker was found
    (the function returns), the page was scanned to its end, or
    [mapEventFromAPI] threw. *)
Inductive Scan :=
  | Found (newEvents : list Utils.MapEvent)
  | Scanned (newEvents : list Utils.MapEvent) (newEventIds : list Z)
  | Broke.

Fixpoint scanEvents (lastEventId : Z) (events : list Api.MapEventAPI)
    (newEvents : list Utils.MapEvent) (newEventIds : list Z) : Scan :=
  match events with
  | [] => Scanned newEvents newEventIds
  | event :: rest =>
      if Api.id event =? lastEventId then Found newEvents
      else if existsb (Z.eqb (Api.id event)) newEventIds
      then scanEvents lastEventId rest newEvents newEventIds
      else
        match mapEventFromAPI event with
        | Some mapEvent =>
            scanEvents lastEventId rest (newEvents ++ [mapEvent])
              (newEventIds ++ [Api.id event])
        | None => Broke
        end
  end.

(** The variables of the [while (true)] loop, and the effects so far. *)
Record Loop := {
  page : nat;
  apiCalls : nat;
  newEvents : list Utils.MapEvent;
  newEventIds : list Z;
  newLastEventId : option Z;
  effects : list Effect
}.

Definition loopStart : Loop :=
  {| page := 1; apiCalls := 0; newEvents := []; newEventIds := [];
     newLastEventId := None; effects := [] |}.

Section EventFeed.
(** What [getAPI] resolves to for each page of the feed, in the order of the
    requests; [None] when it throws. *)
Context (feed : nat -> option (list Api.MapEventAPI)).

(** The loop, run for at most [fuel] rounds: [None] when it is still running
    after them. *)
Fixpoint getEventsAfterFrom (fuel : nat) (lastEventId : Z) (s : Loop)
    : option (Settled (list Utils.MapEvent * Z)) * list Effect :=
  match fuel with
  | O => (None, effects s)
  | S fuel' =>
      let effects1 := effects s ++ [Request (page s)] in
      match feed (page s) with
      | None => (Some (Rejected FetchError), effects1)
      | Some events =>
          let apiCalls1 := S (apiCalls s) in
          (* newLastEventId ??= data.events[0].id *)
          match
            match newLastEventId s with
            | Some i => Some i
            | None => Api.id <$> events !! 0%nat
            end
          with
          | None => (Some (Rejected TypeError), effects1)
          | Some newLast =>
              match scanEvents lastEventId events (newEvents s) (newEventIds s) with
              | Found found => (Some (Fulfilled (rev found, newLast)), effects1)
              | Broke => (Some (Rejected TypeError), effects1)
              | Scanned newEvents1 newEventIds1 =>
                  let paused := (30 <? apiCalls1)%nat in
                  getEventsAfterFrom fuel' lastEventId
                    {| page := S (page s);
                       apiCalls := if paused then 0%nat else apiCalls1;
                       newEvents := newEvents1;
                       newEventIds := newEventIds1;
                       newLastEventId := Some newLast;
                       effects := if paused then effects1 ++ [Pause 60000]
                                  else effects1 |}
              end
          end
      end
  end.

Definition getEventsAfter (fuel : nat) (lastEventId : Z)
    : option (Settled (list Utils.MapEvent * Z)) * list Effect :=
  getEventsAfterFrom fuel lastEventId loopStart.

End EventFeed.

(** ** utils.ts and osuHelpers.ts: the rows of the database

    [BeatmapSetDatabase], from the fields that the functions read and write;
    the dates are in seconds, and [beatmaps] is the JSON text. *)
Module Database.
Record BeatmapSetDatabase := {
  id : Z;
  queue_date : option float;
  rank_date : float;
  rank_date_early : option float;
  artist : string;
  title : string;
  mapper : string;
  mapper_id : Z;
  probability : option float;
  unresolved : bool;
  beatmaps : string
}.
End Database.

(** [date.getTime() / 1000] *)
Definition toSeconds (t : Z) : float := (Z2F t / 1000)%float.

Section Rows.
(** [JSON.stringify] on the list of beatmaps is taken as given, and so is
    [beatmapSetFromDatabase], which parses that text and builds the dates
    from the seconds: [None] when [JSON.parse] throws or when the mode it
    computes is none of the four (a row without beatmaps has the mode
    [Infinity]). *)
Context (JSON_stringify : list Beatmap -> string).
Context (beatmapSetFromDatabase
          : Database.BeatmapSetDatabase -> option BeatmapSet).

(** [rankDate!.getTime()] throws on [null]; the other two dates pass
    [null] on. *)
Definition beatmapSetToDatabase (beatmapSet : BeatmapSet)
    : option Database.BeatmapSetDatabase :=
  match rankDate beatmapSet with
  | Some t =>
      Some {| Database.id := setId beatmapSet;
              Database.queue_date := toSeconds <$> queueDate beatmapSet;
              Database.rank_date := toSeconds t;
              Database.rank_date_early := toSeconds <$> rankDateEarly beatmapSet;
              Database.artist := artist beatmapSet;
              Database.title := title beatmapSet;
              Database.mapper := mapper beatmapSet;
              Database.mapper_id := mapperId beatmapSet;
              Database.probability := probability beatmapSet;
              Database.unresolved := unresolved beatmapSet;
              Database.beatmaps := JSON_stringify (beatmaps beatmapSet) |}
  | None => None
  end.

(** [splitMaps[beatmapSet.mode].push(beatmapSet)] for every row; [None]
    when a row makes it throw (there is no queue to push to for a mode that
    is none of the four). *)
Definition splitStep (splitMaps : option (list (list BeatmapSet)))
    (item : Database.BeatmapSetDatabase) : option (list (list BeatmapSet)) :=
  match splitMaps, beatmapSetFromDatabase item with
  | Some queues, Some beatmapSet =>
      Some (alter (fun sets => sets ++ [beatmapSet])
                  (modeIndex (mode beatmapSet)) queues)
  | _, _ => None
  end.

Definition databaseToSplitModes (data : list Database.BeatmapSetDatabase)
    : option (list (list BeatmapSet)) :=
  fold_left splitStep data (Some [[]; []; []; []]).

(** [[rank_date, rank_date_early, probability, unresolved]] *)
Definition StoredMapProperties : Type :=
  float * option float * option float * bool.

Definition storeMapProperties (qualifiedData : list Database.BeatmapSetDatabase)
    : gmap Z StoredMapProperties :=
  fold_left
    (fun previousData beatmapSet =>
       <[Database.id beatmapSet :=
           (Database.rank_date beatmapSet, Database.rank_date_early beatmapSet,
            Database.probability beatmapSet, Database.unresolved beatmapSet)]>
         previousData)
    qualifiedData ∅.

(** [a !== b] on two numbers: [NaN] differs from itself. *)
Definition numberDiffers (a b : float) : bool := negb (a =? b)%float.

(** [a !== b] on [number | null]. *)
Definition nullableDiffers (a b : option float) : bool :=
  match a, b with
  | Some x, Some y => numberDiffers x y
  | None, None => false
  | _, _ => true
  end.

(** [previous.reduce((updated, value, i) => updated || currentData[i] !== value,
    false)] *)
Definition propertiesDiffer (currentData previous : StoredMapProperties) : bool :=
  let '(rankDate, rankDateEarly, probability, unresolved) := currentData in
  let '(rankDate', rankDateEarly', probability', unresolved') := previous in
  false || numberDiffers rankDate rankDate'
  || nullableDiffers rankDateEarly rankDateEarly'
  || nullableDiffers probability probability'
  || negb (Bool.eqb unresolved unresolved').

(** Body of the inner [forEach] of [getUpdatedMaps]: the state is
    [mapsToUpdate] and [updatedMapIds]; [None] is the [TypeError] of reading
    the time of a [null] date. *)
Definition updateStep (previousData : gmap Z StoredMapProperties)
    (st : list Database.BeatmapSetDatabase * list Z) (beatmapSet : BeatmapSet)
    : option (list Database.BeatmapSetDatabase * list Z) :=
  match rankDate beatmapSet with
  | Some t =>
      match rankDateEarly beatmapSet with
      | Some early =>
          let currentData : StoredMapProperties :=
            (toSeconds t, Some (toSeconds early), probability beatmapSet,
             unresolved beatmapSet) in
          if match previousData !! setId beatmapSet with
             | None => true
             | Some previous => propertiesDiffer currentData previous
             end
          then
            match beatmapSetToDatabase beatmapSet with
            | Some row => Some (st.1 ++ [row], st.2 ++ [setId beatmapSet])
            | None => None
            end
          else Some st
      | None => None
      end
  | None => None
  end.

Fixpoint updateAll (previousData : gmap Z StoredMapProperties)
    (beatmapSets : list BeatmapSet)
    (st : list Database.BeatmapSetDatabase * list Z)
    : option (list Database.BeatmapSetDatabase * list Z) :=
  match beatmapSets with
  | [] => Some st
  | beatmapSet :: rest =>
      match updateStep previousData st beatmapSet with
      | Some st' => updateAll previousData rest st'
      | None => None
      end
  end.

(** [getUpdatedMaps]: the pair of [mapsToUpdate] and [updatedMapIds]. *)
Definition getUpdatedMaps (qualifiedMaps : list (list BeatmapSet))
    (previousData : gmap Z StoredMapProperties)
    : option (list Database.BeatmapSetDatabase * list Z) :=
  updateAll previousData (concat qualifiedMaps) ([], []).

End Rows.

(** * The vocabulary of the properties *)

(** ** The memo table and the call sites of [probabilityAfter] *)

Section MemoTable.
Context (c : Constants).

(** Every entry of the memo table is the value computed for its key. *)
Definition memoSound (seconds : float) (memo : gmap Z float) : Prop :=
  forall k v, memo !! k = Some v -> v = positionValue c seconds k.

End MemoTable.

(** The two shapes of [otherModes] at the call sites: absent (from
    [adjustRankDates], or a missing bucket) and the three counts of the other
    modes (from [calcEarlyProbability]). *)
Definition callShape (otherModes : option (list Z)) : Prop :=
  otherModes = None \/ exists a b d, otherModes = Some [a; b; d].

(** ** The interval offset as the specification writes it *)

(** The formula of section 4.4 of the specification, for a rank interval of
    [rankInterval] minutes: the minutes modulo the interval, in seconds, plus
    the UTC seconds. *)
Definition intervalTimeDeltaSpec (rankInterval : Z) (date : Z) : Z :=
  (getUTCMinutes date mod rankInterval) * 60 + getUTCSeconds date.

(** ** What a heap computation may write *)

(** The fields that the projector never assigns. *)
Definition unscheduled (b : BeatmapSet) :=
  (setId b, queueDate b, artist b, title b, mapper b, mapperId b,
   unresolved b, beatmaps b, mode b).

(** From heap [h] to heap [h'], only the objects behind the references [ls]
    have changed, and those only in [rankDateEarly], [rankDate] and
    [probability]; no object has appeared or gone. *)
Definition framed (ls : list loc) (h h' : gmap loc BeatmapSet) : Prop :=
  forall l,
    match h !! l with
    | Some b =>
        exists b', h' !! l = Some b' /\ unscheduled b' = unscheduled b /\
                   (l ∉ ls -> b' = b)
    | None => h' !! l = None
    end.

(** A computation that writes only behind [ls], whether it returns or
    throws. *)
Definition writesOnly {A} (ls : list loc) (m : M A) : Prop :=
  forall h r h', m h = (r, h') -> framed ls h h'.

(** The value and the heap of a computation that returns; [None] when it
    throws. *)
Definition returned {A} (m : M A) (h : gmap loc BeatmapSet)
    : option (A * gmap loc BeatmapSet) :=
  match m h with
  | (Some a, h') => Some (a, h')
  | (None, _) => None
  end.

(** ** The loop body as a function of the objects

    When no reference occurs twice in [combined], the body at index [i] reads
    the objects before [i] and rewrites the one at [i]; [projectAt] is that
    rewriting, from the objects read. *)

(** [Array.prototype.every] with a test that may throw: it stops at the
    first element that fails the test. *)
Fixpoint everyO {A} (p : A -> option bool) (xs : list A) : option bool :=
  match xs with
  | [] => Some true
  | x :: xs' =>
      match p x with
      | Some true => everyO p xs'
      | Some false => Some false
      | None => None
      end
  end.

(** [filter] on objects, by the flag that [filterResolved] reads. *)
Fixpoint keepResolved (bs : list BeatmapSet) : list BeatmapSet :=
  match bs with
  | [] => []
  | b :: bs' => if unresolved b then keepResolved bs' else b :: keepResolved bs'
  end.

(** The references [ls] lead to the objects [bs]. *)
Definition refsTo (h : gmap loc BeatmapSet) (ls : list loc)
    (bs : list BeatmapSet) : Prop :=
  Forall2 (fun l b => h !! l = Some b) ls bs.

Section PureStep.
Context (c : Constants) (localTZA : Z -> Z).

(** [roundMinutes(b.rankDate!.getTime(), true)] *)
Definition slotOf (b : BeatmapSet) : option Z :=
  match rankDate b with
  | Some t => Some (roundMinutes c t true)
  | None => None
  end.

(** [q.rankDateEarly = q.rankDate; q.probability = 0] *)
Definition settled (q : BeatmapSet) : BeatmapSet :=
  withProbability (Some 0%float) (withRankDateEarly (rankDate q) q).

(** The pull-forward of step E: [q] after the first [if] of [perRunCap]. *)
Definition pulledForward (first q : BeatmapSet) : option BeatmapSet :=
  match queueDate first with
  | Some _ =>
      match rankDate q, slotOf first with
      | Some t, Some slot =>
          Some (if t <? slot then settled (withRankDate (Some slot) q) else q)
      | _, _ => None
      end
  | None => Some q
  end.

(** The test of the outer [every]: the slot of [b] is not before the slot of
    the early time of [q]. *)
Definition saturatedBy (q : BeatmapSet) (b : BeatmapSet) : option bool :=
  match slotOf b, rankDateEarly q with
  | Some slot, Some early => Some (roundMinutes c early true <=? slot)
  | _, _ => None
  end.

(** The test of the inner [every]: the slot of [b] is the slot of
    [filteredMaps[RANK_PER_RUN - 1]]. *)
Definition sameSlotAs (filtered : list BeatmapSet) (b : BeatmapSet)
    : option bool :=
  match slotOf b with
  | Some slot =>
      match filtered !! (RANK_PER_RUN c - 1)%nat with
      | Some last =>
          match slotOf last with
          | Some lastSlot => Some (slot =? lastSlot)
          | None => None
          end
      | None => None
      end
  | None => None
  end.

(** The overflow of step E: [q] after the second [if] of [perRunCap]. *)
Definition pushedBack (filtered : list BeatmapSet) (first q : BeatmapSet)
    : option BeatmapSet :=
  match everyO (saturatedBy q) (take (RANK_PER_RUN c) filtered) with
  | Some true =>
      match everyO (sameSlotAs filtered) (take (RANK_PER_RUN c) filtered),
            slotOf first with
      | Some allSame, Some slot =>
          Some (settled
                  (withRankDate
                     (Some (if allSame then slot + RANK_INTERVAL c * MINUTE c
                            else slot)) q))
      | _, _ => None
      end
  | Some false => Some q
  | None => None
  end.

(** [perRunCap] on the objects; [filtered] is [filteredMaps]. *)
Definition capAt (filtered : list BeatmapSet) (q : BeatmapSet)
    : option BeatmapSet :=
  match filtered !! 0%nat with
  | Some first =>
      match pulledForward first q with
      | Some q' => pushedBack filtered first q'
      | None => None
      end
  | None => None
  end.

(** [adjustRankDatesAt] on the objects: what the body leaves at index [i],
    from the objects [before] it and the object [q] it finds there. *)
Definition projectAt (before : list BeatmapSet) (rankedLength i : nat)
    (q : BeatmapSet) : option BeatmapSet :=
  let compareDate :=
    compareDateOf c (findCompareMap c (rev before)) rankedLength i in
  match queueDate q with
  | Some queueTime =>
      let early := Z.max queueTime compareDate in
      let p :=
        if (compareDate <? queueTime) || (i <? rankedLength + RANK_PER_DAY c)%nat
        then Some (probabilityAfter c (Z2F (intervalTimeDelta localTZA early)) None)
        else None in
      let q1 :=
        withRankDate (Some (roundMinutes c early false))
          (withProbability p (withRankDateEarly (Some early) q)) in
      if (RANK_PER_RUN c <=? i)%nat && negb (unresolved q)
      then capAt (rev (keepResolved before)) q1
      else Some q1
  | None => None
  end.

(** The loop of [adjustRankDates] on the objects: [done] are the objects
    before the current index, [todo] those from it on. *)
Fixpoint projectFrom (rankedLength : nat) (done todo : list BeatmapSet)
    : option (list BeatmapSet) :=
  match todo with
  | [] => Some done
  | q :: rest =>
      match projectAt done rankedLength (length done) q with
      | Some q' => projectFrom rankedLength (done ++ [q']) rest
      | None => None
      end
  end.

(** What [recalcProbability] leaves behind a reference, from the object it
    finds there; [None] when it throws. *)
Definition recalcSet (rankDates : gmap Z (list Z)) (b : BeatmapSet)
    : option BeatmapSet :=
  match rankDateEarly b with
  | None => None
  | Some early =>
      match probability b with
      | None => Some b
      | Some _ =>
          match rankDate b with
          | None => None
          | Some t =>
              if early =? t then Some b
              else
                Some (withProbability
                        (Some (probabilityAfter c
                                 (Z2F (intervalTimeDelta localTZA early))
                                 (otherModesOf (mode b)
                                    <$> (rankDates !! roundMinutes c early true))))
                        b)
          end
      end
  end.

End PureStep.

(** ** Interval buckets and the order of the queue *)

(** [a] entered the queue no later than [b]. *)
Definition queueLe (a b : BeatmapSet) : Prop :=
  match queueDate a, queueDate b with
  | Some x, Some y => x <= y
  | _, _ => False
  end.

(** A set's slot is not before another's. *)
Definition slotGe (a b : BeatmapSet) : Prop :=
  forall ta tb, rankDate a = Some ta -> rankDate b = Some tb -> tb <= ta.

(** The early time is assigned and is not after the rank time. *)
Definition earlyBeforeRank (b : BeatmapSet) : Prop :=
  exists e t, rankDateEarly b = Some e /\ rankDate b = Some t /\ e <= t.

Section Buckets.
Context (c : Constants).

(** A time on the grid of rank intervals. *)
Definition onGrid (t : Z) : Prop := roundMinutes c t true = t.

(** The set counts for the interval bucket [T]: it is not unresolved and its
    rank date floors to [T]. *)
Definition inBucket (T : Z) (b : BeatmapSet) : bool :=
  negb (unresolved b) &&
  match slotOf c b with
  | Some slot => slot =? T
  | None => false
  end.

(** The number of sets of [sets] that count for the bucket [T]. *)
Fixpoint bucketSize (T : Z) (sets : list BeatmapSet) : nat :=
  match sets with
  | [] => 0
  | b :: rest => (if inBucket T b then 1 else 0) + bucketSize T rest
  end%nat.

(** The state of the queue after some qualified sets have been projected:
    [recent] holds those that are not unresolved, the latest first. *)
Record Projected (processed : nat) (recent : list BeatmapSet) : Prop := {
  projected_assigned :
    Forall (fun b => exists t, rankDate b = Some t /\ onGrid t /\
                               is_Some (queueDate b) /\ unresolved b = false)
           recent;
  projected_sorted : StronglySorted slotGe recent;
  projected_count : forall T, (bucketSize T recent <= RANK_PER_RUN c)%nat;
  projected_early :
    (processed <= RANK_PER_RUN c)%nat ->
    Forall (fun b => exists qd, queueDate b = Some qd /\
                                rankDate b = Some (roundMinutes c (Z.max qd 0) false))
           recent
}.

End Buckets.

(** ** Sample data for the evaluated statements *)

(** A qualified set with two difficulties, for the evaluated statements. *)
Definition sampleSet : BeatmapSet := {|
  setId := 1; queueDate := None; rankDate := None; rankDateEarly := None;
  artist := "artist"; title := "title"; mapper := "mapper"; mapperId := 2;
  probability := None; unresolved := false;
  beatmaps := [ {| beatmapId := 11; ver := "Hard"; spin := 0; sr := 3;
                   len := 90; beatmapMode := Mode0 |};
                {| beatmapId := 12; ver := "Insane"; spin := 1; sr := 5;
                   len := 90; beatmapMode := Mode0 |} ];
  mode := Mode0
|}.

(** The log of scenario S2 with [t0] = 1 000 000 ms and two nominators. *)
Definition s2First : MapEventAPI :=
  {| type := qualify; created_at := 1000000; comment := None; user_id := 5 |}.

Definition s2Disqualify : MapEventAPI :=
  {| type := disqualify; created_at := 1000000 + 3 * 86400000;
     comment := Some {| beatmap_ids := [12; 11]; nominator_ids := [7; 8] |};
     user_id := 6 |}.

Definition s2Nominations : list MapEventAPI :=
  [ {| type := nominate; created_at := 1000000 + 5 * 86400000;
       comment := None; user_id := 8 |};
    {| type := nominate; created_at := 1000000 + 6 * 86400000;
       comment := None; user_id := 7 |} ].

Definition s2Second : MapEventAPI :=
  {| type := qualify; created_at := 1000000 + 13 * 86400000;
     comment := None; user_id := 5 |}.

(** The host's clock is on UTC. *)
Definition utc : Z -> Z := fun _ => 0.

(** 2023-11-14T22:20:00Z, a boundary of the twenty-minute grid. *)
Definition gridTime : Z := 1700000400000.

(** A set with the given dates and flag, not yet projected. *)
Definition scheduleOf (setId : Z) (queueDate rankDate : option Z)
    (unresolved : bool) : BeatmapSet :=
  {| setId := setId; queueDate := queueDate; rankDate := rankDate;
     rankDateEarly := None; artist := "artist"; title := "title";
     mapper := "mapper"; mapperId := 2; probability := None;
     unresolved := unresolved; beatmaps := []; mode := Mode0 |}.

(** Scenario S6: three sets ranked one, two and three minutes after the
    boundary, and two qualified sets due five and six minutes after it. *)
Definition overflowRanked : list BeatmapSet :=
  [ scheduleOf 100 None (Some (gridTime + 1 * 60000)) false;
    scheduleOf 101 None (Some (gridTime + 2 * 60000)) false;
    scheduleOf 102 None (Some (gridTime + 3 * 60000)) false ].

(** The two qualified sets of the scenario. *)
Definition overflowQualified : list BeatmapSet :=
  [ scheduleOf 103 (Some (gridTime + 5 * 60000)) None false;
    scheduleOf 104 (Some (gridTime + 6 * 60000)) None false ].

(** The five objects of the scenario, at the locations 0 to 4. *)
Definition overflowHeap : gmap loc BeatmapSet :=
  list_to_map (zip (seq 0 5) (overflowRanked ++ overflowQualified)).

(** Four qualified sets flagged unresolved, due one, two, three and five
    minutes after the boundary. *)
Definition unresolvedHeap : gmap loc BeatmapSet :=
  list_to_map (zip (seq 0 4)
    [ scheduleOf 100 (Some (gridTime + 1 * 60000)) None true;
      scheduleOf 101 (Some (gridTime + 2 * 60000)) None true;
      scheduleOf 102 (Some (gridTime + 3 * 60000)) None true;
      scheduleOf 103 (Some (gridTime + 5 * 60000)) None true ]).

(** No ranked set; one qualified set that is not unresolved, two unresolved
    ones, and a fourth that is not unresolved, due in the interval after the
    first. *)
Definition fewResolvedHeap : gmap loc BeatmapSet :=
  list_to_map (zip (seq 0 4)
    [ scheduleOf 100 (Some (gridTime + 5 * 60000)) None false;
      scheduleOf 101 (Some (gridTime + 6 * 60000)) None true;
      scheduleOf 102 (Some (gridTime + 7 * 60000)) None true;
      scheduleOf 103 (Some (gridTime + 25 * 60000)) None false ]).

(** No ranked set; three qualified sets flagged unresolved and a fourth that
    is not. *)
Definition noneResolvedHeap : gmap loc BeatmapSet :=
  list_to_map (zip (seq 0 4)
    [ scheduleOf 100 (Some (gridTime + 5 * 60000)) None true;
      scheduleOf 101 (Some (gridTime + 6 * 60000)) None true;
      scheduleOf 102 (Some (gridTime + 7 * 60000)) None true;
      scheduleOf 103 (Some (gridTime + 25 * 60000)) None false ]).

(** One set ranked 23 minutes after the boundary; two qualified sets flagged
    unresolved and a third that is not, due five minutes after the
    boundary. *)
Definition oneRankedHeap : gmap loc BeatmapSet :=
  list_to_map (zip (seq 0 4)
    [ scheduleOf 100 None (Some (gridTime + 23 * 60000)) false;
      scheduleOf 101 (Some (gridTime + 1 * 60000)) None true;
      scheduleOf 102 (Some (gridTime + 2 * 60000)) None true;
      scheduleOf 103 (Some (gridTime + 5 * 60000)) None false ]).

(** Two sets ranked 37 minutes before and 23 minutes after the boundary, and
    two qualified sets whose queue dates, 65 and 59 minutes before it, are
    already past (as after a requalification with credit). *)
Definition pastQueueHeap : gmap loc BeatmapSet :=
  list_to_map (zip (seq 0 4)
    [ scheduleOf 100 None (Some (gridTime - 37 * 60000)) false;
      scheduleOf 101 None (Some (gridTime + 23 * 60000)) false;
      scheduleOf 102 (Some (gridTime - 65 * 60000)) None false;
      scheduleOf 103 (Some (gridTime - 59 * 60000)) None false ]).

(** A qualified set due twelve minutes after the boundary, with a
    probability below [SPLIT]. *)
Definition lateSet : BeatmapSet :=
  {| setId := 200; queueDate := Some (gridTime + 12 * 60000);
     rankDate := Some (gridTime + 20 * 60000);
     rankDateEarly := Some (gridTime + 12 * 60000);
     artist := "artist"; title := "title"; mapper := "mapper"; mapperId := 2;
     probability := Some 0.25%float; unresolved := false; beatmaps := [];
     mode := Mode0 |}.

(** That set alone, at location 0. *)
Definition lateHeap : gmap loc BeatmapSet := {[ 0%nat := lateSet ]}.

(** ** What the second pass of [calcEarlyProbability] may change *)

(** The second pass may replace a probability that is present on a set
    whose early time differs from its rank time, and nothing else. *)
Definition reestimated (b b' : BeatmapSet) : Prop :=
  unscheduled b' = unscheduled b /\
  rankDate b' = rankDate b /\ rankDateEarly b' = rankDateEarly b /\
  (probability b = None -> probability b' = None) /\
  (rankDateEarly b = rankDate b -> probability b' = probability b).

(** Every object is still there, re-estimated at most. *)
Definition reestimatedHeap (h h' : gmap loc BeatmapSet) : Prop :=
  forall l b, h !! l = Some b -> exists b', h' !! l = Some b' /\ reestimated b b'.

(** A set as the projector leaves it: both dates assigned, the early time
    not after the rank time, and the rank time on the interval grid. *)
Definition projected (c : Constants) (b : BeatmapSet) : Prop :=
  exists e t, rankDateEarly b = Some e /\ rankDate b = Some t /\ e <= t /\
              (RANK_INTERVAL c * MINUTE c | t).

(** Every reference of the queues and of the ranked lists leads to an
    object. *)
Definition allocated (qualifiedMaps rankedMaps : list (list loc))
    (h : gmap loc BeatmapSet) : Prop :=
  forall l, l ∈ concat rankedMaps ++ concat qualifiedMaps -> is_Some (h !! l).

(** ** The table of the first pass of [calcEarlyProbability] *)

(** The number of sets that the table [rankDates] has counted. *)
Definition tableTotal (rankDates : gmap Z (list Z)) : Z :=
  map_fold (fun _ counts total => reduceSum counts + total) 0 rankDates.

(** An entry of the table: one count for each of the four modes. *)
Definition fourCounts (counts : list Z) : Prop :=
  length counts = 4%nat /\ Forall (Z.le 0) counts.

(** ** The feed of [getEventsAfter] *)

(** The events of the pages before page [n]. *)
Definition seenBefore (feed : nat -> option (list Api.MapEventAPI)) (n : nat)
    : list Api.MapEventAPI :=
  flat_map (fun p => default [] (feed p)) (seq 1 (n - 1)).

(** The requests for the pages 1 to [n], with the pause that follows every
    31st request before the next. *)
Definition pacedRequests (n : nat) : list Effect :=
  flat_map (fun p => if (1 <? p)%nat && ((p - 1) mod 31 =? 0)%nat
                     then [Pause 60000; Request p] else [Request p])
           (seq 1 n).

(** The id that [newLastEventId] takes in the first round. *)
Definition firstId (feed : nat -> option (list Api.MapEventAPI)) : option Z :=
  match feed 1%nat with
  | Some (event :: _) => Some (Api.id event)
  | _ => None
  end.

(** A page that resolves, without the marker, whose events can all be
    converted. *)
Definition plainPage (feed : nat -> option (list Api.MapEventAPI))
    (lastEventId : Z) (p : nat) : Prop :=
  exists events,
    feed p = Some events /\ (lastEventId ∉ map Api.id events) /\
    Forall (fun event => is_Some (mapEventFromAPI event)) events.

(** What the loop of [getEventsAfter] has collected at the head of a round,
    while the marker [lastEventId] has not been listed. *)
Record Scanning (feed : nat -> option (list Api.MapEventAPI))
    (lastEventId : Z) (s : Loop) : Prop := {
  scanning_page : (1 <= page s)%nat;
  scanning_fetched : forall p, (1 <= p < page s)%nat -> is_Some (feed p);
  scanning_ids : newEventIds s = map Utils.id (newEvents s);
  scanning_distinct : NoDup (newEventIds s);
  scanning_fresh : lastEventId ∉ newEventIds s;
  scanning_unseen : lastEventId ∉ map Api.id (seenBefore feed (page s));
  scanning_order :
    map Utils.id (newEvents s) `sublist_of` map Api.id (seenBefore feed (page s));
  scanning_all :
    forall i, i ∈ map Api.id (seenBefore feed (page s)) -> i ∈ newEventIds s;
  scanning_first :
    newLastEventId s = if (page s =? 1)%nat then None else firstId feed;
  scanning_first_set : page s <> 1%nat -> is_Some (firstId feed)
}.

(** The bookkeeping of the requests at the head of a round. *)
Record Paced (s : Loop) : Prop := {
  paced_page : (1 <= page s)%nat;
  paced_calls : apiCalls s = ((page s - 1) mod 31)%nat;
  paced_effects :
    effects s
    = pacedRequests (page s - 1)
      ++ (if (1 <=? page s - 1)%nat && ((page s - 1) mod 31 =? 0)%nat
          then [Pause 60000] else [])
}.

(** ** The queues of [databaseToSplitModes] and the rows of [getUpdatedMaps] *)

(** The sets of mode [m] among the converted rows, in the order of the
    rows. *)
Definition ofMode (m : nat) (sets : list BeatmapSet) : list BeatmapSet :=
  filter (fun beatmapSet => modeIndex (mode beatmapSet) = m) sets.

(** The four queues of a list of sets. *)
Definition splitByMode (sets : list BeatmapSet) : list (list BeatmapSet) :=
  map (fun m => ofMode m sets) [0; 1; 2; 3]%nat.

(** A probability that is absent, or a number other than [NaN]. *)
Definition probabilityIsNumber (b : BeatmapSet) : Prop :=
  forall p, probability b = Some p -> Prim2SF p <> S754_nan.

(** ** More sample data *)

(** Eight sets ranked one to eight minutes after the boundary, and one
    qualified set due five minutes after it. *)
Definition dailyRanked : list BeatmapSet :=
  map (fun k => scheduleOf (100 + k) None (Some (gridTime + k * 60000)) false)
      [1; 2; 3; 4; 5; 6; 7; 8].

Definition dailyQualified : list BeatmapSet :=
  [ scheduleOf 110 (Some (gridTime + 5 * 60000)) None false ].

(** The nine objects, at the locations 0 to 8. *)
Definition dailyHeap : gmap loc BeatmapSet :=
  list_to_map (zip (seq 0 9) (dailyRanked ++ dailyQualified)).

(** A [qualify] event of the feed, of the set [1000 + id]. *)
Definition feedEvent (id : Z) : Api.MapEventAPI :=
  {| Api.id := id; Api.beatmapset := Some (1000 + id); Api.discussion := None;
     Api.type := qualify; Api.created_at := gridTime + id |}.

(** A feed in pages of two events, newest first, that moved on by one event
    between the first request and the second; from page four on it is
    empty. *)
Definition sampleFeed (page : nat) : option (list Api.MapEventAPI) :=
  match page with
  | 1 => Some [feedEvent 30; feedEvent 29]
  | 2 => Some [feedEvent 29; feedEvent 28]
  | 3 => Some [feedEvent 27; feedEvent 26]
  | _ => Some []
  end%nat.

(** A feed with the same event on every page. *)
Definition endlessFeed (page : nat) : option (list Api.MapEventAPI) :=
  Some [feedEvent 30].

(** A second set with both dates, of another mode, due after [lateSet]. *)
Definition laterSet : BeatmapSet :=
  {| setId := 201; queueDate := Some (gridTime + 15 * 60000);
     rankDate := Some (gridTime + 20 * 60000);
     rankDateEarly := Some (gridTime + 15 * 60000);
     artist := "artist"; title := "title"; mapper := "mapper"; mapperId := 2;
     probability := None; unresolved := false; beatmaps := [];
     mode := Mode1 |}.

(** [JSON.stringify] on the sample sets, which have no beatmaps. *)
Definition sampleStringify (beatmaps : list Beatmap) : string := "[]".

(** The rows of the two sets. *)
Definition lateRow : Database.BeatmapSetDatabase :=
  {| Database.id := 200;
     Database.queue_date := Some (toSeconds (gridTime + 12 * 60000));
     Database.rank_date := toSeconds (gridTime + 20 * 60000);
     Database.rank_date_early := Some (toSeconds (gridTime + 12 * 60000));
     Database.artist := "artist"; Database.title := "title";
     Database.mapper := "mapper"; Database.mapper_id := 2;
     Database.probability := Some 0.25%float; Database.unresolved := false;
     Database.beatmaps := "[]" |}.

Definition laterRow : Database.BeatmapSetDatabase :=
  {| Database.id := 201;
     Database.queue_date := Some (toSeconds (gridTime + 15 * 60000));
     Database.rank_date := toSeconds (gridTime + 20 * 60000);
     Database.rank_date_early := Some (toSeconds (gridTime + 15 * 60000));
     Database.artist := "artist"; Database.title := "title";
     Database.mapper := "mapper"; Database.mapper_id := 2;
     Database.probability := None; Database.unresolved := false;
     Database.beatmaps := "[]" |}.

(** A set of mode 0 with the two difficulties of [sampleSet], and a set
    with a difficulty of mode 1 and one of mode 3, due after it. *)
Definition standardSet : BeatmapSet :=
  {| setId := 300; queueDate := Some (gridTime + 12 * 60000);
     rankDate := Some (gridTime + 20 * 60000);
     rankDateEarly := Some (gridTime + 12 * 60000);
     artist := "artist"; title := "title"; mapper := "mapper"; mapperId := 2;
     probability := Some 0.25%float; unresolved := false;
     beatmaps := beatmaps sampleSet; mode := Mode0 |}.

Definition hybridSet : BeatmapSet :=
  {| setId := 301; queueDate := Some (gridTime + 15 * 60000);
     rankDate := Some (gridTime + 20 * 60000);
     rankDateEarly := Some (gridTime + 15 * 60000);
     artist := "artist"; title := "title"; mapper := "mapper"; mapperId := 2;
     probability := None; unresolved := false;
     beatmaps := [ {| beatmapId := 21; ver := "Oni"; spin := 0; sr := 4;
                      len := 120; beatmapMode := Mode1 |};
                   {| beatmapId := 22; ver := "MX"; spin := 0; sr := 6;
                      len := 120; beatmapMode := Mode3 |} ];
     mode := Mode1 |}.

(** A JSON string: the text between two quotation marks (character 34). *)
Definition quoted (text : string) : string :=
  String (Ascii.ascii_of_nat 34)
         (text ++ String (Ascii.ascii_of_nat 34) EmptyString)%string.

(** A difficulty as [JSON.stringify] writes it, from its six fields in the
    order of [beatmapFromAPI], the numbers being given in decimal. *)
Definition beatmapText (id ver spin sr len mode : string) : string :=
  ("{" ++ quoted "id" ++ ":" ++ id ++ "," ++ quoted "ver" ++ ":" ++ quoted ver
   ++ "," ++ quoted "spin" ++ ":" ++ spin ++ "," ++ quoted "sr" ++ ":" ++ sr
   ++ "," ++ quoted "len" ++ ":" ++ len ++ "," ++ quoted "mode" ++ ":" ++ mode
   ++ "}")%string.

(** The JSON texts of the difficulties of the two sets. *)
Definition standardText : string :=
  ("[" ++ beatmapText "11" "Hard" "0" "3" "90" "0" ++ ","
   ++ beatmapText "12" "Insane" "1" "5" "90" "0" ++ "]")%string.

Definition hybridText : string :=
  ("[" ++ beatmapText "21" "Oni" "0" "4" "120" "1" ++ ","
   ++ beatmapText "22" "MX" "0" "6" "120" "3" ++ "]")%string.

(** The rows of the two sets: the dates in seconds, the difficulties as
    JSON text. *)
Definition standardRow : Database.BeatmapSetDatabase :=
  {| Database.id := 300;
     Database.queue_date := Some (toSeconds (gridTime + 12 * 60000));
     Database.rank_date := toSeconds (gridTime + 20 * 60000);
     Database.rank_date_early := Some (toSeconds (gridTime + 12 * 60000));
     Database.artist := "artist"; Database.title := "title";
     Database.mapper := "mapper"; Database.mapper_id := 2;
     Database.probability := Some 0.25%float; Database.unresolved := false;
     Database.beatmaps := standardText |}.

Definition hybridRow : Database.BeatmapSetDatabase :=
  {| Database.id := 301;
     Database.queue_date := Some (toSeconds (gridTime + 15 * 60000));
     Database.rank_date := toSeconds (gridTime + 20 * 60000);
     Database.rank_date_early := Some (toSeconds (gridTime + 15 * 60000));
     Database.artist := "artist"; Database.title := "title";
     Database.mapper := "mapper"; Database.mapper_id := 2;
     Database.probability := None; Database.unresolved := false;
     Database.beatmaps := hybridText |}.

(** [Math.min] over the modes of a list of difficulties that is not
    empty. *)
Definition leastMode (difficulties : list Beatmap) : nat :=
  match map (fun beatmap => modeIndex (beatmapMode beatmap)) difficulties with
  | [] => 0%nat
  | m :: ms => fold_left Nat.min ms m
  end.

(** [beatmapSetFromDatabase] on [standardRow] and [hybridRow], the rows with
    these ids and texts: the difficulties are those that the text lists, the
    mode is the least of theirs, and every date is the seconds times 1000.
    No other row is converted. *)
Definition sampleFromDatabase (item : Database.BeatmapSetDatabase)
    : option BeatmapSet :=
  if (Database.id item =? 300)
     && String.eqb (Database.beatmaps item) standardText
  then Some standardSet
  else if (Database.id item =? 301)
          && String.eqb (Database.beatmaps item) hybridText
  then Some hybridSet
  else None.

(** A configuration with a rank interval of thirty minutes, otherwise that
    of [specConstants]. *)
Definition halfHourConstants : Constants := {|
  DAY := 86400000;
  HOUR := 3600000;
  MINUTE := 60000;
  RANK_INTERVAL := 30;
  RANK_PER_RUN := 3;
  RANK_PER_DAY := 8;
  MINIMUM_DAYS_FOR_RANK := 7;
  MAXIMUM_PENALTY_DAYS := 7;
  DELAY_MIN := 60;
  DELAY_MAX := 300;
  SPLIT := 0.5
|}.

(** A host 44 minutes and 30 seconds behind UTC (the civil time of Monrovia
    until 1972). *)
Definition monroviaTZA : Z -> Z := fun _ => - (44 * 60000 + 30 * 1000).

(** The object behind a reference of a heap that holds one there. *)
Definition setBehind (h : gmap loc BeatmapSet) (l : loc) : BeatmapSet :=
  default sampleSet (h !! l).

(** What [mapEventFromAPI] makes of [feedEvent id]. *)
Definition feedMapEvent (id : Z) : Utils.MapEvent :=
  {| Utils.id := id; Utils.beatmapSetId := 1000 + id; Utils.type := qualify;
     Utils.createdAt := gridTime + id |}.

(** A feed that lists the marker 27 on page 33 and the same event on every
    other page. *)
Definition pausedFeed (page : nat) : option (list Api.MapEventAPI) :=
  if (page =? 33)%nat then Some [feedEvent 27] else Some [feedEvent 30].

(** * Properties *)

(** ** The uniform-sum CDF at and beyond its boundary points *)

Lemma uniformSumCDF_below (n : Z) (x : float) :
  (x <? 0)%float = true -> uniformSumCDF n x = 0%float.
Proof. intros Hx. unfold uniformSumCDF. now rewrite Hx. Qed.

Lemma uniformSumCDF_above (n : Z) (x : float) :
  (x <? 0)%float = false -> (Z2F n <? x)%float = true ->
  uniformSumCDF n x = 1%float.
Proof. intros Hx Hn. unfold uniformSumCDF. now rewrite Hx, Hn. Qed.

(** Two binary64 values that differ are told apart by their decoding. *)
Lemma float_neq (x y : float) : Prim2SF x <> Prim2SF y -> x <> y.
Proof. intros H E. apply H. now rewrite E. Qed.

(** C7, as the code has it: below 0 the CDF is 0 and above [n] it is 1 by the
    two explicit branches; at the boundary points 0 and [n] the signed-power
    formula gives exactly 0 and exactly 1 for [n] from 1 to 6, which covers
    the four positions of a mode that ranks alone. *)
Theorem uniformSumCDF_boundaries (n : Z) :
  1 <= n <= 6 ->
  uniformSumCDF n 0 = 0%float /\
  uniformSumCDF n (Z2F n) = 1%float /\
  (forall x, (x <? 0)%float = true -> uniformSumCDF n x = 0%float) /\
  (forall x, (x <? 0)%float = false -> (Z2F n <? x)%float = true ->
             uniformSumCDF n x = 1%float).
Proof.
  intros Hn.
  assert (Hcases : n = 1 \/ n = 2 \/ n = 3 \/ n = 4 \/ n = 5 \/ n = 6) by lia.
  split; [|split; [|split]].
  - destruct Hcases as [-> | [-> | [-> | [-> | [-> | ->]]]]];
      vm_compute; reflexivity.
  - destruct Hcases as [-> | [-> | [-> | [-> | [-> | ->]]]]];
      vm_compute; reflexivity.
  - apply uniformSumCDF_below.
  - apply uniformSumCDF_above.
Qed.

Lemma uniformSumCDF_boundaries_witness :
  uniformSumCDF 4 0 = 0%float /\
  uniformSumCDF 4 (Z2F 4) = 1%float /\
  (forall x, (x <? 0)%float = true -> uniformSumCDF 4 x = 0%float) /\
  (forall x, (x <? 0)%float = false -> (Z2F 4 <? x)%float = true ->
             uniformSumCDF 4 x = 1%float).
Proof. apply (uniformSumCDF_boundaries 4). lia. Defined.

(** C7 fails at [n = 7], which a mode reaches at position 4 once the other
    modes contribute three sets: the products of quotients in [binomial] are
    rounded ([binomial 7 5] falls just short of 21), and the formula leaves a
    positive residue at 0; at [n = 8] it exceeds 1 at the upper boundary. *)
Lemma uniformSumCDF_boundary_counterexample :
  uniformSumCDF 7 0 <> 0%float /\
  (0 <? uniformSumCDF 7 0)%float = true /\
  (binomial 7 5 <? 21)%float = true /\
  uniformSumCDF 8 (Z2F 8) <> 1%float /\
  (1 <? uniformSumCDF 8 (Z2F 8))%float = true.
Proof.
  split; [|split; [|split; [|split]]].
  - apply float_neq. vm_compute. discriminate.
  - vm_compute. reflexivity.
  - vm_compute. reflexivity.
  - apply float_neq. vm_compute. discriminate.
  - vm_compute. reflexivity.
Qed.

(** ** The memo table of [probabilityAfter] *)

Section ProbabilityFacts.
Context (c : Constants).

Lemma memoSound_empty seconds : memoSound c seconds ∅.
Proof. intros k v H. rewrite lookup_empty in H. discriminate. Qed.

Lemma permSumStep_sound seconds pos memo modeSum permSum :
  memoSound c seconds memo ->
  exists memo',
    permSumStep c seconds pos (memo, modeSum) permSum
    = (memo', (modeSum + positionValue c seconds (pos + permSum))%float)
    /\ memoSound c seconds memo'.
Proof.
  intros Hm. unfold permSumStep.
  destruct (memo !! (pos + permSum)) as [v|] eqn:E.
  - exists memo. split; [|exact Hm]. now rewrite (Hm _ _ E).
  - eexists. split; [reflexivity|].
    intros k v Hk. destruct (decide (pos + permSum = k)) as [<-|Hne].
    + rewrite lookup_insert_eq in Hk. now injection Hk as <-.
    + rewrite lookup_insert_ne in Hk by exact Hne. eauto.
Qed.

Lemma permSums_fold_sound seconds pos permSums : forall memo modeSum,
  memoSound c seconds memo ->
  exists memo',
    fold_left (permSumStep c seconds pos) permSums (memo, modeSum)
    = (memo',
       fold_left (fun ms permSum =>
                    (ms + positionValue c seconds (pos + permSum))%float)
                 permSums modeSum)
    /\ memoSound c seconds memo'.
Proof.
  induction permSums as [|p ps IH]; intros memo modeSum Hm; cbn [fold_left].
  - eauto.
  - destruct (permSumStep_sound seconds pos memo modeSum p Hm)
      as (memo1 & -> & Hm1).
    apply IH, Hm1.
Qed.

Lemma positionStep_sound seconds otherModes memo sum pos :
  memoSound c seconds memo ->
  exists memo',
    positionStep c seconds otherModes (memo, sum) pos
    = (memo',
       (sum + modeSumDirect c seconds pos (permSumsAt otherModes pos)
              / Z2F (Z.of_nat (length (permSumsAt otherModes pos))))%float)
    /\ memoSound c seconds memo'.
Proof.
  intros Hm. unfold positionStep, modeSumDirect.
  destruct (permSums_fold_sound seconds pos (permSumsAt otherModes pos)
              memo 0%float Hm) as (memo1 & -> & Hm1).
  eauto.
Qed.

Lemma positions_fold_sound seconds otherModes positions : forall memo sum,
  memoSound c seconds memo ->
  exists memo',
    fold_left (positionStep c seconds otherModes) positions (memo, sum)
    = (memo',
       fold_left (fun sum pos =>
                    let permSums := permSumsAt otherModes pos in
                    (sum + modeSumDirect c seconds pos permSums
                           / Z2F (Z.of_nat (length permSums)))%float)
                 positions sum)
    /\ memoSound c seconds memo'.
Proof.
  induction positions as [|p ps IH]; intros memo sum Hm; cbn [fold_left].
  - eauto.
  - destruct (positionStep_sound seconds otherModes memo sum p Hm)
      as (memo1 & -> & Hm1).
    apply IH, Hm1.
Qed.

(** C9: the memo table changes nothing.  [probabilityAfter] returns the very
    value of the definition that computes each term
    [1 - uniformSumCDF(pos + permSum, ...)] afresh, for every [seconds] and
    every [otherModes], present or absent. *)
Theorem probabilityAfter_memo_refines (seconds : float)
    (otherModes : option (list Z)) :
  probabilityAfter c seconds otherModes
  = probabilityAfterDirect c seconds otherModes.
Proof.
  unfold probabilityAfter, probabilityAfterDirect.
  destruct (positions_fold_sound seconds otherModes (seqZ 1 4) ∅ 0%float
              (memoSound_empty seconds)) as (memo' & -> & _).
  reflexivity.
Qed.

End ProbabilityFacts.

(** ** The limits of [probabilityAfter] *)

Section ProbabilityLimits.
Context (c : Constants).

Lemma positionValue_low seconds m :
  (transformedAt c seconds m <? 0)%float = true ->
  positionValue c seconds m = 1%float.
Proof.
  intros H. unfold positionValue.
  rewrite uniformSumCDF_below by exact H. reflexivity.
Qed.

Lemma positionValue_high seconds m :
  (transformedAt c seconds m <? 0)%float = false ->
  (Z2F m <? transformedAt c seconds m)%float = true ->
  positionValue c seconds m = 0%float.
Proof.
  intros H1 H2. unfold positionValue.
  rewrite uniformSumCDF_above by assumption. reflexivity.
Qed.

Ltac expand_average :=
  unfold probabilityAfter;
  match goal with
  | |- context [fold_left (positionStep ?c ?s ?om) ?ps (∅, ?z)] =>
      destruct (positions_fold_sound c s om ps ∅ z (memoSound_empty c s))
        as (? & -> & _)
  end;
  unfold modeSumDirect;
  change (seqZ 1 4) with [1; 2; 3; 4];
  cbn -[Z.add positionValue Z2F PrimFloat.add PrimFloat.div].

Ltac key_listed H :=
  apply H; unfold probabilityKeys; change (seqZ 1 4) with [1; 2; 3; 4];
  cbn -[Z.add]; tauto.

(** C2, as the code has it: the limits are the other way round.  Each term
    is [1 - CDF], the chance that the ranking run has not yet happened, so
    [probabilityAfter] is exactly 1 once [seconds] is so small that every
    transformed argument is below 0, and exactly 0 once [seconds] is so large
    that every transformed argument exceeds its number of summands. *)
Theorem probabilityAfter_limits (seconds : float)
    (otherModes : option (list Z)) :
  callShape otherModes ->
  ((forall m, In m (probabilityKeys otherModes) ->
              (transformedAt c seconds m <? 0)%float = true) ->
   probabilityAfter c seconds otherModes = 1%float) /\
  ((forall m, In m (probabilityKeys otherModes) ->
              (transformedAt c seconds m <? 0)%float = false /\
              (Z2F m <? transformedAt c seconds m)%float = true) ->
   probabilityAfter c seconds otherModes = 0%float).
Proof.
  intros [-> | (a & b & d & ->)]; split; intros H.
  - expand_average.
    rewrite !positionValue_low by key_listed H.
    vm_compute. reflexivity.
  - expand_average.
    rewrite !positionValue_high by (apply H; unfold probabilityKeys;
      change (seqZ 1 4) with [1; 2; 3; 4]; cbn -[Z.add]; tauto).
    vm_compute. reflexivity.
  - expand_average.
    rewrite !positionValue_low by key_listed H.
    vm_compute. reflexivity.
  - expand_average.
    rewrite !positionValue_high by (apply H; unfold probabilityKeys;
      change (seqZ 1 4) with [1; 2; 3; 4]; cbn -[Z.add]; tauto).
    vm_compute. reflexivity.
Qed.

End ProbabilityLimits.

Lemma probabilityAfter_limits_witness :
  probabilityAfter specConstants (-1000000) None = 1%float /\
  probabilityAfter specConstants 1000000 None = 0%float.
Proof.
  split.
  - apply (proj1 (probabilityAfter_limits specConstants (-1000000) None
                    (or_introl eq_refl))).
    intros m Hm. vm_compute in Hm.
    destruct Hm as [<- | [<- | [<- | [<- | []]]]]; vm_compute; reflexivity.
  - apply (proj2 (probabilityAfter_limits specConstants 1000000 None
                    (or_introl eq_refl))).
    intros m Hm. vm_compute in Hm.
    destruct Hm as [<- | [<- | [<- | [<- | []]]]]; vm_compute; split; reflexivity.
Defined.

(** C2 as stated fails: at minus infinity, and at a million seconds before
    the boundary, the result is 1 and not 0; at plus infinity, and a million
    seconds after, it is 0 and not 1. *)
Lemma probabilityAfter_limits_counterexample :
  probabilityAfter specConstants neg_infinity None <> 0%float /\
  probabilityAfter specConstants infinity None <> 1%float /\
  probabilityAfter specConstants (-1000000) None <> 0%float /\
  probabilityAfter specConstants 1000000 None <> 1%float /\
  probabilityAfter specConstants neg_infinity (Some [1; 0; 2]) <> 0%float /\
  probabilityAfter specConstants infinity (Some [1; 0; 2]) <> 1%float.
Proof.
  repeat split; apply float_neq; vm_compute; discriminate.
Qed.

(** ** The queue date derived from the event log *)

Section QueueDateFacts.
Context (c : Constants).

(** C1, as the code has it: [setQueueDate] has no check of [queuedAt].  When
    the replay ends with [queuedAt = null] it throws nothing
    ([EventLogInconsistent] is thrown on no input at all): the [null] counts
    as 0 and the set is given the queue date [MINIMUM_DAYS_FOR_RANK * DAY]
    after the epoch.  Only a failed fetch of the events makes it throw. *)
Theorem setQueueDate_null_queuedAt (beatmapSet : BeatmapSet)
    (api : list MapEventAPI) :
  queuedAt (replay c beatmapSet (rev (map toMapEvent api))) = None ->
  setQueueDate c beatmapSet (Some api)
  = Returned (withQueueDate (Some (MINIMUM_DAYS_FOR_RANK c * DAY c)) beatmapSet)
  /\ (forall fetched,
        setQueueDate c beatmapSet fetched <> Threw EventLogInconsistent).
Proof.
  intros Hnull. split.
  - unfold setQueueDate, queueDateOf. rewrite Hnull. reflexivity.
  - intros [events|]; unfold setQueueDate; discriminate.
Qed.

Lemma hasId_In (xs : list Z) (x : Z) : hasId xs x = true <-> In x xs.
Proof.
  unfold hasId. rewrite existsb_exists. split.
  - intros (y & Hy & E). apply Z.eqb_eq in E. now subst.
  - intros H. exists x. split; [exact H | apply Z.eqb_refl].
Qed.

Lemma sameIds_Permutation (a b : list Z) : Permutation a b -> sameIds a b = true.
Proof.
  intros HP. unfold sameIds. apply andb_true_intro. split.
  - apply Nat.eqb_eq. now apply Permutation_length.
  - apply forallb_forall. intros x Hx. apply hasId_In.
    now apply (Permutation_in _ HP).
Qed.

Lemma diffsAdded_false (newMapIds oldMapIds : list Z) :
  (forall x, In x newMapIds -> In x oldMapIds) ->
  diffsAdded newMapIds oldMapIds = false.
Proof.
  intros Hsub. unfold diffsAdded.
  replace (filter (fun x => negb (hasId oldMapIds x)) newMapIds) with (@nil Z).
  - reflexivity.
  - symmetry. induction newMapIds as [|x xs IH]; [reflexivity|].
    rewrite filter_cons.
    assert (Hx : hasId oldMapIds x = true)
      by (apply hasId_In, Hsub; now left).
    destruct (decide (negb (hasId oldMapIds x))) as [Hd|_].
    + rewrite Hx in Hd. inversion Hd.
    + apply IH. intros y Hy. apply Hsub. now right.
Qed.

(** Nominations only append to the list of nominators. *)
Lemma replay_nominations beatmapSet (noms : list MapEvent) : forall s,
  Forall (fun e => eventType e = nominate) noms ->
  fold_left (replayEvent c beatmapSet) noms s
  = {| previousQueueDuration := previousQueueDuration s;
       queuedAt := queuedAt s;
       lastDisqualifiedEvent := lastDisqualifiedEvent s;
       currentNominators := currentNominators s ++ map userId noms;
       penaltyDays := penaltyDays s |}.
Proof.
  induction noms as [|e es IH]; intros s Hall; cbn [fold_left map].
  - rewrite app_nil_r. now destruct s.
  - inversion Hall as [|? ? He Hes]; subst.
    rewrite IH by exact Hes. unfold replayEvent. rewrite He. cbn.
    now rewrite <- app_assoc.
Qed.

(** C3 (scenario S2): a set qualified at [t0], disqualified three days later,
    nominated again by exactly the nominators recorded on the disqualify
    event, and requalified at [t1], ten days after the disqualification, with
    no beatmap id beyond those of the disqualify event, has
    [queuedAt = t1 - 2 * DAY] and is given [queueDate = t1 + 5 * DAY], for
    [MINIMUM_DAYS_FOR_RANK = 7] and a penalty cap of at least one day. *)
Theorem requalify_same_nominators (beatmapSet : BeatmapSet)
    (first dq second : MapEventAPI) (noms : list MapEventAPI) (t0 t1 : Z) :
  0 < DAY c -> MINIMUM_DAYS_FOR_RANK c = 7 -> 1 <= MAXIMUM_PENALTY_DAYS c ->
  type first = qualify -> created_at first = t0 ->
  type dq = disqualify -> created_at dq = t0 + 3 * DAY c ->
  Forall (fun e => type e = nominate) noms ->
  Permutation (nominators (toMapEvent dq)) (map user_id noms) ->
  type second = qualify -> t1 = created_at dq + 10 * DAY c ->
  created_at second = t1 ->
  (forall b, In b (beatmaps beatmapSet) ->
             In (beatmapId b) (beatmapIds (toMapEvent dq))) ->
  let api := rev ([first; dq] ++ noms ++ [second]) in
  queuedAt (replay c beatmapSet (rev (map toMapEvent api)))
  = Some (t1 - Z.min (3 * DAY c) ((MINIMUM_DAYS_FOR_RANK c - 1) * DAY c)
             + (10 / 7) * DAY c)
  /\ queuedAt (replay c beatmapSet (rev (map toMapEvent api)))
     = Some (t1 - 2 * DAY c)
  /\ setQueueDate c beatmapSet (Some api)
     = Returned (withQueueDate (Some (t1 + 5 * DAY c)) beatmapSet).
Proof.
  intros Hday Hmin Hpen Hq0 Ht0 Hdq Htdq Hnoms Hperm Hq1 Ht1 Ht1' Hids api.
  assert (Hnoms' : Forall (fun e => eventType e = nominate)
                          (map toMapEvent noms)).
  { apply List.Forall_forall. intros e He.
    apply in_map_iff in He as (x & <- & Hx).
    rewrite List.Forall_forall in Hnoms. exact (Hnoms x Hx). }
  assert (Hsame : sameIds (nominators (toMapEvent dq))
                          (map userId (map toMapEvent noms)) = true).
  { rewrite map_map. apply sameIds_Permutation. exact Hperm. }
  assert (Hadded : diffsAdded (map beatmapId (beatmaps beatmapSet))
                              (beatmapIds (toMapEvent dq)) = false).
  { apply diffsAdded_false. intros x Hx.
    apply in_map_iff in Hx as (b & <- & Hb). now apply Hids. }
  assert (Hreplay :
    queuedAt (replay c beatmapSet (rev (map toMapEvent api)))
    = Some (t1 - 2 * DAY c)).
  { unfold api. rewrite map_rev, rev_involutive.
    rewrite !map_app. cbn [map app]. unfold replay.
    cbn [fold_left]. rewrite fold_left_app.
    rewrite (replay_nominations _ (map toMapEvent noms)) by exact Hnoms'.
    cbn [fold_left].
    set (dqEvent := toMapEvent dq) in *.
    assert (Hdqt : eventType dqEvent = disqualify) by exact Hdq.
    assert (Hdqtime : time dqEvent = t0 + 3 * DAY c) by exact Htdq.
    assert (H1 : replayEvent c beatmapSet replayStart (toMapEvent first)
                 = {| previousQueueDuration := 0; queuedAt := Some t0;
                      lastDisqualifiedEvent := None; currentNominators := [];
                      penaltyDays := 0 |}).
    { unfold replayEvent. cbn [eventType toMapEvent]. rewrite Hq0.
      unfold replayQualify. cbn. rewrite Ht0, Hmin.
      rewrite Z.min_l by lia. now rewrite Z.sub_0_r. }
    rewrite H1.
    assert (H2 : forall s, replayEvent c beatmapSet s dqEvent
                 = {| previousQueueDuration :=
                        match queuedAt s with
                        | Some q => time dqEvent - q
                        | None => previousQueueDuration s
                        end;
                      queuedAt := queuedAt s;
                      lastDisqualifiedEvent := Some dqEvent;
                      currentNominators := [];
                      penaltyDays := penaltyDays s |}).
    { intros s. unfold replayEvent. now rewrite Hdqt. }
    rewrite H2. cbn [queuedAt previousQueueDuration lastDisqualifiedEvent
                     currentNominators penaltyDays app].
    unfold replayEvent. cbn [eventType toMapEvent]. rewrite Hq1.
    unfold replayQualify.
    cbn [queuedAt previousQueueDuration lastDisqualifiedEvent
         currentNominators penaltyDays time toMapEvent].
    rewrite Hsame, Hadded. cbn [negb queuedAt].
    rewrite Hdqtime, Ht1', Ht1, Htdq, Hmin.
    f_equal.
    replace (t0 + 3 * DAY c + 10 * DAY c - (t0 + 3 * DAY c)) with (10 * DAY c)
      by lia.
    replace (10 * DAY c / (DAY c * 7)) with 1
      by (apply Z.div_unique with (r := 3 * DAY c); lia).
    rewrite (Z.min_l 1) by lia. rewrite Z.min_l by lia. lia. }
  split; [|split].
  - rewrite Hreplay. f_equal. rewrite Hmin.
    change (10 / 7) with 1. lia.
  - exact Hreplay.
  - unfold setQueueDate. fold api. rewrite Hreplay.
    unfold queueDateOf. cbn. rewrite Hmin. do 3 f_equal. lia.
Qed.

End QueueDateFacts.

Lemma setQueueDate_null_queuedAt_witness :
  setQueueDate specConstants sampleSet (Some [])
  = Returned (withQueueDate (Some (7 * 86400000)) sampleSet)
  /\ (forall fetched,
        setQueueDate specConstants sampleSet fetched
        <> Threw EventLogInconsistent).
Proof.
  apply (setQueueDate_null_queuedAt specConstants sampleSet []).
  reflexivity.
Defined.

(** C1 as stated fails: for a set with an empty event log, and for one whose
    log holds a disqualification and a rank but no qualify, [setQueueDate]
    returns normally and assigns 1970-01-08 as the queue date. *)
Lemma setQueueDate_null_counterexample :
  queuedAt (replay specConstants sampleSet []) = None /\
  setQueueDate specConstants sampleSet (Some [])
  = Returned (withQueueDate (Some 604800000) sampleSet) /\
  queuedAt (replay specConstants sampleSet
              (rev (map toMapEvent [s2Disqualify]))) = None /\
  setQueueDate specConstants sampleSet (Some [s2Disqualify])
  = Returned (withQueueDate (Some 604800000) sampleSet).
Proof. repeat split. Qed.

Lemma requalify_same_nominators_witness :
  let t1 := 1000000 + 13 * 86400000 in
  let api := rev ([s2First; s2Disqualify] ++ s2Nominations ++ [s2Second]) in
  queuedAt (replay specConstants sampleSet (rev (map toMapEvent api)))
  = Some (t1 - Z.min (3 * 86400000) ((7 - 1) * 86400000) + (10 / 7) * 86400000)
  /\ queuedAt (replay specConstants sampleSet (rev (map toMapEvent api)))
     = Some (t1 - 2 * 86400000)
  /\ setQueueDate specConstants sampleSet (Some api)
     = Returned (withQueueDate (Some (t1 + 5 * 86400000)) sampleSet).
Proof.
  apply (requalify_same_nominators specConstants sampleSet
           s2First s2Disqualify s2Second s2Nominations
           1000000 (1000000 + 13 * 86400000)).
  - reflexivity.
  - reflexivity.
  - cbn. lia.
  - reflexivity.
  - reflexivity.
  - reflexivity.
  - reflexivity.
  - repeat constructor.
  - cbn. apply perm_swap.
  - reflexivity.
  - reflexivity.
  - reflexivity.
  - cbn. intros b [<- | [<- | []]]; cbn; tauto.
Defined.

(** ** [intervalTimeDelta] *)

(** On a host whose offset from UTC is a whole number of minutes, the local
    seconds are the UTC seconds. *)
Lemma getSeconds_UTC (localTZA : Z -> Z) (t : Z) :
  (60000 | localTZA t) -> getSeconds localTZA t = getUTCSeconds t.
Proof.
  intros [k Hk]. unfold getSeconds, getUTCSeconds. rewrite Hk.
  replace (t + k * 60000) with (t + (k * 60) * 1000) by lia.
  rewrite Z.div_add by lia.
  rewrite Z.add_mod by lia. rewrite Z.mod_mul by lia.
  rewrite Z.add_0_r. apply Z.mod_mod. lia.
Qed.

Lemma intervalTimeDelta_literal (localTZA : Z -> Z) (date : Z) :
  (60000 | localTZA date) ->
  intervalTimeDelta localTZA date = intervalTimeDeltaSpec 20 date.
Proof.
  intros Htz. unfold intervalTimeDelta, intervalTimeDeltaSpec.
  now rewrite getSeconds_UTC.
Qed.

(** ** What the projector writes *)

Lemma framed_refl ls h : framed ls h h.
Proof. intros l. destruct (h !! l) as [b|]; eauto. Qed.

Lemma framed_trans ls h1 h2 h3 :
  framed ls h1 h2 -> framed ls h2 h3 -> framed ls h1 h3.
Proof.
  intros H12 H23 l. specialize (H12 l). specialize (H23 l).
  destruct (h1 !! l) as [b1|].
  - destruct H12 as (b2 & E2 & U2 & K2). rewrite E2 in H23.
    destruct H23 as (b3 & E3 & U3 & K3).
    exists b3. split; [exact E3|]. split; [congruence|].
    intros Hl. rewrite K3, K2 by exact Hl. reflexivity.
  - rewrite H12 in H23. exact H23.
Qed.

Lemma framed_mono ls ls' h h' :
  (forall l, l ∈ ls -> l ∈ ls') -> framed ls h h' -> framed ls' h h'.
Proof.
  intros Hsub H l. specialize (H l). destruct (h !! l) as [b|]; [|exact H].
  destruct H as (b' & E & U & K). exists b'. repeat split; try assumption.
  intros Hl. apply K. intros Hin. apply Hl, Hsub, Hin.
Qed.

Lemma writesOnly_mono {A} ls ls' (m : M A) :
  (forall l, l ∈ ls -> l ∈ ls') -> writesOnly ls m -> writesOnly ls' m.
Proof. intros Hsub H h r h' E. eapply framed_mono; eauto. Qed.

Lemma writesOnly_ret {A} ls (a : A) : writesOnly ls (ret a).
Proof. intros h r h' E. injection E as _ <-. apply framed_refl. Qed.

Lemma writesOnly_throw {A} ls : writesOnly ls (@throw A).
Proof. intros h r h' E. injection E as _ <-. apply framed_refl. Qed.

Lemma writesOnly_bind {A B} ls (m : M A) (k : A -> M B) :
  writesOnly ls m -> (forall a, writesOnly ls (k a)) ->
  writesOnly ls (bind m k).
Proof.
  intros Hm Hk h r h' E. unfold bind in E.
  destruct (m h) as [[a|] h1] eqn:E1.
  - eapply framed_trans; [eapply Hm, E1 | eapply Hk, E].
  - injection E as _ <-. eapply Hm, E1.
Qed.

Lemma writesOnly_bind_ret {A B} ls (a : A) (k : A -> M B) :
  writesOnly ls (k a) -> writesOnly ls (bind (ret a) k).
Proof. intros Hk h r h' E. exact (Hk h r h' E). Qed.

Lemma writesOnly_bind_throw {A B} ls (k : A -> M B) :
  writesOnly ls (bind throw k).
Proof. intros h r h' E. injection E as _ <-. apply framed_refl. Qed.

Lemma writesOnly_deref ls l : writesOnly ls (deref l).
Proof.
  intros h r h' E. unfold deref in E. injection E as _ <-. apply framed_refl.
Qed.

Lemma writesOnly_assign ls l f :
  l ∈ ls -> (forall b, unscheduled (f b) = unscheduled b) ->
  writesOnly ls (assign l f).
Proof.
  intros Hl Hf h r h' E. unfold assign in E.
  destruct (h !! l) as [b|] eqn:El; injection E as _ <-; [|apply framed_refl].
  intros l'. destruct (decide (l = l')) as [<-|Hne].
  - rewrite El. exists (f b). rewrite lookup_insert_eq.
    split; [reflexivity|]. split; [apply Hf|]. intros Hn. now destruct Hn.
  - rewrite lookup_insert_ne by exact Hne.
    destruct (h !! l') as [b'|]; eauto.
Qed.

Lemma writesOnly_arrayAt {A} ls (xs : list A) i : writesOnly ls (arrayAt xs i).
Proof.
  unfold arrayAt. destruct (xs !! i);
    [apply writesOnly_ret | apply writesOnly_throw].
Qed.

Lemma writesOnly_getTime ls d : writesOnly ls (getTime d).
Proof.
  unfold getTime. destruct d; [apply writesOnly_ret | apply writesOnly_throw].
Qed.

Lemma writesOnly_derefAll ls refs : writesOnly ls (derefAll refs).
Proof.
  induction refs as [|l refs IH]; cbn [derefAll].
  - apply writesOnly_ret.
  - apply writesOnly_bind; [apply writesOnly_deref|]. intros b.
    apply writesOnly_bind; [exact IH|]. intros bs. apply writesOnly_ret.
Qed.

Lemma writesOnly_filterResolved ls refs : writesOnly ls (filterResolved refs).
Proof.
  induction refs as [|l refs IH]; cbn [filterResolved].
  - apply writesOnly_ret.
  - apply writesOnly_bind; [apply writesOnly_deref|]. intros b.
    apply writesOnly_bind; [exact IH|]. intros bs. apply writesOnly_ret.
Qed.

Lemma writesOnly_every {A} ls (p : A -> M bool) xs :
  (forall x, writesOnly ls (p x)) -> writesOnly ls (every p xs).
Proof.
  intros Hp. induction xs as [|x xs IH]; cbn [every].
  - apply writesOnly_ret.
  - apply writesOnly_bind; [apply Hp|]. intros [|];
      [exact IH | apply writesOnly_ret].
Qed.

Lemma writesOnly_forEach {A} ls (body : A -> M unit) xs :
  (forall x, x ∈ xs -> writesOnly ls (body x)) -> writesOnly ls (forEach body xs).
Proof.
  induction xs as [|x xs IH]; intros Hbody; cbn [forEach].
  - apply writesOnly_ret.
  - apply writesOnly_bind.
    + apply Hbody. left.
    + intros _. apply IH. intros y Hy. apply Hbody. now right.
Qed.

Create HintDb frame discriminated.
#[local] Hint Resolve writesOnly_ret writesOnly_throw writesOnly_deref
  writesOnly_arrayAt writesOnly_getTime writesOnly_derefAll
  writesOnly_filterResolved : frame.

(** Steps through a computation, leaving the assignments to the caller. *)
Ltac frame_step :=
  first
    [ apply writesOnly_bind; [|intros ?]
    | apply writesOnly_every; intros ?
    | match goal with
      | |- writesOnly _ (if ?b then _ else _) => destruct b
      | |- writesOnly _ (match ?o with Some _ => _ | None => _ end) =>
          destruct o
      end
    | solve [auto with frame] ].

Section Frame.
Context (c : Constants) (localTZA : Z -> Z).

Lemma writesOnly_rankSlot ls l : writesOnly ls (rankSlot c l).
Proof. unfold rankSlot. repeat frame_step. Qed.

Lemma writesOnly_settleAtRankDate ls l :
  l ∈ ls -> writesOnly ls (settleAtRankDate l).
Proof.
  intros Hl. unfold settleAtRankDate.
  repeat frame_step; apply writesOnly_assign; auto.
Qed.

Lemma writesOnly_perRunCap ls combined i l :
  l ∈ ls -> writesOnly ls (perRunCap c combined i l).
Proof.
  intros Hl. unfold perRunCap, pullForward, pushBack.
  repeat first
    [ apply writesOnly_rankSlot
    | apply writesOnly_settleAtRankDate; exact Hl
    | apply writesOnly_assign; [exact Hl | reflexivity]
    | frame_step ].
Qed.

Lemma writesOnly_adjustRankDatesAt ls rankedLength combined i :
  (forall l, combined !! i = Some l -> l ∈ ls) ->
  writesOnly ls (adjustRankDatesAt c localTZA rankedLength combined i).
Proof.
  intros Hl. unfold adjustRankDatesAt, arrayAt.
  destruct (combined !! i) as [l|] eqn:E.
  - specialize (Hl l eq_refl). apply writesOnly_bind_ret.
    repeat first
      [ apply writesOnly_perRunCap; exact Hl
      | apply writesOnly_assign; [exact Hl | reflexivity]
      | frame_step ].
  - apply writesOnly_bind_throw.
Qed.

End Frame.

Section FrameOfTheProjector.
Context (c : Constants) (localTZA : Z -> Z).

Lemma framed_unchanged ls h h' l :
  framed ls h h' -> l ∉ ls -> h' !! l = h !! l.
Proof.
  intros H Hl. specialize (H l). destruct (h !! l) as [b|]; [|exact H].
  destruct H as (b' & E & _ & K). rewrite E, K by exact Hl. reflexivity.
Qed.

Lemma processed_index (qualifiedMaps rankedMaps : list loc) (start i : nat) l :
  (length rankedMaps + start <= i)%nat ->
  (rankedMaps ++ qualifiedMaps) !! i = Some l ->
  l ∈ drop start qualifiedMaps.
Proof.
  intros Hi E. rewrite lookup_app_r in E by lia.
  apply list_elem_of_lookup. exists (i - length rankedMaps - start)%nat.
  rewrite lookup_drop. rewrite <- E. f_equal. lia.
Qed.

Lemma writesOnly_adjustRankDates (qualifiedMaps rankedMaps : list loc) start :
  writesOnly (drop start qualifiedMaps)
             (adjustRankDates c localTZA qualifiedMaps rankedMaps start).
Proof.
  unfold adjustRankDates. apply writesOnly_forEach. intros i Hi.
  apply writesOnly_adjustRankDatesAt. intros l E.
  apply list_elem_of_In, in_seq in Hi.
  eapply processed_index; [|exact E]. lia.
Qed.

Lemma writesOnly_countRankDates ls rankDates refs :
  writesOnly ls (countRankDates c rankDates refs).
Proof.
  revert rankDates. induction refs as [|l refs IH]; intros rankDates;
    cbn [countRankDates].
  - apply writesOnly_ret.
  - apply writesOnly_bind; [|intros r; apply IH].
    unfold countRankDate. repeat frame_step.
Qed.

Lemma writesOnly_recalcProbability ls rankDates l :
  l ∈ ls -> writesOnly ls (recalcProbability c localTZA rankDates l).
Proof.
  intros Hl. unfold recalcProbability.
  repeat first [ apply writesOnly_assign; [exact Hl | reflexivity]
               | frame_step ].
Qed.

Lemma writesOnly_calcEarlyProbability (qualifiedMaps : list (list loc)) :
  writesOnly (concat qualifiedMaps)
             (calcEarlyProbability c localTZA qualifiedMaps).
Proof.
  unfold calcEarlyProbability.
  apply writesOnly_bind; [apply writesOnly_countRankDates|]. intros rankDates.
  apply writesOnly_forEach. intros l Hl.
  now apply writesOnly_recalcProbability.
Qed.

Lemma writesOnly_adjustAllRankDates (qualifiedMaps rankedMaps : list (list loc)) :
  writesOnly (concat qualifiedMaps)
             (adjustAllRankDates c localTZA qualifiedMaps rankedMaps).
Proof.
  unfold adjustAllRankDates.
  apply writesOnly_bind; [|intros _; apply writesOnly_calcEarlyProbability].
  apply writesOnly_forEach. intros mode _. unfold arrayAt.
  destruct (qualifiedMaps !! mode) as [qs|] eqn:Eq;
    [apply writesOnly_bind_ret | apply writesOnly_bind_throw].
  destruct (rankedMaps !! mode) as [rs|] eqn:Er;
    [apply writesOnly_bind_ret | apply writesOnly_bind_throw].
  eapply writesOnly_mono; [|apply writesOnly_adjustRankDates].
  intros l Hl. cbn [drop] in Hl.
  apply list_elem_of_In, in_concat. exists qs. split.
  - apply list_elem_of_In, list_elem_of_lookup. eauto.
  - now apply list_elem_of_In.
Qed.

(** C8: a run of [adjustRankDates] changes no object other than those behind
    the qualified entries from [start] on, and a run of [adjustAllRankDates]
    none other than those behind the qualified entries; of the objects they
    change, they change only [rankDateEarly], [rankDate] and [probability].
    So every ranked set, being no qualified entry as well, is afterwards
    what it was before, in every field.  This holds of the heap that a run
    leaves whether it returns or throws ([r] is either outcome). *)
Theorem projector_frame :
  (forall (qualifiedMaps rankedMaps : list loc) (start : nat) h r h',
     adjustRankDates c localTZA qualifiedMaps rankedMaps start h = (r, h') ->
     framed (drop start qualifiedMaps) h h' /\
     (forall l, l ∈ rankedMaps -> l ∉ drop start qualifiedMaps ->
                h' !! l = h !! l)) /\
  (forall (qualifiedMaps rankedMaps : list (list loc)) h r h',
     adjustAllRankDates c localTZA qualifiedMaps rankedMaps h = (r, h') ->
     framed (concat qualifiedMaps) h h' /\
     (forall l, l ∈ concat rankedMaps -> l ∉ concat qualifiedMaps ->
                h' !! l = h !! l)).
Proof.
  split.
  - intros qs rs start h r h' E.
    pose proof (writesOnly_adjustRankDates qs rs start h r h' E) as HF.
    split; [exact HF|]. intros l _ Hl. eapply framed_unchanged; eauto.
  - intros qs rs h r h' E.
    pose proof (writesOnly_adjustAllRankDates qs rs h r h' E) as HF.
    split; [exact HF|]. intros l _ Hl. eapply framed_unchanged; eauto.
Qed.

End FrameOfTheProjector.

(** ** The second pass of [calcEarlyProbability] *)

Section EarlyProbability.
Context (c : Constants) (localTZA : Z -> Z).

Lemma recalcProbability_pure rankDates l h :
  recalcProbability c localTZA rankDates l h
  = match h !! l with
    | Some b =>
        match recalcSet c localTZA rankDates b with
        | Some b' => (Some tt, <[l := b']> h)
        | None => (None, h)
        end
    | None => (None, h)
    end.
Proof.
  unfold recalcProbability, recalcSet, bind, deref, getTime, ret, throw, assign.
  destruct (h !! l) as [b|] eqn:E; [|reflexivity].
  destruct (rankDateEarly b) as [early|]; [|reflexivity].
  destruct (probability b) as [p|].
  - destruct (rankDate b) as [t|]; [|reflexivity].
    destruct (early =? t).
    + now rewrite insert_id.
    + now rewrite E.
  - now rewrite insert_id.
Qed.

Lemma recalcSet_idempotent rankDates b b' :
  recalcSet c localTZA rankDates b = Some b' ->
  recalcSet c localTZA rankDates b' = Some b'.
Proof.
  unfold recalcSet.
  destruct (rankDateEarly b) as [early|] eqn:Ee; [|discriminate].
  destruct (probability b) as [p|] eqn:Ep.
  - destruct (rankDate b) as [t|] eqn:Et; [|discriminate].
    destruct (early =? t) eqn:Eq; intros [= <-].
    + now rewrite Ee, Ep, Et, Eq.
    + cbn. rewrite Ee, Et, Eq. reflexivity.
  - intros [= <-]. now rewrite Ee, Ep.
Qed.

Lemma recalcSet_total rankDates b :
  is_Some (rankDateEarly b) -> is_Some (rankDate b) ->
  is_Some (recalcSet c localTZA rankDates b).
Proof.
  intros [early Ee] [t Et]. unfold recalcSet. rewrite Ee, Et.
  destruct (probability b); [destruct (early =? t)|]; eauto.
Qed.

Lemma forEach_recalcProbability rankDates refs : forall h,
  (forall l, l ∈ refs ->
     exists b, h !! l = Some b /\ is_Some (recalcSet c localTZA rankDates b)) ->
  exists h',
    forEach (recalcProbability c localTZA rankDates) refs h = (Some tt, h') /\
    forall l b, h !! l = Some b ->
      exists b', h' !! l = Some b' /\
                 (l ∉ refs -> b' = b) /\
                 (l ∈ refs -> recalcSet c localTZA rankDates b = Some b').
Proof.
  induction refs as [|l0 rest IH]; intros h Hok.
  - exists h. split; [reflexivity|]. intros l b E. exists b.
    split; [exact E|]. split; [reflexivity|]. intros Hl. inversion Hl.
  - destruct (Hok l0 ltac:(left)) as (b0 & E0 & [b0' R0]).
    cbn [forEach]. unfold bind at 1. rewrite recalcProbability_pure, E0, R0.
    destruct (IH (<[l0 := b0']> h)) as (h' & Hrun & Hall).
    { intros l Hl. destruct (decide (l0 = l)) as [<-|Hne].
      - exists b0'. rewrite lookup_insert_eq. split; [reflexivity|].
        rewrite (recalcSet_idempotent _ _ _ R0). eauto.
      - rewrite lookup_insert_ne by exact Hne. apply Hok. now right. }
    exists h'. split; [exact Hrun|]. intros l b E.
    destruct (decide (l0 = l)) as [<-|Hne].
    + rewrite E0 in E. injection E as <-.
      destruct (Hall l0 b0' (lookup_insert_eq _ _ _)) as (b' & E' & Hout & Hin).
      exists b'. split; [exact E'|]. split.
      * intros Hn. exfalso. apply Hn. left.
      * intros _. destruct (decide (l0 ∈ rest)) as [Hr|Hr].
        -- specialize (Hin Hr).
           rewrite (recalcSet_idempotent _ _ _ R0) in Hin. congruence.
        -- rewrite (Hout Hr). exact R0.
    + assert (E1 : <[l0 := b0']> h !! l = Some b)
        by (rewrite lookup_insert_ne by exact Hne; exact E).
      destruct (Hall l b E1) as (b' & E' & Hout & Hin).
      exists b'. split; [exact E'|]. split.
      * intros Hn. apply Hout. intros Hr. apply Hn. now right.
      * intros Hl. apply Hin. inversion Hl; subst; [now destruct Hne | assumption].
Qed.

Lemma countRankDates_total refs : forall rankDates h,
  (forall l, l ∈ refs ->
     exists b, h !! l = Some b /\ is_Some (rankDateEarly b) /\
               is_Some (rankDate b)) ->
  exists rankDates', countRankDates c rankDates refs h = (Some rankDates', h).
Proof.
  induction refs as [|l0 rest IH]; intros rankDates h Hok.
  - eexists. reflexivity.
  - destruct (Hok l0 ltac:(left)) as (b0 & E0 & [early Ee] & [t Et]).
    cbn [countRankDates]. unfold bind at 1.
    unfold countRankDate, bind, deref, getTime, ret. rewrite E0, Ee, Et.
    destruct (SPLIT c <? from_option (fun p => p) 0 (probability b0))%float;
      apply IH; intros l Hl; apply Hok; now right.
Qed.

(** C10: on sets that all carry a [rankDateEarly] and a [rankDate], as they
    do after [adjustRankDates], [calcEarlyProbability] does not throw; and a
    set with a probability and [rankDateEarly != rankDate] whose bucket
    [rankDates[floor(rankDateEarly)]] is absent after the first pass gets the
    probability of [probabilityAfter] with the other-mode counts absent. *)
Theorem calcEarlyProbability_missing_bucket (qualifiedMaps : list (list loc)) h :
  (forall l, l ∈ concat qualifiedMaps ->
     exists b, h !! l = Some b /\ is_Some (rankDateEarly b) /\
               is_Some (rankDate b)) ->
  exists rankDates h',
    countRankDates c ∅ (concat qualifiedMaps) h = (Some rankDates, h) /\
    calcEarlyProbability c localTZA qualifiedMaps h = (Some tt, h') /\
    forall l b early t p,
      l ∈ concat qualifiedMaps -> h !! l = Some b ->
      rankDateEarly b = Some early -> rankDate b = Some t ->
      probability b = Some p -> early <> t ->
      rankDates !! roundMinutes c early true = None ->
      h' !! l
      = Some (withProbability
                (Some (probabilityAfter c
                         (Z2F (intervalTimeDelta localTZA early)) None))
                b).
Proof.
  intros Hok.
  destruct (countRankDates_total (concat qualifiedMaps) ∅ h Hok)
    as (rankDates & Hcount).
  destruct (forEach_recalcProbability rankDates (concat qualifiedMaps) h)
    as (h' & Hrun & Hall).
  { intros l Hl. destruct (Hok l Hl) as (b & E & He & Ht).
    exists b. split; [exact E|]. now apply recalcSet_total. }
  exists rankDates, h'. split; [exact Hcount|]. split.
  - unfold calcEarlyProbability, bind. rewrite Hcount. exact Hrun.
  - intros l b early t p Hl E Ee Et Ep Hne Hmiss.
    destruct (Hall l b E) as (b' & E' & _ & Hin).
    rewrite E'. rewrite <- (Hin Hl).
    unfold recalcSet. rewrite Ee, Ep, Et, Hmiss.
    destruct (early =? t) eqn:Eq; [|reflexivity].
    apply Z.eqb_eq in Eq. contradiction.
Qed.

End EarlyProbability.

(** ** The heap loop computes the function of the objects *)

Section PureStepFacts.
Context (c : Constants) (localTZA : Z -> Z).

Lemma refsTo_insert_ne h ls bs l q :
  l ∉ ls -> refsTo h ls bs -> refsTo (<[l := q]> h) ls bs.
Proof.
  intros Hl H. induction H as [|l' b ls' bs' E H IH]; constructor.
  - rewrite lookup_insert_ne; [exact E|]. intros ->. apply Hl. left.
  - apply IH. intros Hin. apply Hl. now right.
Qed.

Lemma refsTo_lookup h ls bs i :
  refsTo h ls bs ->
  match ls !! i with
  | Some l => exists b, bs !! i = Some b /\ h !! l = Some b
  | None => bs !! i = None
  end.
Proof.
  intros H. revert i. induction H as [|l b ls' bs' E H IH]; intros [|i]; cbn.
  - reflexivity.
  - reflexivity.
  - eauto.
  - apply IH.
Qed.

Lemma refsTo_rev h ls bs : refsTo h ls bs -> refsTo h (rev ls) (rev bs).
Proof.
  intros H. induction H as [|l b ls' bs' E H IH]; cbn [rev].
  - constructor.
  - apply Forall2_app; [exact IH|]. now constructor.
Qed.

Lemma refsTo_take h ls bs n :
  refsTo h ls bs -> refsTo h (take n ls) (take n bs).
Proof. intros H. now apply Forall2_take. Qed.

Lemma derefAll_refsTo h ls bs :
  refsTo h ls bs -> derefAll ls h = (Some bs, h).
Proof.
  intros H. induction H as [|l b ls' bs' E H IH]; cbn [derefAll].
  - reflexivity.
  - unfold bind, deref. rewrite E, IH. reflexivity.
Qed.

Lemma filterResolved_refsTo h ls bs :
  refsTo h ls bs ->
  exists ls', filterResolved ls h = (Some ls', h) /\
              refsTo h ls' (keepResolved bs) /\
              (forall l, l ∈ ls' -> l ∈ ls).
Proof.
  intros H. induction H as [|l b ls' bs' E H (fs & Hf & Hr & Hsub)];
    cbn [filterResolved keepResolved].
  - exists []. repeat split; [constructor | intros l Hl; inversion Hl].
  - unfold bind, deref. rewrite E, Hf.
    unfold ret. destruct (unresolved b).
    + exists fs. repeat split; [exact Hr|]. intros l' Hl'. right. auto.
    + exists (l :: fs). repeat split; [now constructor|].
      intros l' Hl'. inversion Hl'; subst; [left | right; auto].
Qed.

Lemma rankSlot_pure h l b :
  h !! l = Some b ->
  rankSlot c l h = (slotOf c b, h).
Proof.
  intros E. unfold rankSlot, slotOf, bind, deref, getTime, ret, throw.
  rewrite E. now destruct (rankDate b).
Qed.

Lemma every_pure h (p : loc -> M bool) (po : BeatmapSet -> option bool) ls bs :
  refsTo h ls bs ->
  (forall l b, h !! l = Some b -> p l h = (po b, h)) ->
  every p ls h = (everyO po bs, h).
Proof.
  intros H Hp. induction H as [|l b ls' bs' E H IH]; cbn [every everyO].
  - reflexivity.
  - unfold bind. rewrite (Hp l b E).
    destruct (po b) as [[|]|]; [exact IH | reflexivity | reflexivity].
Qed.

End PureStepFacts.

Lemma returned_Some {A} (m : M A) h a h' :
  returned m h = Some (a, h') <-> m h = (Some a, h').
Proof. unfold returned. destruct (m h) as [[a0|] h1]; split; congruence. Qed.

Lemma returned_None {A} (m : M A) h :
  returned m h = None <-> (m h).1 = None.
Proof. unfold returned. destruct (m h) as [[a0|] h1]; split; cbn; congruence. Qed.

Lemma returned_bind {A B} (m : M A) (k : A -> M B) h :
  returned (bind m k) h
  = match returned m h with
    | Some (a, h') => returned (k a) h'
    | None => None
    end.
Proof. unfold returned, bind. now destruct (m h) as [[a|] h1]. Qed.

Section StepRefinement.
Context (c : Constants) (localTZA : Z -> Z).

Lemma settleAtRankDate_pure h l q :
  h !! l = Some q ->
  settleAtRankDate l h = (Some tt, <[l := settled q]> h).
Proof.
  intros E. unfold settleAtRankDate, bind, deref, assign.
  repeat (first [rewrite E | rewrite lookup_insert_eq]; cbv beta iota).
  now rewrite insert_insert_eq.
Qed.

Lemma pullForward_pure h l q first b0 :
  h !! l = Some q -> h !! first = Some b0 ->
  pullForward c first l h
  = match pulledForward c b0 q with
    | Some q' => (Some tt, <[l := q']> h)
    | None => (None, h)
    end.
Proof.
  intros El Ef. unfold pullForward, pulledForward.
  unfold bind, deref, getTime, ret, throw, assign.
  rewrite Ef. cbv beta iota.
  destruct (queueDate b0) as [qd|]; [|now rewrite insert_id].
  rewrite El. cbv beta iota.
  destruct (rankDate q) as [t|]; [|reflexivity]. cbv beta iota.
  rewrite (rankSlot_pure c h first b0 Ef).
  destruct (slotOf c b0) as [slot|] eqn:Es; [|reflexivity]. cbv beta iota.
  destruct (t <? slot); [|now rewrite insert_id].
  rewrite (rankSlot_pure c h first b0 Ef), Es. cbv beta iota.
  rewrite El. cbv beta iota.
  rewrite (settleAtRankDate_pure _ _ _ (lookup_insert_eq _ _ _)).
  now rewrite insert_insert_eq.
Qed.

Lemma pushBack_pure h l q filteredMaps filtered first b0 :
  h !! l = Some q -> h !! first = Some b0 ->
  refsTo h filteredMaps filtered ->
  pushBack c filteredMaps first l h
  = match pushedBack c filtered b0 q with
    | Some q' => (Some tt, <[l := q']> h)
    | None => (None, h)
    end.
Proof.
  intros El Ef Hrefs. unfold pushBack, pushedBack.
  unfold bind at 1.
  rewrite (every_pure h _ (saturatedBy c q) _ (take (RANK_PER_RUN c) filtered)).
  2:{ now apply refsTo_take. }
  2:{ intros l' b E'. unfold bind, deref, getTime, ret, throw.
      rewrite (rankSlot_pure c h l' b E'). unfold saturatedBy.
      destruct (slotOf c b) as [slot|]; [|reflexivity]. cbv beta iota.
      rewrite El. cbv beta iota. now destruct (rankDateEarly q). }
  destruct (everyO (saturatedBy c q) _) as [[|]|]; [| |reflexivity].
  2:{ unfold ret. now rewrite insert_id. }
  unfold bind at 1.
  rewrite (every_pure h _ (sameSlotAs c filtered) _ (take (RANK_PER_RUN c) filtered)).
  2:{ now apply refsTo_take. }
  2:{ intros l' b E'. unfold bind, ret, throw, arrayAt.
      rewrite (rankSlot_pure c h l' b E'). unfold sameSlotAs.
      destruct (slotOf c b) as [slot|]; [|reflexivity]. cbv beta iota.
      pose proof (refsTo_lookup h filteredMaps filtered (RANK_PER_RUN c - 1) Hrefs) as Hl.
      destruct (filteredMaps !! (RANK_PER_RUN c - 1)%nat) as [last|].
      - destruct Hl as (bl & -> & El'). unfold ret. cbv beta iota.
        rewrite (rankSlot_pure c h last bl El').
        now destruct (slotOf c bl).
      - now rewrite Hl. }
  destruct (everyO (sameSlotAs c filtered) _) as [allSame|]; [|reflexivity].
  unfold bind at 1. rewrite (rankSlot_pure c h first b0 Ef).
  destruct (slotOf c b0) as [slot|]; [|reflexivity].
  unfold bind, assign. rewrite El. cbv beta iota.
  rewrite (settleAtRankDate_pure _ _ _ (lookup_insert_eq _ _ _)).
  now rewrite insert_insert_eq.
Qed.

Lemma perRunCap_pure h combined i l q before :
  h !! l = Some q -> l ∉ take i combined ->
  refsTo h (take i combined) before ->
  returned (perRunCap c combined i l) h
  = match capAt c (rev (keepResolved before)) q with
    | Some q' => Some (tt, <[l := q']> h)
    | None => None
    end.
Proof.
  intros El Hnot Hrefs. unfold returned, perRunCap, capAt.
  destruct (filterResolved_refsTo h _ _ Hrefs) as (fs & Hf & Hr & Hsub).
  unfold bind at 1. rewrite Hf.
  apply refsTo_rev in Hr.
  pose proof (refsTo_lookup h _ _ 0%nat Hr) as H0.
  unfold bind at 1, arrayAt.
  destruct (rev fs !! 0%nat) as [first|] eqn:E0.
  2:{ now rewrite H0. }
  destruct H0 as (b0 & -> & Ef).
  assert (Hfl : first <> l).
  { intros ->. apply Hnot, Hsub. apply list_elem_of_In, in_rev, list_elem_of_In.
    apply list_elem_of_lookup. eauto. }
  unfold ret at 1. unfold bind at 1.
  rewrite (pullForward_pure h l q first b0 El Ef).
  destruct (pulledForward c b0 q) as [q'|]; [|reflexivity].
  rewrite (pushBack_pure (<[l := q']> h) l q' (rev fs)
             (rev (keepResolved before)) first b0).
  - destruct (pushedBack c _ b0 q'); [|reflexivity].
    now rewrite insert_insert_eq.
  - apply lookup_insert_eq.
  - rewrite lookup_insert_ne by congruence. exact Ef.
  - apply refsTo_insert_ne; [|exact Hr].
    intros Hin. apply Hnot, Hsub.
    apply list_elem_of_In, in_rev, list_elem_of_In. exact Hin.
Qed.

Lemma adjustRankDatesAt_pure h rankedLength combined i l q before :
  combined !! i = Some l -> h !! l = Some q -> l ∉ take i combined ->
  refsTo h (take i combined) before ->
  returned (adjustRankDatesAt c localTZA rankedLength combined i) h
  = match projectAt c localTZA before rankedLength i q with
    | Some q' => Some (tt, <[l := q']> h)
    | None => None
    end.
Proof.
  intros Ei El Hnot Hrefs. unfold returned, adjustRankDatesAt, projectAt.
  unfold bind at 1, arrayAt. rewrite Ei. unfold ret at 1.
  unfold bind at 1. rewrite (derefAll_refsTo h _ _ Hrefs).
  unfold bind at 1, deref at 1. rewrite El.
  unfold bind at 1, getTime at 1.
  destruct (queueDate q) as [queueTime|] eqn:Eq; [|reflexivity].
  unfold ret at 1.
  set (compareDate := compareDateOf c (findCompareMap c (rev before)) rankedLength i).
  set (early := Z.max queueTime compareDate).
  unfold bind at 1, assign at 1. rewrite El.
  unfold bind at 1, assign at 1. rewrite lookup_insert_eq, insert_insert_eq.
  unfold bind at 1.
  set (cond := (compareDate <? queueTime) || (i <? rankedLength + RANK_PER_DAY c)%nat).
  assert (Hp : forall k : unit -> M unit,
    (match (if cond
            then assign l (withProbability
                   (Some (probabilityAfter c (Z2F (intervalTimeDelta localTZA early)) None)))
            else ret tt) (<[l := withProbability None (withRankDateEarly (Some early) q)]> h)
     with (Some a, h') => k a h' | (None, h') => (None, h') end)
    = k tt (<[l := withProbability
                (if cond then Some (probabilityAfter c (Z2F (intervalTimeDelta localTZA early)) None) else None)
                (withRankDateEarly (Some early) q)]> h)).
  { intros k. destruct cond.
    - unfold assign. rewrite lookup_insert_eq, insert_insert_eq. reflexivity.
    - reflexivity. }
  rewrite Hp. clear Hp.
  unfold bind at 1, assign at 1. rewrite lookup_insert_eq, insert_insert_eq.
  destruct ((RANK_PER_RUN c <=? i)%nat && negb (unresolved q)).
  - match goal with
    | |- context [perRunCap c combined i l ?h1] =>
        pose proof (perRunCap_pure h1 combined i l _ before
                      (lookup_insert_eq _ _ _) Hnot) as Hcap
    end.
    unfold returned in Hcap. rewrite Hcap.
    + destruct (capAt c _ _); [|reflexivity]. now rewrite insert_insert_eq.
    + now apply refsTo_insert_ne.
  - reflexivity.
Qed.
End StepRefinement.

Section PureLoop.
Context (c : Constants) (localTZA : Z -> Z).

Lemma forEach_adjustRankDatesAt rankedLength todoRefs :
  forall doneRefs h done todo,
    NoDup (doneRefs ++ todoRefs) ->
    refsTo h doneRefs done -> refsTo h todoRefs todo ->
    match projectFrom c localTZA rankedLength done todo with
    | Some all =>
        exists h',
          forEach (adjustRankDatesAt c localTZA rankedLength (doneRefs ++ todoRefs))
                  (seq (length doneRefs) (length todoRefs)) h = (Some tt, h')
          /\ refsTo h' (doneRefs ++ todoRefs) all
    | None =>
        returned
          (forEach (adjustRankDatesAt c localTZA rankedLength (doneRefs ++ todoRefs))
                   (seq (length doneRefs) (length todoRefs))) h = None
    end.
Proof.
  induction todoRefs as [|l rest IH]; intros doneRefs h done todo Hnd Hdone Htodo.
  - inversion Htodo; subst. cbn. exists h. split; [reflexivity|].
    now rewrite app_nil_r.
  - inversion Htodo as [|? q ? todo' El Hrest]; subst.
    cbn [projectFrom length seq forEach].
    assert (Hlen : length doneRefs = length done) by (eapply Forall2_length; eauto).
    assert (Hl : l ∉ doneRefs).
    { apply NoDup_app in Hnd as (_ & Hdis & _). intros Hin.
      apply (Hdis l Hin). left. }
    assert (Hl' : l ∉ rest).
    { apply NoDup_app in Hnd as (_ & _ & Hnd'). now inversion Hnd'. }
    assert (Hstep :
      returned (adjustRankDatesAt c localTZA rankedLength (doneRefs ++ l :: rest)
                  (length doneRefs)) h
      = match projectAt c localTZA done rankedLength (length done) q with
        | Some q' => Some (tt, <[l := q']> h)
        | None => None
        end).
    { rewrite <- Hlen.
      apply (adjustRankDatesAt_pure c localTZA h rankedLength _ _ l q done).
      - rewrite lookup_app_r by lia. now rewrite Nat.sub_diag.
      - exact El.
      - rewrite take_app_length. exact Hl.
      - rewrite take_app_length. exact Hdone. }
    destruct (projectAt c localTZA done rankedLength (length done) q) as [q'|].
    + specialize (IH (doneRefs ++ [l]) (<[l := q']> h) (done ++ [q']) todo').
      rewrite <- app_assoc in IH. cbn [app] in IH.
      rewrite length_app in IH. cbn [length] in IH.
      replace (length doneRefs + 1)%nat with (S (length doneRefs)) in IH by lia.
      apply returned_Some in Hstep.
      assert (Hb : forall k : unit -> M unit,
                bind (adjustRankDatesAt c localTZA rankedLength
                        (doneRefs ++ l :: rest) (length doneRefs)) k h
                = k tt (<[l := q']> h))
        by (intros k; unfold bind; now rewrite Hstep).
      unfold returned in *. rewrite !Hb. apply IH.
      * exact Hnd.
      * apply Forall2_app.
        -- now apply refsTo_insert_ne.
        -- constructor; [apply lookup_insert_eq | constructor].
      * now apply refsTo_insert_ne.
    + rewrite returned_bind. now rewrite Hstep.
Qed.

Lemma adjustRankDates_pure (qs rs : list loc) h ranked qualified :
  NoDup (rs ++ qs) -> refsTo h rs ranked -> refsTo h qs qualified ->
  match projectFrom c localTZA (length rs) ranked qualified with
  | Some all =>
      exists h', adjustRankDates c localTZA qs rs 0 h = (Some tt, h')
                 /\ refsTo h' (rs ++ qs) all
  | None => returned (adjustRankDates c localTZA qs rs 0) h = None
  end.
Proof.
  intros Hnd Hr Hq. unfold adjustRankDates.
  rewrite Nat.add_0_r, length_app.
  replace (length rs + length qs - length rs)%nat with (length qs) by lia.
  now apply forEach_adjustRankDatesAt.
Qed.
End PureLoop.

(** ** The per-run cap: at most [RANK_PER_RUN] sets in an interval bucket *)

Lemma everyO_true {A} (p : A -> option bool) xs :
  (forall x, x ∈ xs -> p x = Some true) -> everyO p xs = Some true.
Proof.
  induction xs as [|x xs IH]; intros H; cbn [everyO]; [reflexivity|].
  rewrite (H x ltac:(left)). apply IH. intros y Hy. apply H. now right.
Qed.

Lemma everyO_false {A} (p : A -> option bool) xs :
  everyO p xs = Some false -> exists x, x ∈ xs /\ p x = Some false.
Proof.
  induction xs as [|x xs IH]; cbn [everyO]; [discriminate|].
  destruct (p x) as [[|]|] eqn:E; [|intros _|discriminate].
  - intros H. destruct (IH H) as (y & Hy & Ey). exists y. split; [now right|exact Ey].
  - exists x. split; [left|exact E].
Qed.

Lemma everyO_is_Some {A} (p : A -> option bool) xs :
  (forall x, x ∈ xs -> is_Some (p x)) -> is_Some (everyO p xs).
Proof.
  induction xs as [|x xs IH]; intros H; cbn [everyO]; [eauto|].
  destruct (H x ltac:(left)) as [[|] ->]; [|eauto].
  apply IH. intros y Hy. apply H. now right.
Qed.

Section Rounding.
Context (c : Constants).
Hypothesis Hint : 0 < RANK_INTERVAL c * MINUTE c.

Lemma roundDown_le t : roundMinutes c t true <= t.
Proof. unfold roundMinutes. rewrite Z.mul_comm. apply Z.mul_div_le. exact Hint. Qed.

Lemma roundUp_ge t : t <= roundMinutes c t false.
Proof.
  unfold roundMinutes.
  pose proof (Z.mul_div_le (- t) _ Hint). lia.
Qed.

Lemma roundDown_mono s t : s <= t -> roundMinutes c s true <= roundMinutes c t true.
Proof.
  intros H. unfold roundMinutes. apply Z.mul_le_mono_nonneg_r; [lia|].
  apply Z.div_le_mono; lia.
Qed.

Lemma roundUp_mono s t : s <= t -> roundMinutes c s false <= roundMinutes c t false.
Proof.
  intros H. unfold roundMinutes. apply Z.mul_le_mono_nonneg_r; [lia|].
  assert (- t / (RANK_INTERVAL c * MINUTE c) <= - s / (RANK_INTERVAL c * MINUTE c))
    by (apply Z.div_le_mono; lia).
  lia.
Qed.

Lemma onGrid_multiple k : onGrid c (k * (RANK_INTERVAL c * MINUTE c)).
Proof. unfold onGrid, roundMinutes. rewrite Z.div_mul by lia. reflexivity. Qed.

Lemma onGrid_roundDown t : onGrid c (roundMinutes c t true).
Proof. unfold roundMinutes at 1. apply onGrid_multiple. Qed.

Lemma onGrid_roundUp t : onGrid c (roundMinutes c t false).
Proof. unfold roundMinutes at 1. apply onGrid_multiple. Qed.

Lemma onGrid_next t : onGrid c t -> onGrid c (t + RANK_INTERVAL c * MINUTE c).
Proof.
  intros H.
  assert (E : t + RANK_INTERVAL c * MINUTE c
              = (t / (RANK_INTERVAL c * MINUTE c) + 1) * (RANK_INTERVAL c * MINUTE c))
    by (unfold onGrid, roundMinutes in H; lia).
  rewrite E. apply onGrid_multiple.
Qed.

End Rounding.

Section StepFacts.
Context (c : Constants) (localTZA : Z -> Z).
Hypothesis Hint : 0 < RANK_INTERVAL c * MINUTE c.

Lemma pulledForward_unscheduled first q q' :
  pulledForward c first q = Some q' -> unscheduled q' = unscheduled q.
Proof using Type.
  unfold pulledForward. destruct (queueDate first); [|now intros [= <-]].
  destruct (rankDate q) as [t|]; [|discriminate].
  destruct (slotOf c first) as [slot|]; [|discriminate].
  destruct (t <? slot); now intros [= <-].
Qed.

Lemma pushedBack_unscheduled filtered first q q' :
  pushedBack c filtered first q = Some q' -> unscheduled q' = unscheduled q.
Proof using Type.
  unfold pushedBack.
  destruct (everyO (saturatedBy c q) _) as [[|]|]; [| now intros [= <-] | discriminate].
  destruct (everyO (sameSlotAs c filtered) _) as [allSame|]; [|discriminate].
  destruct (slotOf c first) as [slot|]; [|discriminate].
  now intros [= <-].
Qed.

Lemma projectAt_unscheduled before rankedLength i q q' :
  projectAt c localTZA before rankedLength i q = Some q' ->
  unscheduled q' = unscheduled q.
Proof using Type.
  unfold projectAt. destruct (queueDate q) as [qd|]; [|discriminate].
  destruct ((RANK_PER_RUN c <=? i)%nat && negb (unresolved q)); [|now intros [= <-]].
  unfold capAt. destruct (_ !! 0%nat) as [first|]; [|discriminate].
  destruct (pulledForward c first _) as [q2|] eqn:E2; [|discriminate].
  intros E3. apply pushedBack_unscheduled in E3. apply pulledForward_unscheduled in E2.
  rewrite E3, E2. reflexivity.
Qed.

(** Without the per-run block the set is ranked at its early time, rounded up. *)
Lemma projectAt_plain before rankedLength i q q' :
  projectAt c localTZA before rankedLength i q = Some q' ->
  (i < RANK_PER_RUN c)%nat \/ unresolved q = true ->
  exists qd,
    queueDate q = Some qd /\
    rankDate q'
    = Some (roundMinutes c
              (Z.max qd (compareDateOf c (findCompareMap c (rev before))
                           rankedLength i)) false).
Proof using Type.
  unfold projectAt. intros H Hcase.
  destruct (queueDate q) as [qd|]; [|discriminate]. exists qd. split; [reflexivity|].
  replace ((RANK_PER_RUN c <=? i)%nat && negb (unresolved q)) with false in H.
  - now injection H as <-.
  - symmetry. apply andb_false_iff. destruct Hcase as [Hi | ->]; [left | now right].
    apply Nat.leb_gt. exact Hi.
Qed.

(** What the pull-forward leaves: an early time no later than the rank time,
    which is on the grid and not before the slot of the latest earlier set
    when that set is a qualified one. *)
Lemma pulledForward_spec first q q' e t :
  rankDateEarly q = Some e -> rankDate q = Some t -> e <= t -> onGrid c t ->
  pulledForward c first q = Some q' ->
  exists e' t',
    rankDateEarly q' = Some e' /\ rankDate q' = Some t' /\ e' <= t' /\
    onGrid c t' /\
    (is_Some (queueDate first) ->
     forall slot, slotOf c first = Some slot -> slot <= t').
Proof using Hint.
  intros Ee Et Hle Hg. unfold pulledForward.
  destruct (queueDate first) as [qf|].
  - rewrite Et. destruct (slotOf c first) as [slot|] eqn:Es; [|discriminate].
    destruct (t <? slot) eqn:Hlt; intros [= <-].
    + exists slot, slot. cbn. repeat split; try reflexivity; try lia.
      * unfold slotOf in Es. destruct (rankDate first); [|discriminate].
        injection Es as <-. now apply onGrid_roundDown.
      * intros _ slot' [= <-]. lia.
    + exists e, t. repeat split; try assumption.
      intros _ slot' [= <-]. apply Z.ltb_ge in Hlt. exact Hlt.
  - intros [= <-]. exists e, t. repeat split; try assumption.
    intros [x Hx]. discriminate.
Qed.

Hypothesis Hrun : (1 <= RANK_PER_RUN c)%nat.

Lemma pushedBack_spec filtered first q q' e t :
  filtered !! 0%nat = Some first ->
  rankDateEarly q = Some e -> rankDate q = Some t -> e <= t -> onGrid c t ->
  (is_Some (queueDate first) ->
   forall slot, slotOf c first = Some slot -> slot <= t) ->
  pushedBack c filtered first q = Some q' ->
  exists t',
    rankDate q' = Some t' /\ onGrid c t' /\
    (is_Some (queueDate first) ->
     forall slot, slotOf c first = Some slot -> slot <= t') /\
    (forall T,
       (forall b, b ∈ take (RANK_PER_RUN c) filtered -> slotOf c b = Some T) ->
       (RANK_PER_RUN c <= length filtered)%nat -> t' <> T).
Proof using Hint Hrun.
  intros Hfirst Ee Et Hle Hg Hfloor. unfold pushedBack.
  destruct (everyO (saturatedBy c q) _) as [[|]|] eqn:Hsat; [| |discriminate].
  - destruct (everyO (sameSlotAs c filtered) _) as [allSame|] eqn:Hsame; [|discriminate].
    destruct (slotOf c first) as [slot|] eqn:Es; [|discriminate].
    intros [= <-]. eexists. split; [reflexivity|].
    assert (Hgs : onGrid c slot).
    { unfold slotOf in Es. destruct (rankDate first); [|discriminate].
      injection Es as <-. now apply onGrid_roundDown. }
    split; [|split].
    + destruct allSame; [now apply onGrid_next | exact Hgs].
    + intros _ slot' [= <-]. destruct allSame; lia.
    + intros T Hall Hlen.
      assert (Hin0 : first ∈ take (RANK_PER_RUN c) filtered).
      { apply list_elem_of_lookup. exists 0%nat.
        rewrite lookup_take_lt by lia. exact Hfirst. }
      assert (slot = T) by (specialize (Hall first Hin0); congruence). subst slot.
      assert (Htrue : everyO (sameSlotAs c filtered) (take (RANK_PER_RUN c) filtered)
                      = Some true).
      { apply everyO_true. intros b Hb. unfold sameSlotAs.
        rewrite (Hall b Hb).
        destruct (filtered !! (RANK_PER_RUN c - 1)%nat) as [last|] eqn:El.
        - assert (Hinl : last ∈ take (RANK_PER_RUN c) filtered).
          { apply list_elem_of_lookup. exists (RANK_PER_RUN c - 1)%nat.
            rewrite lookup_take_lt by lia. exact El. }
          rewrite (Hall last Hinl). now rewrite Z.eqb_refl.
        - apply lookup_ge_None in El. lia. }
      rewrite Htrue in Hsame. injection Hsame as <-. lia.
  - intros [= <-]. exists t. split; [exact Et|]. split; [exact Hg|]. split; [exact Hfloor|].
    intros T Hall _. apply everyO_false in Hsat as (b & Hb & Hfalse).
    unfold saturatedBy in Hfalse. rewrite (Hall b Hb), Ee in Hfalse.
    injection Hfalse as Hfalse. apply Z.leb_gt in Hfalse.
    pose proof (roundDown_le c Hint e). lia.
Qed.

(** Inside the per-run block. *)
Lemma projectAt_capped before rankedLength i q q' :
  projectAt c localTZA before rankedLength i q = Some q' ->
  (RANK_PER_RUN c <= i)%nat -> unresolved q = false ->
  exists first t,
    rev (keepResolved before) !! 0%nat = Some first /\
    rankDate q' = Some t /\ onGrid c t /\
    (is_Some (queueDate first) ->
     forall slot, slotOf c first = Some slot -> slot <= t) /\
    (forall T,
       (forall b, b ∈ take (RANK_PER_RUN c) (rev (keepResolved before)) ->
                  slotOf c b = Some T) ->
       (RANK_PER_RUN c <= length (keepResolved before))%nat -> t <> T).
Proof using Hint Hrun.
  unfold projectAt. intros H Hi Hres.
  destruct (queueDate q) as [qd|]; [|discriminate].
  replace ((RANK_PER_RUN c <=? i)%nat && negb (unresolved q)) with true in H
    by (symmetry; rewrite Hres; apply andb_true_iff; split;
        [now apply Nat.leb_le | reflexivity]).
  unfold capAt in H.
  destruct (rev (keepResolved before) !! 0%nat) as [first|] eqn:Hfirst; [|discriminate].
  destruct (pulledForward c first _) as [q2|] eqn:E2; [|discriminate].
  eapply pulledForward_spec in E2 as (e2 & t2 & Ee2 & Et2 & Hle2 & Hg2 & Hfl2);
    [| reflexivity | reflexivity | apply roundUp_ge, Hint | apply onGrid_roundUp, Hint].
  destruct (pushedBack_spec _ _ _ _ _ _ Hfirst Ee2 Et2 Hle2 Hg2 Hfl2 H)
    as (t' & Et' & Hg' & Hfl' & HT).
  exists first, t'. repeat split; try assumption.
  intros T Hall Hlen. apply HT; [exact Hall|]. now rewrite length_rev.
Qed.

End StepFacts.

Section BucketFacts.
Context (c : Constants).

Lemma bucketSize_app T xs ys :
  bucketSize c T (xs ++ ys) = (bucketSize c T xs + bucketSize c T ys)%nat.
Proof. induction xs as [|x xs IH]; cbn; [reflexivity | rewrite IH; lia]. Qed.

Lemma bucketSize_rev T xs : bucketSize c T (rev xs) = bucketSize c T xs.
Proof.
  induction xs as [|x xs IH]; cbn; [reflexivity|].
  rewrite bucketSize_app, IH. cbn. lia.
Qed.

Lemma bucketSize_keepResolved T xs :
  bucketSize c T (keepResolved xs) = bucketSize c T xs.
Proof.
  induction xs as [|x xs IH]; [reflexivity|].
  cbn [keepResolved bucketSize]. unfold inBucket at 1.
  destruct (unresolved x) eqn:E.
  - cbn. exact IH.
  - cbn [bucketSize]. rewrite IH. unfold inBucket. now rewrite E.
Qed.

Lemma bucketSize_le_length T xs : (bucketSize c T xs <= length xs)%nat.
Proof.
  induction xs as [|x xs IH]; cbn; [lia|]. destruct (inBucket c T x); lia.
Qed.

Lemma keepResolved_app xs ys :
  keepResolved (xs ++ ys) = keepResolved xs ++ keepResolved ys.
Proof.
  induction xs as [|x xs IH]; cbn; [reflexivity|].
  destruct (unresolved x); [exact IH | now rewrite IH].
Qed.

Lemma keepResolved_length xs : (length (keepResolved xs) <= length xs)%nat.
Proof.
  induction xs as [|x xs IH]; cbn; [lia|]. destruct (unresolved x); cbn; lia.
Qed.

Lemma keepResolved_resolved xs b : b ∈ keepResolved xs -> unresolved b = false.
Proof.
  induction xs as [|x xs IH]; cbn; [intros H; inversion H|].
  destruct (unresolved x) eqn:E; [exact IH|].
  intros H. inversion H; subst; [exact E | auto].
Qed.

(** With fewer than [RANK_PER_DAY] sets before it, a set has no
    [compareMap]. *)
Lemma compareStep_short sets : forall n cm,
  (n + length sets < RANK_PER_DAY c)%nat ->
  exists n', (n' <= n + length sets)%nat /\
             fold_left (compareStep c) sets (n, cm) = (n', cm).
Proof.
  induction sets as [|b sets IH]; intros n cm Hlen; cbn [fold_left length] in *.
  - exists n. split; [lia | reflexivity].
  - unfold compareStep at 2. destruct (unresolved b).
    + destruct (IH n cm ltac:(lia)) as (n' & Hn' & ->). exists n'. split; [lia|reflexivity].
    + cbn [fst snd].
      replace (Nat.eqb (S n) (RANK_PER_DAY c)) with false
        by (symmetry; apply Nat.eqb_neq; lia).
      destruct (IH (S n) cm ltac:(lia)) as (n' & Hn' & ->).
      exists n'. split; [lia|reflexivity].
Qed.

Lemma compareDateOf_short before rankedLength i :
  (length before < RANK_PER_DAY c)%nat ->
  compareDateOf c (findCompareMap c (rev before)) rankedLength i = 0.
Proof.
  intros Hlen. unfold findCompareMap.
  destruct (compareStep_short (rev before) 0%nat None) as (n' & _ & ->).
  - rewrite length_rev. lia.
  - reflexivity.
Qed.

Lemma inBucket_assigned T b t :
  rankDate b = Some t -> onGrid c t -> unresolved b = false ->
  inBucket c T b = (t =? T).
Proof.
  intros Et Hg Hres. unfold inBucket, slotOf. rewrite Hres, Et. cbn.
  unfold onGrid in Hg. now rewrite Hg.
Qed.

(** No set earlier than one of slot below [T] is in the bucket [T]. *)
Lemma bucket_empty_below T x t xs :
  rankDate x = Some t -> t < T -> Forall (slotGe x) xs ->
  Forall (fun b => exists t, rankDate b = Some t /\ onGrid c t /\
                             is_Some (queueDate b) /\ unresolved b = false) xs ->
  bucketSize c T xs = 0%nat.
Proof.
  intros Et Hlt Hx Ha. induction xs as [|y ys IH]; [reflexivity|].
  inversion Hx as [|? ? Hy Hx']; subst.
  inversion Ha as [|? ? (ty & Ety & Hgy & _ & Hresy) Ha']; subst.
  cbn [bucketSize]. rewrite (inBucket_assigned T y ty Ety Hgy Hresy).
  specialize (Hy t ty Et Ety).
  replace (ty =? T) with false by (symmetry; apply Z.eqb_neq; lia).
  now apply IH.
Qed.

(** In a list sorted latest-first whose slots are at most [T], the sets of
    slot [T] are at the head. *)
Lemma head_of_bucket T recent : forall n,
  StronglySorted slotGe recent ->
  Forall (fun b => exists t, rankDate b = Some t /\ onGrid c t /\
                             is_Some (queueDate b) /\ unresolved b = false) recent ->
  Forall (fun b => forall t, rankDate b = Some t -> t <= T) recent ->
  (n <= bucketSize c T recent)%nat ->
  forall b, b ∈ take n recent -> slotOf c b = Some T.
Proof.
  induction recent as [|x xs IH]; intros n Hs Ha Hle Hn b Hb.
  - destruct n; inversion Hb.
  - destruct n as [|n]; [inversion Hb|].
    inversion Hs as [|? ? Hs' Hx]; subst.
    inversion Ha as [|? ? (t & Et & Hg & _ & Hres) Ha']; subst.
    inversion Hle as [|? ? Hxle Hle']; subst.
    cbn [bucketSize] in Hn. rewrite (inBucket_assigned T x t Et Hg Hres) in Hn.
    destruct (t =? T) eqn:E.
    + apply Z.eqb_eq in E. subst t. cbn [take] in Hb.
      inversion Hb; subst.
      * unfold slotOf. rewrite Et. unfold onGrid in Hg. now rewrite Hg.
      * apply (IH n); try assumption. lia.
    + apply Z.eqb_neq in E. specialize (Hxle t Et).
      rewrite (bucket_empty_below T x t xs Et) in Hn by (assumption || lia).
      lia.
Qed.

End BucketFacts.

Section BucketInvariant.
Context (c : Constants) (localTZA : Z -> Z).
Hypothesis Hint : 0 < RANK_INTERVAL c * MINUTE c.
Hypothesis Hrun : (1 <= RANK_PER_RUN c)%nat.
Hypothesis Hcap : (RANK_PER_RUN c <= RANK_PER_DAY c)%nat.

Lemma projectAt_queued before rankedLength i q q' :
  projectAt c localTZA before rankedLength i q = Some q' ->
  is_Some (queueDate q).
Proof using Type.
  unfold projectAt. destruct (queueDate q); [eauto | discriminate].
Qed.

Lemma unscheduled_fields q q' :
  unscheduled q' = unscheduled q ->
  queueDate q' = queueDate q /\ unresolved q' = unresolved q.
Proof. unfold unscheduled. intros H. now inversion H. Qed.

Lemma recent_in_processed Qd b : b ∈ rev (keepResolved Qd) -> b ∈ Qd.
Proof.
  intros H. apply list_elem_of_In, in_rev in H.
  induction Qd as [|x xs IH]; cbn in H; [contradiction|].
  destruct (unresolved x).
  - right. auto.
  - destruct H as [<- | H]; [left | right; auto].
Qed.

Lemma Projected_step ranked Qd q q' :
  Projected c (length (ranked ++ Qd)) (rev (keepResolved Qd)) ->
  Forall (fun b => queueLe b q) Qd ->
  projectAt c localTZA (ranked ++ Qd) (length ranked) (length (ranked ++ Qd)) q
  = Some q' ->
  Projected c (S (length (ranked ++ Qd))) (rev (keepResolved (Qd ++ [q']))).
Proof using Hint Hrun Hcap.
  intros [Ha Hs Hc He] Hq Hp.
  destruct (unscheduled_fields _ _ (projectAt_unscheduled c localTZA _ _ _ _ _ Hp))
    as (Hqd & Hun).
  destruct (projectAt_queued _ _ _ _ _ Hp) as [qd Eqd].
  rewrite keepResolved_app. cbn [keepResolved]. rewrite Hun.
  destruct (unresolved q) eqn:Hres.
  - rewrite app_nil_r. constructor; try assumption.
    intros Hle. apply He. lia.
  - rewrite rev_app_distr. cbn [rev app].
    assert (Hin : forall b, b ∈ rev (keepResolved Qd) -> b ∈ Qd)
      by apply recent_in_processed.
    assert (Hlen : (length (rev (keepResolved Qd)) <= length (ranked ++ Qd))%nat).
    { rewrite length_rev, length_app.
      pose proof (keepResolved_length Qd). lia. }
    remember (rev (keepResolved Qd)) as recent eqn:Hrecent.
    destruct (Nat.lt_ge_cases (length (ranked ++ Qd)) (RANK_PER_RUN c)) as [Hi | Hi].
    + (* before the per-run block applies *)
      destruct (projectAt_plain c localTZA _ _ _ _ _ Hp (or_introl Hi))
        as (qd' & Eqd' & Et).
      rewrite Eqd in Eqd'. injection Eqd' as <-.
      rewrite compareDateOf_short in Et by lia.
      assert (Hnew : Forall (slotGe q') recent).
      { specialize (He ltac:(lia)). rewrite List.Forall_forall in *.
        intros b Hb ta tb Eta Etb.
        destruct (He b Hb) as (qb & Eqb & Etb').
        assert (Hle : queueLe b q)
          by (apply Hq, list_elem_of_In, Hin, list_elem_of_In, Hb).
        unfold queueLe in Hle. rewrite Eqb, Eqd in Hle.
        rewrite Et in Eta. rewrite Etb' in Etb. injection Eta as <-. injection Etb as <-.
        apply roundUp_mono; [exact Hint | lia]. }
      constructor.
      * constructor; [|exact Ha]. eexists. split; [exact Et|].
        split; [apply onGrid_roundUp, Hint|]. split; [rewrite Hqd; eauto|].
        now rewrite Hun.
      * now constructor.
      * intros T. pose proof (bucketSize_le_length c T (q' :: recent)) as Hb.
        cbn [length] in Hb. lia.
      * intros _. constructor; [|apply He; lia].
        exists qd. split; [now rewrite Hqd | exact Et].
    + (* inside the per-run block *)
      destruct (projectAt_capped c localTZA Hint Hrun _ _ _ _ _ Hp Hi Hres)
        as (first & t & Hfirst & Et & Hg & Hfloor & HT).
      assert (Hfm : rev (keepResolved (ranked ++ Qd))
                    = recent ++ rev (keepResolved ranked)).
      { rewrite keepResolved_app, rev_app_distr. now rewrite Hrecent. }
      assert (Hnew : Forall (fun b => forall tb, rankDate b = Some tb -> tb <= t) recent).
      { clear Hin Hlen Hrecent. destruct recent as [|x xs]; [constructor|].
        rewrite Hfm in Hfirst. cbn in Hfirst. injection Hfirst as <-.
        inversion Ha as [|? ? (tx & Etx & Hgx & Hqx & _) Ha']; subst.
        inversion Hs as [|? ? Hs' Hx]; subst.
        assert (Hxt : tx <= t).
        { apply Hfloor; [exact Hqx|]. unfold slotOf. rewrite Etx.
          unfold onGrid in Hgx. now rewrite Hgx. }
        constructor.
        - intros tb Etb. rewrite Etx in Etb. injection Etb as <-. exact Hxt.
        - rewrite List.Forall_forall in *. intros b Hb tb Etb.
          specialize (Hx b Hb tx tb Etx Etb). lia. }
      constructor.
      * constructor; [|exact Ha]. exists t. split; [exact Et|].
        split; [exact Hg|]. split; [rewrite Hqd; eauto|]. now rewrite Hun.
      * constructor; [exact Hs|].
        rewrite List.Forall_forall in *. intros b Hb ta tb Eta Etb.
        rewrite Et in Eta. injection Eta as <-. exact (Hnew b Hb tb Etb).
      * intros T. cbn [bucketSize].
        rewrite (inBucket_assigned c T q' t Et Hg) by (now rewrite Hun).
        destruct (t =? T) eqn:E; [|apply Hc].
        apply Z.eqb_eq in E. subst T.
        destruct (Nat.lt_ge_cases (bucketSize c t recent) (RANK_PER_RUN c))
          as [Hlt | Hge]; [lia|].
        exfalso. apply (HT t); [| | reflexivity].
        -- intros b Hb. rewrite Hfm in Hb.
           pose proof (bucketSize_le_length c t recent) as Hbl.
           rewrite take_app_le in Hb by lia.
           eapply (head_of_bucket c t recent (RANK_PER_RUN c)); eassumption.
        -- pose proof (bucketSize_le_length c t recent) as Hbl.
           assert (length (rev (keepResolved (ranked ++ Qd)))
                   = (length recent + length (rev (keepResolved ranked)))%nat)
             by (rewrite Hfm; apply length_app).
           rewrite length_rev in H. lia.
      * intros Hle. lia.
Qed.

Lemma Projected_start n : Projected c n [].
Proof using Type.
  constructor; try constructor. intros T. apply Nat.le_0_l.
Qed.

Lemma queueLe_unscheduled q q' b :
  unscheduled q' = unscheduled q -> queueLe q b -> queueLe q' b.
Proof using Type.
  intros Hu. destruct (unscheduled_fields _ _ Hu) as (Hqd & _).
  unfold queueLe. now rewrite Hqd.
Qed.

Lemma projectFrom_Projected ranked todo : forall Qd all,
  Projected c (length (ranked ++ Qd)) (rev (keepResolved Qd)) ->
  StronglySorted queueLe todo ->
  Forall (fun b => Forall (queueLe b) todo) Qd ->
  projectFrom c localTZA (length ranked) (ranked ++ Qd) todo = Some all ->
  exists Qd',
    all = ranked ++ Qd' /\ length Qd' = (length Qd + length todo)%nat /\
    Projected c (length all) (rev (keepResolved Qd')).
Proof using Hint Hrun Hcap.
  induction todo as [|q rest IH]; intros Qd all HP Hsorted Hbefore Hrun'.
  - cbn in Hrun'. injection Hrun' as <-. exists Qd. cbn. split; [reflexivity|].
    split; [lia | exact HP].
  - cbn [projectFrom] in Hrun'.
    destruct (projectAt c localTZA (ranked ++ Qd) (length ranked)
                (length (ranked ++ Qd)) q) as [q'|] eqn:Hp; [|discriminate].
    inversion Hsorted as [|? ? Hsorted' Hq]; subst.
    rewrite <- app_assoc in Hrun'.
    destruct (IH (Qd ++ [q']) all) as (Qd' & -> & Hlen & HP').
    + replace (length (ranked ++ Qd ++ [q'])) with (S (length (ranked ++ Qd)))
        by (rewrite !length_app; cbn; lia).
      apply Projected_step with (q := q); [exact HP | | exact Hp].
      rewrite List.Forall_forall in *. intros b Hb.
      specialize (Hbefore b Hb). now inversion Hbefore.
    + exact Hsorted'.
    + apply Forall_app. split.
      * rewrite List.Forall_forall in *. intros b Hb.
        specialize (Hbefore b Hb). now inversion Hbefore.
      * constructor; [|constructor].
        rewrite List.Forall_forall in *. intros b Hb.
        eapply queueLe_unscheduled;
          [eapply projectAt_unscheduled; exact Hp | apply Hq, Hb].
    + exact Hrun'.
    + exists Qd'. split; [reflexivity|]. split; [|exact HP'].
      rewrite Hlen, length_app. cbn. lia.
Qed.

(** The general part of C5 on the heap. *)
Lemma adjustRankDates_buckets (qs rs : list loc) h h' ranked qualified :
  NoDup (rs ++ qs) -> refsTo h rs ranked -> refsTo h qs qualified ->
  StronglySorted queueLe qualified ->
  adjustRankDates c localTZA qs rs 0 h = (Some tt, h') ->
  exists qualified',
    refsTo h' qs qualified' /\
    forall T, (bucketSize c T qualified' <= RANK_PER_RUN c)%nat.
Proof using Hint Hrun Hcap.
  intros Hnd Hr Hq Hsorted Hrun'.
  pose proof (adjustRankDates_pure c localTZA qs rs h ranked qualified Hnd Hr Hq)
    as Hpure.
  assert (Hlen : length rs = length ranked) by (eapply Forall2_length; eauto).
  destruct (projectFrom c localTZA (length rs) ranked qualified) as [all|] eqn:Hall.
  2:{ apply returned_None in Hpure. rewrite Hrun' in Hpure. discriminate. }
  destruct Hpure as (h'' & Hrun'' & Hrefs).
  rewrite Hrun'' in Hrun'. injection Hrun' as ->.
  rewrite Hlen in Hall.
  destruct (projectFrom_Projected ranked qualified [] all) as (Qd' & -> & HlenQ & HP).
  - rewrite app_nil_r. apply Projected_start.
  - exact Hsorted.
  - constructor.
  - now rewrite app_nil_r.
  - exists Qd'. split.
    + apply Forall2_app_inv in Hrefs as (_ & Hqs); [exact Hqs | exact Hlen].
    + intros T. rewrite <- bucketSize_keepResolved, <- bucketSize_rev.
      apply HP.
Qed.

(** The instance of scenario S6 on the objects. *)
Lemma projectAt_overflow before rankedLength i q qd T :
  (RANK_PER_RUN c <= i)%nat -> unresolved q = false -> queueDate q = Some qd ->
  roundMinutes c
    (Z.max qd (compareDateOf c (findCompareMap c (rev before)) rankedLength i))
    true = T ->
  (RANK_PER_RUN c <= length (keepResolved before))%nat ->
  (forall b, b ∈ take (RANK_PER_RUN c) (rev (keepResolved before)) ->
             slotOf c b = Some T) ->
  exists q',
    projectAt c localTZA before rankedLength i q = Some q' /\
    rankDate q' = Some (T + RANK_INTERVAL c * MINUTE c) /\
    rankDateEarly q' = Some (T + RANK_INTERVAL c * MINUTE c) /\
    probability q' = Some 0%float /\
    unscheduled q' = unscheduled q.
Proof using Hint Hrun.
  clear Hcap. intros Hi Hres Hqd HT Hlen Hall. unfold projectAt. rewrite Hqd, Hres.
  replace (RANK_PER_RUN c <=? i)%nat with true by (symmetry; now apply Nat.leb_le).
  cbn [andb negb].
  set (early := Z.max qd _) in *.
  set (fm := rev (keepResolved before)) in *.
  match goal with |- context [capAt c fm ?x] => set (q1 := x) end.
  assert (Hq1 : rankDate q1 = Some (roundMinutes c early false)
                /\ rankDateEarly q1 = Some early) by (split; reflexivity).
  destruct Hq1 as (Hq1r & Hq1e).
  assert (Hfml : (RANK_PER_RUN c <= length fm)%nat)
    by (unfold fm; now rewrite length_rev).
  unfold capAt.
  destruct (fm !! 0%nat) as [first|] eqn:Hfirst.
  2:{ apply lookup_ge_None in Hfirst. lia. }
  assert (Hin0 : first ∈ take (RANK_PER_RUN c) fm).
  { apply list_elem_of_lookup. exists 0%nat.
    rewrite lookup_take_lt by lia. exact Hfirst. }
  assert (Hup : T <= roundMinutes c early false).
  { pose proof (roundUp_ge c Hint early). pose proof (roundDown_le c Hint early). lia. }
  assert (Hpull : pulledForward c first q1 = Some q1).
  { unfold pulledForward. destruct (queueDate first); [|reflexivity].
    rewrite (Hall first Hin0), Hq1r.
    replace (roundMinutes c early false <? T) with false
      by (symmetry; apply Z.ltb_ge; exact Hup).
    reflexivity. }
  rewrite Hpull. unfold pushedBack.
  rewrite (everyO_true (saturatedBy c q1)).
  2:{ intros b Hb. unfold saturatedBy. rewrite (Hall b Hb), Hq1e.
      rewrite HT. now rewrite Z.leb_refl. }
  rewrite (everyO_true (sameSlotAs c fm)).
  2:{ intros b Hb. unfold sameSlotAs. rewrite (Hall b Hb).
      destruct (fm !! (RANK_PER_RUN c - 1)%nat) as [last|] eqn:El.
      - assert (Hinl : last ∈ take (RANK_PER_RUN c) fm).
        { apply list_elem_of_lookup. exists (RANK_PER_RUN c - 1)%nat.
          rewrite lookup_take_lt by lia. exact El. }
        rewrite (Hall last Hinl). now rewrite Z.eqb_refl.
      - apply lookup_ge_None in El. lia. }
  rewrite (Hall first Hin0).
  eexists. split; [reflexivity|]. cbn. repeat split.
Qed.

End BucketInvariant.

(** ** The schedule after a run, and evaluated runs *)

(** C5, as the code has it.  Sets flagged unresolved skip the per-run block
    and are not counted; among the others, on a queue ordered by [queueDate]
    whose references are all distinct, a run of [adjustRankDates] leaves at
    most [RANK_PER_RUN] sets in any interval bucket.  And when the
    [RANK_PER_RUN] latest earlier sets that are not unresolved all have their
    rank date in the bucket [T] and the early time of the next set, itself
    not unresolved, floors to [T] as well, that set gets
    [rankDate = rankDateEarly = T + RANK_INTERVAL * MINUTE] and
    [probability = 0]. *)
Theorem per_run_cap (c : Constants) (localTZA : Z -> Z) :
  0 < RANK_INTERVAL c * MINUTE c ->
  (1 <= RANK_PER_RUN c)%nat ->
  (RANK_PER_RUN c <= RANK_PER_DAY c)%nat ->
  (forall (qs rs : list loc) h h' ranked qualified,
     NoDup (rs ++ qs) -> refsTo h rs ranked -> refsTo h qs qualified ->
     StronglySorted queueLe qualified ->
     adjustRankDates c localTZA qs rs 0 h = (Some tt, h') ->
     exists qualified',
       refsTo h' qs qualified' /\
       forall T, (bucketSize c T qualified' <= RANK_PER_RUN c)%nat) /\
  (forall (combined : list loc) (rankedLength i : nat) l h q qd before T,
     combined !! i = Some l -> h !! l = Some q -> l ∉ take i combined ->
     refsTo h (take i combined) before ->
     (RANK_PER_RUN c <= i)%nat -> unresolved q = false ->
     queueDate q = Some qd ->
     roundMinutes c
       (Z.max qd (compareDateOf c (findCompareMap c (rev before)) rankedLength i))
       true = T ->
     (RANK_PER_RUN c <= length (keepResolved before))%nat ->
     (forall b, b ∈ take (RANK_PER_RUN c) (rev (keepResolved before)) ->
                slotOf c b = Some T) ->
     exists q',
       adjustRankDatesAt c localTZA rankedLength combined i h
       = (Some tt, <[l := q']> h) /\
       rankDate q' = Some (T + RANK_INTERVAL c * MINUTE c) /\
       rankDateEarly q' = Some (T + RANK_INTERVAL c * MINUTE c) /\
       probability q' = Some 0%float /\
       unscheduled q' = unscheduled q).
Proof.
  intros Hint Hrun Hcap. split.
  - intros qs rs h h' ranked qualified.
    now apply adjustRankDates_buckets.
  - intros combined rankedLength i l h q qd before T Ei El Hnot Hrefs Hi Hres
      Hqd HT Hlen Hall.
    destruct (projectAt_overflow c localTZA Hint Hrun before rankedLength i q qd T
                Hi Hres Hqd HT Hlen Hall) as (q' & Hp & Hr & He & Hprob & Hu).
    exists q'. split; [|auto].
    apply returned_Some.
    rewrite (adjustRankDatesAt_pure c localTZA h rankedLength combined i l q before
               Ei El Hnot Hrefs).
    now rewrite Hp.
Qed.

Lemma per_run_cap_witness :
  (exists h' qualified',
     adjustRankDates specConstants utc [3; 4]%nat [0; 1; 2]%nat 0 overflowHeap
     = (Some tt, h') /\
     refsTo h' [3; 4]%nat qualified' /\
     forall T, (bucketSize specConstants T qualified' <= 3)%nat) /\
  (exists q',
     adjustRankDatesAt specConstants utc 3 [0; 1; 2; 3; 4]%nat 3 overflowHeap
     = (Some tt, <[3%nat := q']> overflowHeap) /\
     rankDate q' = Some (gridTime + 20 * 60000) /\
     rankDateEarly q' = Some (gridTime + 20 * 60000) /\
     probability q' = Some 0%float /\
     unscheduled q' = unscheduled (scheduleOf 103 (Some (gridTime + 5 * 60000)) None false)).
Proof.
  destruct (per_run_cap specConstants utc) as (Hall & Hone).
  - reflexivity.
  - cbn. lia.
  - cbn. lia.
  - split.
    + eexists.
      destruct (Hall [3; 4]%nat [0; 1; 2]%nat overflowHeap
                  (adjustRankDates specConstants utc [3; 4]%nat
                     [0; 1; 2]%nat 0 overflowHeap).2
                  overflowRanked overflowQualified)
        as (qualified' & Hrefs & Hcount).
      * apply NoDup_ListNoDup. repeat constructor; cbn; intuition lia.
      * repeat constructor.
      * repeat constructor.
      * repeat constructor. cbn. lia.
      * vm_compute. reflexivity.
      * exists qualified'. split; [vm_compute; reflexivity|]. split; assumption.
    + apply (Hone [0; 1; 2; 3; 4]%nat 3%nat 3%nat 3%nat overflowHeap
               (scheduleOf 103 (Some (gridTime + 5 * 60000)) None false)
               (gridTime + 5 * 60000) overflowRanked gridTime).
      * reflexivity.
      * reflexivity.
      * cbn. intros H. repeat (apply elem_of_cons in H as [H|H]; [discriminate|]).
        inversion H.
      * repeat constructor.
      * cbn. lia.
      * reflexivity.
      * reflexivity.
      * vm_compute. reflexivity.
      * cbn. lia.
      * intros b Hb. cbn in Hb.
        repeat (apply elem_of_cons in Hb as [-> | Hb]; [vm_compute; reflexivity|]).
        inversion Hb.
Defined.

(** C5 as stated fails: with [RANK_PER_RUN = 3], four sets flagged unresolved
    are all given the rank date at the next boundary, so four assigned rank
    dates share one interval bucket. *)
Lemma per_run_cap_counterexample :
  exists h',
    adjustRankDates specConstants utc [0; 1; 2; 3]%nat [] 0 unresolvedHeap
    = (Some tt, h') /\
    Forall (fun l => exists b,
              h' !! l = Some b /\
              rankDate b = Some (gridTime + 20 * 60000) /\
              slotOf specConstants b = Some (gridTime + 20 * 60000))
           [0; 1; 2; 3]%nat /\
    (RANK_PER_RUN specConstants < length [0; 1; 2; 3]%nat)%nat.
Proof.
  eexists. split; [vm_compute; reflexivity|]. split.
  - repeat constructor; eexists; (split; [vm_compute; reflexivity|]);
      split; vm_compute; reflexivity.
  - cbn. lia.
Qed.

(** C4 fails on [pastQueueHeap]: the set at location 3, queued 59 minutes
    before the boundary, ends with [rankDateEarly] and [rankDate] 60 minutes
    before it, one minute before its [queueDate].  The second branch of the
    overflow check moved it back to the slot of the set before it. *)
Lemma rankDateEarly_before_queueDate :
  exists h' b,
    adjustAllRankDates specConstants utc
      [[2; 3]%nat; []; []; []] [[0; 1]%nat; []; []; []] pastQueueHeap
    = (Some tt, h') /\
    h' !! 3%nat = Some b /\
    queueDate b = Some (gridTime - 59 * 60000) /\
    rankDateEarly b = Some (gridTime - 60 * 60000) /\
    rankDate b = Some (gridTime - 60 * 60000) /\
    gridTime - 60 * 60000 < gridTime - 59 * 60000.
Proof.
  eexists. eexists. split; [vm_compute; reflexivity|].
  split; [vm_compute; reflexivity|].
  repeat split.
Qed.

(** A run that returns and a run that throws in the inner [every] of the
    per-run block, after the first assignments to the set at location 3. *)
Lemma projector_frame_witness :
  (exists h',
     adjustAllRankDates specConstants utc
       [[3; 4]%nat; []; []; []] [[0; 1; 2]%nat; []; []; []] overflowHeap
     = (Some tt, h') /\
     framed [3; 4]%nat overflowHeap h' /\
     (forall l, l ∈ [0; 1; 2]%nat -> l ∉ [3; 4]%nat ->
                h' !! l = overflowHeap !! l)) /\
  (exists h',
     adjustAllRankDates specConstants utc
       [[1; 2; 3]%nat; []; []; []] [[0%nat]; []; []; []] oneRankedHeap
     = (None, h') /\
     h' !! 3%nat <> oneRankedHeap !! 3%nat /\
     framed [1; 2; 3]%nat oneRankedHeap h' /\
     (forall l, l ∈ [0%nat] -> l ∉ [1; 2; 3]%nat ->
                h' !! l = oneRankedHeap !! l)).
Proof.
  split.
  - eexists. split; [vm_compute; reflexivity|].
    exact (proj2 (projector_frame specConstants utc)
             [[3; 4]%nat; []; []; []] [[0; 1; 2]%nat; []; []; []] overflowHeap
             (Some tt) _ eq_refl).
  - eexists. split; [vm_compute; reflexivity|].
    split; [vm_compute; discriminate|].
    exact (proj2 (projector_frame specConstants utc)
             [[1; 2; 3]%nat; []; []; []] [[0%nat]; []; []; []] oneRankedHeap
             None _ eq_refl).
Defined.

Lemma calcEarlyProbability_missing_bucket_witness :
  exists h',
    calcEarlyProbability specConstants utc [[0%nat]; []; []; []] lateHeap
    = (Some tt, h') /\
    h' !! 0%nat
    = Some (withProbability
              (Some (probabilityAfter specConstants (Z2F 720) None)) lateSet).
Proof.
  destruct (calcEarlyProbability_missing_bucket specConstants utc
              [[0%nat]; []; []; []] lateHeap) as (rankDates & h' & Hcount & Hcalc & Hall).
  - intros l Hl. cbn in Hl. apply list_elem_of_singleton in Hl as ->.
    exists lateSet. repeat split; eexists; reflexivity.
  - exists h'. split; [exact Hcalc|].
    apply (Hall 0%nat lateSet (gridTime + 12 * 60000) (gridTime + 20 * 60000)
             0.25%float).
    + cbn. left.
    + reflexivity.
    + reflexivity.
    + reflexivity.
    + reflexivity.
    + discriminate.
    + vm_compute in Hcount. injection Hcount as <-. vm_compute. reflexivity.
Defined.

(** Where the formula of C6 does hold: on a host whose offset from UTC is a
    whole number of minutes, and with the rank interval at twenty minutes,
    [intervalTimeDelta(d)] is the UTC minutes of [d] modulo [RANK_INTERVAL],
    in seconds, plus the UTC seconds of [d]. *)
Theorem intervalTimeDelta_formula (c : Constants) (localTZA : Z -> Z) (d : Z) :
  RANK_INTERVAL c = 20 -> (forall t, (60000 | localTZA t)) ->
  intervalTimeDelta localTZA d
  = (getUTCMinutes d mod RANK_INTERVAL c) * 60 + getUTCSeconds d.
Proof.
  intros Hri Htz. rewrite Hri.
  apply (intervalTimeDelta_literal localTZA d (Htz d)).
Qed.

Lemma intervalTimeDelta_formula_witness :
  intervalTimeDelta utc (gridTime + 12 * 60000 + 34 * 1000 + 567)
  = (getUTCMinutes (gridTime + 12 * 60000 + 34 * 1000 + 567)
     mod RANK_INTERVAL specConstants) * 60
    + getUTCSeconds (gridTime + 12 * 60000 + 34 * 1000 + 567).
Proof.
  apply (intervalTimeDelta_formula specConstants utc).
  - reflexivity.
  - intros t. exists 0. reflexivity.
Defined.

(** C6 on the code: [intervalTimeDelta] does not follow the configured
    constant.  With a rank interval of thirty minutes, at 22:45:10 UTC on a
    host on UTC, the previous boundary is 22:30:00 and the formula of the
    claim gives 15 minutes and 10 seconds, 910; the code takes the minutes
    modulo the literal 20 and returns 310.  Nor are the seconds it adds those
    of UTC: on a host 44 minutes and 30 seconds behind UTC, ten seconds past
    midnight UTC count as 40, the seconds of the local time. *)
Theorem intervalTimeDelta_ignores_RANK_INTERVAL :
  (let d := gridTime + 25 * 60000 + 10 * 1000 in
   roundMinutes halfHourConstants d true = gridTime + 10 * 60000 /\
   (getUTCMinutes d mod RANK_INTERVAL halfHourConstants) * 60 + getUTCSeconds d
   = 910 /\
   (d - roundMinutes halfHourConstants d true) / 1000 = 910 /\
   intervalTimeDelta utc d = 310) /\
  (let d := 10 * 1000 in
   (getUTCMinutes d mod RANK_INTERVAL specConstants) * 60 + getUTCSeconds d = 10 /\
   intervalTimeDelta monroviaTZA d = 40).
Proof.
  split.
  - cbv zeta. split; [reflexivity|]. split; [reflexivity|].
    split; reflexivity.
  - cbv zeta. split; reflexivity.
Qed.

(** The modulus is the literal twenty whatever the constants are: with a
    rank interval of thirty minutes, twenty-five minutes past the hour count
    as 300 seconds, not as the 1500 of the formula. *)
Lemma intervalTimeDelta_literal_modulus :
  (forall localTZA d, (60000 | localTZA d) ->
     intervalTimeDelta localTZA d = intervalTimeDeltaSpec 20 d) /\
  intervalTimeDelta utc (25 * 60000) = 300 /\
  intervalTimeDeltaSpec 30 (25 * 60000) = 1500.
Proof.
  split; [exact intervalTimeDelta_literal|]. split; reflexivity.
Qed.

(** ** The half of the date invariant that holds *)

Section EarlyBeforeRank.
Context (c : Constants) (localTZA : Z -> Z).
Hypothesis Hint : 0 < RANK_INTERVAL c * MINUTE c.

Lemma pushedBack_earlyBeforeRank filtered first q q' :
  earlyBeforeRank q -> pushedBack c filtered first q = Some q' ->
  earlyBeforeRank q'.
Proof using Type.
  intros Hq. unfold pushedBack.
  destruct (everyO (saturatedBy c q) _) as [[|]|]; [| now intros [= <-] | discriminate].
  destruct (everyO (sameSlotAs c filtered) _) as [allSame|]; [|discriminate].
  destruct (slotOf c first) as [slot|]; [|discriminate].
  intros [= <-]. eexists. eexists. split; [reflexivity|]. split; [reflexivity|].
  apply Z.le_refl.
Qed.

Lemma projectAt_earlyBeforeRank before rankedLength i q q' :
  projectAt c localTZA before rankedLength i q = Some q' -> earlyBeforeRank q'.
Proof using Hint.
  unfold projectAt. destruct (queueDate q) as [qd|]; [|discriminate].
  set (early := Z.max qd _).
  match goal with
  | |- (if _ then capAt c _ ?x else _) = _ -> _ => set (q1 := x)
  end.
  assert (H1 : rankDateEarly q1 = Some early) by reflexivity.
  assert (H2 : rankDate q1 = Some (roundMinutes c early false)) by reflexivity.
  destruct (_ && _).
  - unfold capAt. destruct (_ !! 0%nat) as [first|]; [|discriminate].
    destruct (pulledForward c first q1) as [q2|] eqn:E2; [|discriminate].
    eapply pulledForward_spec in E2 as (e2 & t2 & Ee2 & Et2 & Hle2 & _);
      [| exact Hint | exact H1 | exact H2 | apply roundUp_ge, Hint
       | apply onGrid_roundUp, Hint].
    apply pushedBack_earlyBeforeRank. exists e2, t2. auto.
  - intros [= <-]. exists early, (roundMinutes c early false).
    split; [exact H1|]. split; [exact H2|]. apply roundUp_ge, Hint.
Qed.

Lemma projectFrom_earlyBeforeRank ranked todo : forall Qd all,
  Forall earlyBeforeRank Qd ->
  projectFrom c localTZA (length ranked) (ranked ++ Qd) todo = Some all ->
  exists Qd', all = ranked ++ Qd' /\ Forall earlyBeforeRank Qd'.
Proof using Hint.
  induction todo as [|q rest IH]; intros Qd all HQ Hrun.
  - cbn in Hrun. injection Hrun as <-. eauto.
  - cbn [projectFrom] in Hrun.
    destruct (projectAt c localTZA (ranked ++ Qd) (length ranked)
                (length (ranked ++ Qd)) q) as [q'|] eqn:Hp; [|discriminate].
    rewrite <- app_assoc in Hrun. apply (IH (Qd ++ [q'])); [|exact Hrun].
    apply Forall_app. split; [exact HQ|]. constructor; [|constructor].
    eapply projectAt_earlyBeforeRank, Hp.
Qed.

(** After a run of [adjustRankDates] over distinct references, every
    qualified set has [rankDateEarly <= rankDate]. *)
Theorem adjustRankDates_earlyBeforeRank (qs rs : list loc) h h' ranked qualified :
  NoDup (rs ++ qs) -> refsTo h rs ranked -> refsTo h qs qualified ->
  adjustRankDates c localTZA qs rs 0 h = (Some tt, h') ->
  exists qualified',
    refsTo h' qs qualified' /\ Forall earlyBeforeRank qualified'.
Proof using Hint.
  intros Hnd Hr Hq Hrun.
  pose proof (adjustRankDates_pure c localTZA qs rs h ranked qualified Hnd Hr Hq)
    as Hpure.
  assert (Hlen : length rs = length ranked) by (eapply Forall2_length; eauto).
  destruct (projectFrom c localTZA (length rs) ranked qualified) as [all|] eqn:Hall.
  2:{ apply returned_None in Hpure. rewrite Hrun in Hpure. discriminate. }
  destruct Hpure as (h'' & Hrun' & Hrefs).
  rewrite Hrun' in Hrun. injection Hrun as ->.
  rewrite Hlen in Hall.
  destruct (projectFrom_earlyBeforeRank ranked qualified [] all) as (Qd' & -> & HQ).
  - constructor.
  - now rewrite app_nil_r.
  - exists Qd'. split; [|exact HQ].
    apply Forall2_app_inv in Hrefs as (_ & Hqs); [exact Hqs | exact Hlen].
Qed.

End EarlyBeforeRank.

Lemma adjustRankDates_earlyBeforeRank_witness :
  exists h' qualified',
    adjustRankDates specConstants utc [2; 3]%nat [0; 1]%nat 0 pastQueueHeap
    = (Some tt, h') /\
    refsTo h' [2; 3]%nat qualified' /\
    Forall earlyBeforeRank qualified'.
Proof.
  eexists.
  destruct (adjustRankDates_earlyBeforeRank specConstants utc eq_refl
              [2; 3]%nat [0; 1]%nat pastQueueHeap
              (adjustRankDates specConstants utc [2; 3]%nat
                 [0; 1]%nat 0 pastQueueHeap).2
              [ scheduleOf 100 None (Some (gridTime - 37 * 60000)) false;
                scheduleOf 101 None (Some (gridTime + 23 * 60000)) false ]
              [ scheduleOf 102 (Some (gridTime - 65 * 60000)) None false;
                scheduleOf 103 (Some (gridTime - 59 * 60000)) None false ])
    as (qualified' & Hrefs & HQ).
  - apply NoDup_ListNoDup. repeat constructor; cbn; intuition lia.
  - repeat constructor.
  - repeat constructor.
  - vm_compute. reflexivity.
  - exists qualified'. split; [vm_compute; reflexivity|]. split; assumption.
Defined.

(** ** When the projector returns, and when it throws *)

Section Totality.
Context (c : Constants) (localTZA : Z -> Z).
Hypothesis Hrun : (1 <= RANK_PER_RUN c)%nat.

Lemma pulledForward_total first q :
  is_Some (rankDate first) -> is_Some (rankDate q) ->
  is_Some (rankDateEarly q) ->
  exists q', pulledForward c first q = Some q' /\
             is_Some (rankDate q') /\ is_Some (rankDateEarly q') /\
             unresolved q' = unresolved q.
Proof using Type.
  intros [tf Ef] [t Et] [e Ee]. unfold pulledForward, slotOf.
  rewrite Ef, Et. destruct (queueDate first).
  - destruct (t <? _); eexists; (split; [reflexivity|]); cbn; eauto.
  - eexists. split; [reflexivity|]. rewrite Et, Ee. eauto.
Qed.

Lemma pushedBack_total filtered first q :
  Forall (fun b => is_Some (rankDate b)) filtered ->
  (RANK_PER_RUN c <= length filtered)%nat ->
  is_Some (rankDate first) -> is_Some (rankDate q) ->
  is_Some (rankDateEarly q) ->
  exists q', pushedBack c filtered first q = Some q' /\
             is_Some (rankDate q') /\ unresolved q' = unresolved q.
Proof using Hrun.
  intros Hall Hlen [tf Ef] [t Et] [e Ee]. unfold pushedBack.
  assert (Hslot : forall b, b ∈ take (RANK_PER_RUN c) filtered ->
                            is_Some (slotOf c b)).
  { intros b Hb. apply subseteq_take, list_elem_of_In in Hb.
    rewrite List.Forall_forall in Hall. destruct (Hall b Hb) as [tb Etb].
    unfold slotOf. rewrite Etb. eauto. }
  destruct (everyO_is_Some (saturatedBy c q) (take (RANK_PER_RUN c) filtered))
    as [[|] ->].
  { intros b Hb. destruct (Hslot b Hb) as [s Es]. unfold saturatedBy.
    rewrite Es, Ee. eauto. }
  - destruct (everyO_is_Some (sameSlotAs c filtered) (take (RANK_PER_RUN c) filtered))
      as [allSame ->].
    { intros b Hb. destruct (Hslot b Hb) as [s Es]. unfold sameSlotAs.
      rewrite Es.
      destruct (filtered !! (RANK_PER_RUN c - 1)%nat) as [last|] eqn:El.
      - destruct (Hslot last) as [sl ->]; [|eauto].
        apply list_elem_of_lookup. exists (RANK_PER_RUN c - 1)%nat.
        rewrite lookup_take_lt by lia. exact El.
      - apply lookup_ge_None in El. lia. }
    unfold slotOf. rewrite Ef. eexists. split; [reflexivity|]. cbn. eauto.
  - eexists. split; [reflexivity|]. rewrite Et. eauto.
Qed.

Lemma projectAt_total before rankedLength i q :
  Forall (fun b => is_Some (rankDate b)) before ->
  (RANK_PER_RUN c <= length (keepResolved before))%nat ->
  is_Some (queueDate q) ->
  exists q', projectAt c localTZA before rankedLength i q = Some q' /\
             is_Some (rankDate q') /\ unresolved q' = unresolved q.
Proof using Hrun.
  intros Hall Hlen [qd Eqd]. unfold projectAt. rewrite Eqd.
  set (early := Z.max qd _).
  match goal with
  | |- context [capAt c _ ?x] => set (q1 := x)
  end.
  assert (H1 : rankDateEarly q1 = Some early) by reflexivity.
  assert (H2 : rankDate q1 = Some (roundMinutes c early false)) by reflexivity.
  assert (H3 : unresolved q1 = unresolved q) by reflexivity.
  destruct (_ && _).
  - assert (Hfil : Forall (fun b => is_Some (rankDate b)) (rev (keepResolved before))).
    { rewrite List.Forall_forall in *. intros b Hb.
      apply Hall. apply list_elem_of_In. apply (recent_in_processed before b).
      now apply list_elem_of_In. }
    assert (Hfl : (RANK_PER_RUN c <= length (rev (keepResolved before)))%nat)
      by (now rewrite length_rev).
    unfold capAt.
    destruct (rev (keepResolved before) !! 0%nat) as [first|] eqn:E0.
    2:{ apply lookup_ge_None in E0. lia. }
    assert (Hf : is_Some (rankDate first)).
    { rewrite List.Forall_forall in Hfil. apply Hfil.
      apply list_elem_of_In, list_elem_of_lookup. eauto. }
    destruct (pulledForward_total first q1 Hf) as (q2 & -> & Hr2 & He2 & Hu2);
      [rewrite H2; eauto | rewrite H1; eauto |].
    destruct (pushedBack_total _ first q2 Hfil Hfl Hf Hr2 He2) as (q3 & -> & Hr3 & Hu3).
    exists q3. split; [reflexivity|]. split; [exact Hr3|]. congruence.
  - exists q1. split; [reflexivity|]. rewrite H2. eauto.
Qed.

Lemma projectFrom_total rankedLength todo : forall done,
  Forall (fun b => is_Some (rankDate b)) done ->
  (RANK_PER_RUN c <= length (keepResolved done))%nat ->
  Forall (fun b => is_Some (queueDate b)) todo ->
  is_Some (projectFrom c localTZA rankedLength done todo).
Proof using Hrun.
  induction todo as [|q rest IH]; intros done Hall Hlen Htodo; cbn [projectFrom].
  - eauto.
  - apply List.Forall_cons_iff in Htodo as [Hq Hrest].
    destruct (projectAt_total done rankedLength (length done) q Hall Hlen Hq)
      as (q' & -> & Hr & _).
    apply IH; [| | exact Hrest].
    + apply Forall_app. split; [exact Hall|]. now constructor.
    + rewrite keepResolved_app, length_app. lia.
Qed.

(** Over distinct references, [adjustRankDates] returns when every ranked
    set has a [rankDate], every qualified set a [queueDate], and at least
    [RANK_PER_RUN] ranked sets are not unresolved: then [filteredMaps] holds
    at least [RANK_PER_RUN] sets at every index. *)
Theorem adjustRankDates_total (qs rs : list loc) h ranked qualified :
  NoDup (rs ++ qs) -> refsTo h rs ranked -> refsTo h qs qualified ->
  Forall (fun b => is_Some (rankDate b)) ranked ->
  (RANK_PER_RUN c <= length (keepResolved ranked))%nat ->
  Forall (fun b => is_Some (queueDate b)) qualified ->
  exists h', adjustRankDates c localTZA qs rs 0 h = (Some tt, h').
Proof using Hrun.
  intros Hnd Hr Hq Hranked Hlen Hqualified.
  pose proof (adjustRankDates_pure c localTZA qs rs h ranked qualified Hnd Hr Hq)
    as Hpure.
  destruct (projectFrom_total (length rs) qualified ranked Hranked Hlen Hqualified)
    as [all Hall].
  rewrite Hall in Hpure. destruct Hpure as (h' & Hrun' & _). eauto.
Qed.

End Totality.

Lemma adjustRankDates_total_witness :
  exists h',
    adjustRankDates specConstants utc [3; 4]%nat [0; 1; 2]%nat 0 overflowHeap
    = (Some tt, h').
Proof.
  apply (adjustRankDates_total specConstants utc)
    with (ranked := overflowRanked) (qualified := overflowQualified).
  - cbn. lia.
  - apply NoDup_ListNoDup. repeat constructor; cbn; intuition lia.
  - repeat constructor.
  - repeat constructor.
  - repeat constructor; cbn; eauto.
  - cbn. lia.
  - repeat constructor; cbn; eauto.
Defined.

(** With fewer than [RANK_PER_RUN] sets that are not unresolved before an
    index from [RANK_PER_RUN] on, the per-run block reads a property of
    [undefined] and throws: of [filteredMaps[0]] when there is none, of
    [filteredMaps[RANK_PER_RUN - 1]] in the inner [every] otherwise. *)
Lemma adjustRankDates_throws :
  (adjustRankDates specConstants utc [0; 1; 2; 3]%nat [] 0 noneResolvedHeap).1
  = None /\
  (adjustRankDates specConstants utc [0; 1; 2; 3]%nat [] 0 fewResolvedHeap).1
  = None.
Proof. split; vm_compute; reflexivity. Qed.

(** ** More on [adjustRankDates]: the grid, the order of the queue, the daily
    limit, a second run, and the runs that throw *)

Lemma keepResolved_elem xs b :
  b ∈ xs -> unresolved b = false -> b ∈ keepResolved xs.
Proof.
  induction xs as [|x xs IH]; intros Hb Hres; [inversion Hb|].
  cbn [keepResolved]. inversion Hb; subst.
  - rewrite Hres. left.
  - destruct (unresolved x); [|right]; now apply IH.
Qed.

Lemma StronglySorted_app_elem {A} (R : A -> A -> Prop) l1 l2 x1 x2 :
  StronglySorted R (l1 ++ l2) -> x1 ∈ l1 -> x2 ∈ l2 -> R x1 x2.
Proof.
  induction l1 as [|a l1 IH]; intros Hs H1 H2; [inversion H1|].
  cbn in Hs. inversion Hs as [|? ? Hs' Hall]; subst.
  inversion H1; subst.
  - rewrite List.Forall_forall in Hall. apply Hall, in_or_app. right.
    now apply list_elem_of_In.
  - now apply IH.
Qed.

Section AfterARun.
Context (c : Constants) (localTZA : Z -> Z).

(** What one pass of the loop leaves satisfies whatever every step
    establishes. *)
Lemma projectFrom_each (P : BeatmapSet -> Prop) rankedLength :
  (forall before i q q',
     projectAt c localTZA before rankedLength i q = Some q' -> P q') ->
  forall todo done all,
    projectFrom c localTZA rankedLength done todo = Some all ->
    exists todo', all = done ++ todo' /\ Forall P todo'.
Proof.
  intros Hstep. induction todo as [|q rest IH]; intros done all H;
    cbn [projectFrom] in H.
  - injection H as <-. exists []. now rewrite app_nil_r.
  - destruct (projectAt c localTZA done rankedLength (length done) q) as [q'|] eqn:Hp;
      [|discriminate].
    destruct (IH _ _ H) as (rest' & -> & Hall).
    exists (q' :: rest'). rewrite <- app_assoc. split; [reflexivity|].
    constructor; [eapply Hstep, Hp | exact Hall].
Qed.

(** A run that returns is a pass of [projectFrom] over the objects. *)
Lemma adjustRankDates_returned (qs rs : list loc) h h' ranked qualified :
  NoDup (rs ++ qs) -> refsTo h rs ranked -> refsTo h qs qualified ->
  adjustRankDates c localTZA qs rs 0 h = (Some tt, h') ->
  exists qualified',
    projectFrom c localTZA (length ranked) ranked qualified
    = Some (ranked ++ qualified') /\
    refsTo h' rs ranked /\ refsTo h' qs qualified'.
Proof.
  intros Hnd Hr Hq Hrun.
  pose proof (adjustRankDates_pure c localTZA qs rs h ranked qualified Hnd Hr Hq)
    as Hpure.
  assert (Hlen : length rs = length ranked) by (eapply Forall2_length; eauto).
  destruct (projectFrom c localTZA (length rs) ranked qualified) as [all|] eqn:Hall.
  2:{ apply returned_None in Hpure. rewrite Hrun in Hpure. discriminate. }
  destruct Hpure as (h1 & Hrun' & Hrefs). rewrite Hrun' in Hrun.
  injection Hrun as ->. rewrite Hlen in Hall.
  destruct (projectFrom_each (fun _ => True) (length ranked)
              (fun _ _ _ _ _ => I) _ _ _ Hall) as (qualified' & -> & _).
  exists qualified'. split; [exact Hall|].
  apply Forall2_app_inv in Hrefs; [exact Hrefs | exact Hlen].
Qed.

Section OnTheGrid.
Hypothesis Hint : 0 < RANK_INTERVAL c * MINUTE c.
Hypothesis Hrun : (1 <= RANK_PER_RUN c)%nat.

Lemma projectAt_onGrid before rankedLength i q q' :
  projectAt c localTZA before rankedLength i q = Some q' ->
  exists t, rankDate q' = Some t /\ onGrid c t.
Proof using Hint Hrun.
  intros Hp.
  destruct (le_lt_dec (RANK_PER_RUN c) i) as [Hi|Hi];
    [destruct (unresolved q) eqn:Hres|].
  - destruct (projectAt_plain c localTZA _ _ _ _ _ Hp (or_intror Hres))
      as (qd & _ & ->).
    eexists. split; [reflexivity | apply onGrid_roundUp, Hint].
  - destruct (projectAt_capped c localTZA Hint Hrun _ _ _ _ _ Hp Hi Hres)
      as (first & t & _ & Et & Hg & _).
    eauto.
  - destruct (projectAt_plain c localTZA _ _ _ _ _ Hp (or_introl Hi))
      as (qd & _ & ->).
    eexists. split; [reflexivity | apply onGrid_roundUp, Hint].
Qed.

(** After a run of [adjustRankDates], the rank date of every qualified set,
    unresolved or not, is a boundary of the interval grid. *)
Theorem adjustRankDates_onGrid (qs rs : list loc) h h' ranked qualified :
  NoDup (rs ++ qs) -> refsTo h rs ranked -> refsTo h qs qualified ->
  adjustRankDates c localTZA qs rs 0 h = (Some tt, h') ->
  exists qualified',
    refsTo h' qs qualified' /\
    Forall (fun b => exists t, rankDate b = Some t /\
                               (RANK_INTERVAL c * MINUTE c | t))
           qualified'.
Proof using Hint Hrun.
  intros Hnd Hr Hq Hret.
  destruct (adjustRankDates_returned qs rs h h' ranked qualified Hnd Hr Hq Hret)
    as (qualified' & Hall & _ & Hq').
  exists qualified'. split; [exact Hq'|].
  destruct (projectFrom_each
              (fun b => exists t, rankDate b = Some t /\
                                  (RANK_INTERVAL c * MINUTE c | t))
              (length ranked)) with (todo := qualified) (done := ranked)
              (all := ranked ++ qualified') as (todo' & E & HF).
  - intros before i q q' Hp. destruct (projectAt_onGrid _ _ _ _ _ Hp) as (t & Et & Hg).
    exists t. split; [exact Et|].
    unfold onGrid, roundMinutes in Hg. exists (t / (RANK_INTERVAL c * MINUTE c)). lia.
  - exact Hall.
  - apply app_inv_head in E. now subst.
Qed.

Hypothesis Hcap : (RANK_PER_RUN c <= RANK_PER_DAY c)%nat.

(** On a queue in [queueDate] order, the sets that are not unresolved get
    their rank dates in the order of the queue: none is ranked before one
    that is ahead of it. *)
Theorem adjustRankDates_in_queue_order (qs rs : list loc) h h' ranked qualified :
  NoDup (rs ++ qs) -> refsTo h rs ranked -> refsTo h qs qualified ->
  StronglySorted queueLe qualified ->
  adjustRankDates c localTZA qs rs 0 h = (Some tt, h') ->
  exists qualified',
    refsTo h' qs qualified' /\
    forall i j a b ta tb,
      (i < j)%nat -> qualified' !! i = Some a -> qualified' !! j = Some b ->
      unresolved a = false -> unresolved b = false ->
      rankDate a = Some ta -> rankDate b = Some tb -> ta <= tb.
Proof using Hint Hrun Hcap.
  intros Hnd Hr Hq Hsorted Hret.
  destruct (adjustRankDates_returned qs rs h h' ranked qualified Hnd Hr Hq Hret)
    as (qualified' & Hall & _ & Hq').
  exists qualified'. split; [exact Hq'|].
  destruct (projectFrom_Projected c localTZA Hint Hrun Hcap ranked qualified []
              (ranked ++ qualified')) as (Qd' & E & _ & HP).
  - rewrite app_nil_r. apply Projected_start.
  - exact Hsorted.
  - constructor.
  - now rewrite app_nil_r.
  - apply app_inv_head in E. subst Qd'.
    intros i j a b ta tb Hij Ea Eb Ha Hb Eta Etb.
    pose proof (projected_sorted _ _ _ HP) as Hs.
    rewrite <- (take_drop j qualified'), keepResolved_app, rev_app_distr in Hs.
    refine (StronglySorted_app_elem _ _ _ b a Hs _ _ tb ta Etb Eta).
    + apply list_elem_of_In. apply -> in_rev. apply list_elem_of_In.
      apply keepResolved_elem; [|exact Hb].
      apply list_elem_of_lookup. exists 0%nat. now rewrite lookup_drop, Nat.add_0_r.
    + apply list_elem_of_In. apply -> in_rev. apply list_elem_of_In.
      apply keepResolved_elem; [|exact Ha].
      apply list_elem_of_lookup. exists i. now rewrite lookup_take_lt.
Qed.

End OnTheGrid.
End AfterARun.

Lemma everyO_all {A} (p : A -> option bool) xs :
  everyO p xs = Some true -> forall x, x ∈ xs -> p x = Some true.
Proof.
  induction xs as [|y xs IH]; cbn [everyO]; intros H x Hx; [inversion Hx|].
  destruct (p y) as [[|]|] eqn:E; [|discriminate|discriminate].
  inversion Hx; subst; [exact E | now apply IH].
Qed.

Lemma keepResolved_rev xs : keepResolved (rev xs) = rev (keepResolved xs).
Proof.
  induction xs as [|x xs IH]; [reflexivity|].
  cbn [rev keepResolved]. rewrite keepResolved_app, IH. cbn [keepResolved].
  destruct (unresolved x); [now rewrite app_nil_r | reflexivity].
Qed.

Section DailyCap.
Context (c : Constants) (localTZA : Z -> Z).

(** The loop that looks for [compareMap] leaves the [RANK_PER_DAY]-th of the
    sets it counts, when it gets that far. *)
Lemma compareStep_fold sets : forall n cm,
  (fold_left (compareStep c) sets (n, cm)).2
  = if (n <? RANK_PER_DAY c)%nat
    then match keepResolved sets !! (RANK_PER_DAY c - 1 - n)%nat with
         | Some m => Some m
         | None => cm
         end
    else cm.
Proof.
  induction sets as [|b sets IH]; intros n cm; cbn [fold_left keepResolved].
  - rewrite lookup_nil. now destruct (n <? RANK_PER_DAY c)%nat.
  - unfold compareStep at 2. destruct (unresolved b); [apply IH|].
    cbn [fst snd]. rewrite IH.
    destruct (Nat.ltb_spec n (RANK_PER_DAY c)) as [Hn|Hn].
    + destruct (Nat.eqb_spec (S n) (RANK_PER_DAY c)) as [E|E].
      * replace (RANK_PER_DAY c - 1 - n)%nat with 0%nat by lia.
        replace (S n <? RANK_PER_DAY c)%nat with false
          by (symmetry; apply Nat.ltb_ge; lia).
        reflexivity.
      * replace (RANK_PER_DAY c - 1 - n)%nat with (S (RANK_PER_DAY c - 1 - S n)) by lia.
        replace (S n <? RANK_PER_DAY c)%nat with true
          by (symmetry; apply Nat.ltb_lt; lia).
        reflexivity.
    + replace (S n <? RANK_PER_DAY c)%nat with false
        by (symmetry; apply Nat.ltb_ge; lia).
      destruct (Nat.eqb_spec (S n) (RANK_PER_DAY c)); [lia | reflexivity].
Qed.

(** [compareMap] is the [RANK_PER_DAY]-th set that is not unresolved, counting
    back from the current index. *)
Lemma findCompareMap_nth before :
  (1 <= RANK_PER_DAY c)%nat ->
  findCompareMap c (rev before)
  = rev (keepResolved before) !! (RANK_PER_DAY c - 1)%nat.
Proof.
  intros Hday. unfold findCompareMap. rewrite compareStep_fold.
  replace (0 <? RANK_PER_DAY c)%nat with true by (symmetry; apply Nat.ltb_lt; lia).
  rewrite Nat.sub_0_r, keepResolved_rev.
  now destruct (rev (keepResolved before) !! _).
Qed.

(** A pass of the loop, with what every step establishes about the object it
    leaves and the objects before it. *)
Lemma projectFrom_each_after (P : list BeatmapSet -> BeatmapSet -> Prop)
    rankedLength :
  (forall before i q q',
     projectAt c localTZA before rankedLength i q = Some q' -> P before q') ->
  forall todo done all,
    projectFrom c localTZA rankedLength done todo = Some all ->
    exists todo',
      all = done ++ todo' /\
      forall k q', todo' !! k = Some q' -> P (done ++ take k todo') q'.
Proof.
  intros Hstep. induction todo as [|q rest IH]; intros done all H;
    cbn [projectFrom] in H.
  - injection H as <-. exists []. rewrite app_nil_r. split; [reflexivity|].
    intros k q' Hk. now rewrite lookup_nil in Hk.
  - destruct (projectAt c localTZA done rankedLength (length done) q) as [q'|] eqn:Hp;
      [|discriminate].
    destruct (IH _ _ H) as (rest' & -> & Hall).
    exists (q' :: rest'). rewrite <- app_assoc. split; [reflexivity|].
    intros [|k] q'' Hk; cbn in Hk.
    + injection Hk as <-. cbn [take]. rewrite app_nil_r. eapply Hstep, Hp.
    + cbn [take]. specialize (Hall k q'' Hk). rewrite <- app_assoc in Hall.
      exact Hall.
Qed.

Section LowerBounds.
Hypothesis Hint : 0 < RANK_INTERVAL c * MINUTE c.

Lemma pulledForward_lower first q q' e t :
  rankDateEarly q = Some e -> rankDate q = Some t -> e <= t ->
  pulledForward c first q = Some q' ->
  exists e' t',
    rankDateEarly q' = Some e' /\ rankDate q' = Some t' /\ e <= e' <= t'.
Proof using Type.
  intros Ee Et Hle. unfold pulledForward.
  destruct (queueDate first) as [qf|]; [|intros [= <-]; exists e, t; auto with lia].
  rewrite Et. destruct (slotOf c first) as [slot|]; [|discriminate].
  destruct (t <? slot) eqn:Hlt; intros [= <-].
  - apply Z.ltb_lt in Hlt. exists slot, slot. cbn. repeat split; lia.
  - exists e, t. auto with lia.
Qed.

Lemma pushedBack_lower filtered first q q' e t :
  (1 <= RANK_PER_RUN c)%nat ->
  filtered !! 0%nat = Some first ->
  rankDateEarly q = Some e -> rankDate q = Some t -> e <= t ->
  pushedBack c filtered first q = Some q' ->
  exists e' t',
    rankDateEarly q' = Some e' /\ rankDate q' = Some t' /\
    roundMinutes c e true <= e' <= t'.
Proof using Hint.
  intros Hrun Hfirst Ee Et Hle. unfold pushedBack.
  destruct (everyO (saturatedBy c q) _) as [[|]|] eqn:Hsat; [| |discriminate].
  - destruct (everyO (sameSlotAs c filtered) _) as [allSame|]; [|discriminate].
    destruct (slotOf c first) as [slot|] eqn:Es; [|discriminate].
    intros [= <-].
    assert (Hin0 : first ∈ take (RANK_PER_RUN c) filtered).
    { apply list_elem_of_lookup. exists 0%nat.
      rewrite lookup_take_lt by lia. exact Hfirst. }
    pose proof (everyO_all _ _ Hsat first Hin0) as Hs.
    unfold saturatedBy in Hs. rewrite Es, Ee in Hs. injection Hs as Hs.
    apply Z.leb_le in Hs.
    eexists _, _. cbn. split; [reflexivity|]. split; [reflexivity|].
    destruct allSame; lia.
  - intros [= <-]. exists e, t. pose proof (roundDown_le c Hint e). auto with lia.
Qed.

(** What a step leaves is not before the interval of the later of the queue
    date and the date of the daily limit. *)
Lemma projectAt_lower before rankedLength i q q' :
  (1 <= RANK_PER_RUN c)%nat ->
  projectAt c localTZA before rankedLength i q = Some q' ->
  exists qd e t,
    queueDate q' = Some qd /\ rankDateEarly q' = Some e /\ rankDate q' = Some t /\
    roundMinutes c
      (Z.max qd (compareDateOf c (findCompareMap c (rev before)) rankedLength i))
      true <= e <= t.
Proof using Hint.
  intros Hrun Hp.
  pose proof (projectAt_unscheduled c localTZA _ _ _ _ _ Hp) as Hun.
  apply unscheduled_fields in Hun as [Hqd _].
  revert Hp. unfold projectAt. destruct (queueDate q) as [qd|]; [|discriminate].
  set (early := Z.max qd _).
  match goal with
  | |- (if _ then capAt c _ ?x else _) = _ -> _ => set (q1 := x)
  end.
  assert (H1 : rankDateEarly q1 = Some early) by reflexivity.
  assert (H2 : rankDate q1 = Some (roundMinutes c early false)) by reflexivity.
  pose proof (roundUp_ge c Hint early) as Hup.
  pose proof (roundDown_le c Hint early) as Hdown.
  intros Hp. exists qd. revert Hp.
  destruct ((RANK_PER_RUN c <=? i)%nat && negb (unresolved q)).
  - unfold capAt.
    destruct (rev (keepResolved before) !! 0%nat) as [first|] eqn:Hfirst; [|discriminate].
    destruct (pulledForward c first q1) as [q2|] eqn:E2; [|discriminate].
    intros E3.
    destruct (pulledForward_lower _ _ _ _ _ H1 H2 Hup E2) as (e2 & t2 & Ee2 & Et2 & Hle2).
    destruct (pushedBack_lower _ _ _ _ _ _ Hrun Hfirst Ee2 Et2 ltac:(lia) E3)
      as (e3 & t3 & Ee3 & Et3 & Hle3).
    exists e3, t3. repeat split; try assumption; try lia.
    change (roundMinutes c early true <= e3).
    pose proof (roundDown_mono c Hint early e2 ltac:(lia)). lia.
  - intros [= <-]. exists early, (roundMinutes c early false).
    repeat split; try assumption; try reflexivity; lia.
Qed.

Lemma roundDown_shift t k :
  roundMinutes c (t + k * (RANK_INTERVAL c * MINUTE c)) true
  = roundMinutes c t true + k * (RANK_INTERVAL c * MINUTE c).
Proof using Hint.
  unfold roundMinutes. rewrite Z.div_add by lia. lia.
Qed.

Hypothesis Hrun : (1 <= RANK_PER_RUN c)%nat.

(** After a run of [adjustRankDates], no qualified set is due before the
    interval that holds its queue date: the start of that interval is not
    after its early time, which is not after its rank time. *)
Theorem adjustRankDates_from_queue_interval (qs rs : list loc) h h' ranked qualified :
  NoDup (rs ++ qs) -> refsTo h rs ranked -> refsTo h qs qualified ->
  adjustRankDates c localTZA qs rs 0 h = (Some tt, h') ->
  forall l, l ∈ qs ->
    exists b qd e t,
      h' !! l = Some b /\ queueDate b = Some qd /\
      rankDateEarly b = Some e /\ rankDate b = Some t /\
      roundMinutes c qd true <= e <= t.
Proof using Hint Hrun.
  intros Hnd Hr Hq Hret l Hl.
  destruct (adjustRankDates_returned c localTZA qs rs h h' ranked qualified Hnd Hr Hq Hret)
    as (qualified' & Hall & _ & Hq').
  destruct (projectFrom_each c localTZA
              (fun b => exists qd e t,
                 queueDate b = Some qd /\ rankDateEarly b = Some e /\
                 rankDate b = Some t /\ roundMinutes c qd true <= e <= t)
              (length ranked)) with (todo := qualified) (done := ranked)
              (all := ranked ++ qualified') as (todo' & E & HF).
  - intros before i q q' Hp.
    destruct (projectAt_lower _ _ _ _ _ Hrun Hp) as (qd & e & t & Eq & Ee & Et & Hle).
    exists qd, e, t. repeat split; try assumption; try lia.
    pose proof (roundDown_mono c Hint qd (Z.max qd
      (compareDateOf c (findCompareMap c (rev before)) (length ranked) i))
      ltac:(lia)). lia.
  - exact Hall.
  - apply app_inv_head in E. subst todo'.
    apply list_elem_of_lookup in Hl as (k & Hk).
    destruct (Forall2_lookup_l _ _ _ _ _ Hq' Hk) as (b & Hb & Hlb).
    rewrite List.Forall_forall in HF.
    destruct (HF b) as (qd & e & t & H1 & H2 & H3 & H4).
    + apply list_elem_of_In, list_elem_of_lookup. eauto.
    + exists b, qd, e, t. auto.
Qed.

Hypothesis Hday : (1 <= RANK_PER_DAY c)%nat.
Hypothesis Hdivide : (RANK_INTERVAL c * MINUTE c | DAY c).

(** The daily limit, as the loop keeps it: after a run, a qualified set,
    unresolved or not, is due at least a day after the interval of the
    [RANK_PER_DAY]-th set that is not unresolved, counting back from it
    through the queue and the ranked sets. *)
Theorem adjustRankDates_daily_limit (qs rs : list loc) h h' ranked qualified :
  NoDup (rs ++ qs) -> refsTo h rs ranked -> refsTo h qs qualified ->
  adjustRankDates c localTZA qs rs 0 h = (Some tt, h') ->
  exists qualified',
    refsTo h' qs qualified' /\
    forall k b m tm,
      qualified' !! k = Some b ->
      rev (keepResolved (ranked ++ take k qualified')) !! (RANK_PER_DAY c - 1)%nat
      = Some m ->
      rankDate m = Some tm ->
      exists t, rankDate b = Some t /\ roundMinutes c tm true + DAY c <= t.
Proof using Hint Hrun Hday Hdivide.
  intros Hnd Hr Hq Hret.
  destruct (adjustRankDates_returned c localTZA qs rs h h' ranked qualified Hnd Hr Hq Hret)
    as (qualified' & Hall & _ & Hq').
  exists qualified'. split; [exact Hq'|].
  destruct (projectFrom_each_after
              (fun before b => forall m tm,
                 rev (keepResolved before) !! (RANK_PER_DAY c - 1)%nat = Some m ->
                 rankDate m = Some tm ->
                 exists t, rankDate b = Some t /\ roundMinutes c tm true + DAY c <= t)
              (length ranked)) with (todo := qualified) (done := ranked)
              (all := ranked ++ qualified') as (todo' & E & HF).
  - intros before i q q' Hp m tm Em Etm.
    destruct (projectAt_lower _ _ _ _ _ Hrun Hp) as (qd & e & t & _ & _ & Et & Hle).
    exists t. split; [exact Et|].
    rewrite (findCompareMap_nth before Hday), Em in Hle.
    unfold compareDateOf in Hle. rewrite Etm in Hle.
    destruct Hdivide as [n Hn].
    pose proof (roundDown_shift tm n) as Hshift. rewrite <- Hn in Hshift.
    set (cd := if (_ <=? _)%nat then _ else _) in Hle.
    assert (tm + DAY c <= cd) by (subst cd; destruct (_ <=? _)%nat; lia).
    pose proof (roundDown_mono c Hint (tm + DAY c) (Z.max qd cd) ltac:(lia)). lia.
  - exact Hall.
  - apply app_inv_head in E. subst todo'.
    intros k b m tm Hk Em Etm. exact (HF k b Hk m tm Em Etm).
Qed.

End LowerBounds.
End DailyCap.

Lemma scheduled_eq (a b : BeatmapSet) :
  unscheduled a = unscheduled b -> rankDateEarly a = rankDateEarly b ->
  rankDate a = rankDate b -> probability a = probability b -> a = b.
Proof.
  destruct a, b. unfold unscheduled. cbn. intros [= -> -> -> -> -> -> -> -> ->].
  now intros -> -> ->.
Qed.

Section Idempotence.
Context (c : Constants) (localTZA : Z -> Z).

Lemma projectAt_ext before rankedLength i q1 q2 :
  unscheduled q1 = unscheduled q2 ->
  projectAt c localTZA before rankedLength i q1
  = projectAt c localTZA before rankedLength i q2.
Proof.
  intros Hu. destruct (unscheduled_fields _ _ Hu) as [Hq Hr].
  unfold projectAt. rewrite Hq, Hr.
  destruct (queueDate q2) as [qd|]; [|reflexivity].
  match goal with
  | |- (if _ then capAt c _ ?x else Some ?x) = (if _ then capAt c _ ?y else Some ?y) =>
      assert (E : x = y) by (apply scheduled_eq; [exact Hu | reflexivity ..]);
      now rewrite E
  end.
Qed.

Lemma projectAt_idempotent before rankedLength i q q' :
  projectAt c localTZA before rankedLength i q = Some q' ->
  projectAt c localTZA before rankedLength i q' = Some q'.
Proof.
  intros H. rewrite <- H. apply projectAt_ext.
  eapply projectAt_unscheduled, H.
Qed.

(** The result of the loop keeps the objects already passed and has one
    object for each one still to do. *)
Lemma projectFrom_shape rankedLength todo : forall done all,
  projectFrom c localTZA rankedLength done todo = Some all ->
  exists todo', all = done ++ todo' /\ length todo' = length todo.
Proof.
  induction todo as [|q rest IH]; intros done all H; cbn [projectFrom] in H.
  - injection H as <-. exists []. now rewrite app_nil_r.
  - destruct (projectAt c localTZA done rankedLength (length done) q) as [q'|];
      [|discriminate].
    destruct (IH _ _ H) as (rest' & -> & Hlen).
    exists (q' :: rest'). rewrite <- app_assoc. cbn. now rewrite Hlen.
Qed.

(** Once the loop has run, running it again from any index finds every
    object as it would leave it. *)
Lemma projectFrom_fixed rankedLength todo : forall done todo',
  projectFrom c localTZA rankedLength done todo = Some (done ++ todo') ->
  forall k,
    projectFrom c localTZA rankedLength (done ++ take k todo') (drop k todo')
    = Some (done ++ todo').
Proof.
  induction todo as [|q rest IH]; intros done todo' H k; cbn [projectFrom] in H.
  - injection H as H. apply (f_equal length) in H as Hl.
    rewrite length_app in Hl. destruct todo'; [|cbn in Hl; lia].
    rewrite take_nil, drop_nil. reflexivity.
  - destruct (projectAt c localTZA done rankedLength (length done) q) as [q'|] eqn:Hp;
      [|discriminate].
    destruct (projectFrom_shape _ _ _ _ H) as (rest' & Hall & _).
    rewrite <- app_assoc in Hall. apply app_inv_head in Hall. subst todo'.
    rewrite app_assoc in H. cbn [app].
    destruct k as [|k].
    + cbn [take drop]. rewrite app_nil_r. cbn [projectFrom].
      rewrite (projectAt_idempotent _ _ _ _ _ Hp).
      specialize (IH _ _ H 0%nat). rewrite take_0, drop_0, app_nil_r in IH.
      rewrite IH. now rewrite <- app_assoc.
    + cbn [take drop]. specialize (IH _ _ H k).
      rewrite <- !app_assoc in IH. exact IH.
Qed.

Lemma refsTo_agree h1 h2 ls bs l :
  refsTo h1 ls bs -> refsTo h2 ls bs -> l ∈ ls -> h1 !! l = h2 !! l.
Proof.
  intros H1. revert h2. induction H1 as [|l0 b ls' bs' E H IH]; intros h2 H2 Hl.
  - inversion Hl.
  - inversion H2; subst. inversion Hl; subst; [congruence | now apply IH].
Qed.

(** A second run of [adjustRankDates], from any [start], leaves the heap of
    the first run as it is. *)
Theorem adjustRankDates_idempotent (qs rs : list loc) h h1 ranked qualified :
  NoDup (rs ++ qs) -> refsTo h rs ranked -> refsTo h qs qualified ->
  adjustRankDates c localTZA qs rs 0 h = (Some tt, h1) ->
  forall start, adjustRankDates c localTZA qs rs start h1 = (Some tt, h1).
Proof.
  intros Hnd Hr Hq Hrun start.
  pose proof (adjustRankDates_pure c localTZA qs rs h ranked qualified Hnd Hr Hq)
    as Hpure.
  assert (Hlen : length rs = length ranked) by (eapply Forall2_length; eauto).
  destruct (projectFrom c localTZA (length rs) ranked qualified) as [all|] eqn:Hall.
  2:{ apply returned_None in Hpure. rewrite Hrun in Hpure. discriminate. }
  destruct Hpure as (h1' & Hrun' & Hrefs). rewrite Hrun' in Hrun.
  injection Hrun as ->.
  destruct (projectFrom_shape _ _ _ _ Hall) as (qualified' & -> & Hlenq).
  apply Forall2_app_inv in Hrefs as (Hr1 & Hq1); [|exact Hlen].
  destruct (decide (start <= length qs)%nat) as [Hs|Hs].
  2:{ unfold adjustRankDates. rewrite length_app.
      replace (length rs + length qs - (length rs + start))%nat with 0%nat by lia.
      reflexivity. }
  pose proof (projectFrom_fixed _ _ _ _ Hall start) as Hfix.
  pose proof (forEach_adjustRankDatesAt c localTZA (length rs) (drop start qs)
                (rs ++ take start qs) h1 (ranked ++ take start qualified')
                (drop start qualified')) as Hloop.
  rewrite <- !app_assoc, !take_drop in Hloop.
  rewrite Hfix in Hloop.
  destruct Hloop as (h2 & Hrun2 & Hrefs2).
  - exact Hnd.
  - apply Forall2_app; [exact Hr1 | now apply Forall2_take].
  - now apply Forall2_drop.
  - unfold adjustRankDates. rewrite !length_app.
    rewrite length_app, length_take, length_drop in Hrun2.
    replace (length rs + length qs - (length rs + start))%nat
      with (length qs - start)%nat by lia.
    replace (length rs + start `min` length qs)%nat
      with (length rs + start)%nat in Hrun2 by lia.
    rewrite Hrun2. f_equal.
    apply map_eq. intros l.
    destruct (decide (l ∈ rs ++ qs)) as [Hin|Hout].
    + eapply refsTo_agree; [exact Hrefs2 | | exact Hin].
      apply Forall2_app; assumption.
    + pose proof (writesOnly_adjustRankDates c localTZA qs rs start h1 _ _
                    ltac:(unfold adjustRankDates; rewrite !length_app;
                          replace (length rs + length qs - (length rs + start))%nat
                            with (length qs - start)%nat by lia; exact Hrun2)) as HF.
      eapply framed_unchanged; [exact HF|].
      intros Hd. apply Hout. apply elem_of_app. right.
      eapply subseteq_drop, Hd.
Qed.

End Idempotence.

Section NoResolvedSet.
Context (c : Constants) (localTZA : Z -> Z).

Lemma keepResolved_unresolved xs :
  Forall (fun b => unresolved b = true) xs -> keepResolved xs = [].
Proof.
  induction 1 as [|x xs Hx _ IH]; cbn [keepResolved]; [reflexivity|].
  now rewrite Hx.
Qed.

Lemma projectFrom_without_resolved rankedLength us q rest : forall done,
  Forall (fun b => unresolved b = true) (done ++ us) ->
  (RANK_PER_RUN c <= length (done ++ us))%nat -> unresolved q = false ->
  projectFrom c localTZA rankedLength done (us ++ q :: rest) = None.
Proof.
  induction us as [|u us IH]; intros done Hall Hlen Hq; cbn [app projectFrom].
  - rewrite app_nil_r in Hall, Hlen.
    replace (projectAt c localTZA done rankedLength (length done) q) with (@None BeatmapSet);
      [reflexivity|].
    unfold projectAt. destruct (queueDate q); [|reflexivity].
    rewrite Hq. replace (RANK_PER_RUN c <=? length done)%nat with true
      by (symmetry; now apply Nat.leb_le).
    cbn [andb negb]. unfold capAt. now rewrite (keepResolved_unresolved _ Hall).
  - destruct (projectAt c localTZA done rankedLength (length done) u) as [u'|] eqn:Hp;
      [|reflexivity].
    apply IH; [| |exact Hq].
    + rewrite <- app_assoc. cbn [app].
      apply Forall_app in Hall as [Hd Hu]. apply Forall_app. split; [exact Hd|].
      inversion Hu; subst. constructor; [|assumption].
      destruct (unscheduled_fields _ _ (projectAt_unscheduled c localTZA _ _ _ _ _ Hp))
        as [_ ->]. assumption.
    + rewrite <- app_assoc. cbn [app]. rewrite !length_app in *. cbn [length] in *. lia.
Qed.

(** The per-run block needs a set before it that is not unresolved: a run
    throws when the first set that is not unresolved stands at an index from
    [RANK_PER_RUN] on (it reads [filteredMaps[0].queueDate] of an empty
    [filteredMaps]). *)
Theorem adjustRankDates_throws_without_resolved (qs rs : list loc) h
    ranked us q rest :
  NoDup (rs ++ qs) -> refsTo h rs ranked -> refsTo h qs (us ++ q :: rest) ->
  Forall (fun b => unresolved b = true) (ranked ++ us) ->
  (RANK_PER_RUN c <= length (ranked ++ us))%nat -> unresolved q = false ->
  (adjustRankDates c localTZA qs rs 0 h).1 = None.
Proof.
  intros Hnd Hr Hq Hall Hlen Hres. apply returned_None.
  pose proof (adjustRankDates_pure c localTZA qs rs h ranked _ Hnd Hr Hq) as Hpure.
  now rewrite (projectFrom_without_resolved _ us q rest ranked Hall Hlen Hres) in Hpure.
Qed.

End NoResolvedSet.

Lemma adjustRankDates_throws_without_resolved_witness :
  (adjustRankDates specConstants utc [0; 1; 2; 3]%nat [] 0 noneResolvedHeap).1 = None.
Proof.
  apply (adjustRankDates_throws_without_resolved specConstants utc
           [0; 1; 2; 3]%nat [] noneResolvedHeap []
           [ scheduleOf 100 (Some (gridTime + 5 * 60000)) None true;
             scheduleOf 101 (Some (gridTime + 6 * 60000)) None true;
             scheduleOf 102 (Some (gridTime + 7 * 60000)) None true ]
           (scheduleOf 103 (Some (gridTime + 25 * 60000)) None false) []).
  - apply NoDup_ListNoDup. repeat constructor; cbn; intuition lia.
  - constructor.
  - repeat constructor.
  - repeat constructor.
  - cbn. lia.
  - reflexivity.
Defined.

Section FewResolvedSets.
Context (c : Constants) (localTZA : Z -> Z).

Lemma keepResolved_app_unresolved xs us :
  Forall (fun b => unresolved b = true) us ->
  keepResolved (xs ++ us) = keepResolved xs.
Proof.
  intros H. now rewrite keepResolved_app, (keepResolved_unresolved us H), app_nil_r.
Qed.

(** The step at a set that is not unresolved, with fewer than
    [RANK_PER_RUN] sets before it that are not unresolved, all of them ranked
    sets in or after the interval of its queue date: the inner [every] reads
    [filteredMaps[RANK_PER_RUN - 1].rankDate] of [undefined]. *)
Lemma projectAt_few_resolved before rankedLength q qd :
  (RANK_PER_RUN c <= length before < RANK_PER_DAY c)%nat ->
  unresolved q = false -> queueDate q = Some qd ->
  (0 < length (keepResolved before) < RANK_PER_RUN c)%nat ->
  Forall (fun b => queueDate b = None /\
                   exists tb, rankDate b = Some tb /\
                              roundMinutes c (Z.max qd 0) true
                              <= roundMinutes c tb true)
         (keepResolved before) ->
  projectAt c localTZA before rankedLength (length before) q = None.
Proof.
  intros [Hrun Hday] Hres Hqd [Hsome Hfew] Hall.
  unfold projectAt. rewrite Hqd, Hres, (compareDateOf_short c before _ _ Hday).
  replace (RANK_PER_RUN c <=? length before)%nat with true
    by (symmetry; now apply Nat.leb_le).
  cbn [andb negb]. unfold capAt.
  set (filtered := rev (keepResolved before)).
  assert (Hfiltered : forall b, b ∈ filtered ->
            queueDate b = None /\
            exists tb, rankDate b = Some tb /\
                       roundMinutes c (Z.max qd 0) true <= roundMinutes c tb true).
  { intros b Hb. rewrite List.Forall_forall in Hall. apply Hall.
    apply in_rev. now apply list_elem_of_In. }
  assert (Hlen : length filtered = length (keepResolved before))
    by apply length_rev.
  destruct filtered as [|first others] eqn:Ef; [cbn in Hlen; lia|].
  cbn [lookup list_lookup].
  destruct (Hfiltered first ltac:(left)) as (Hq1 & tb & Etb & Hle).
  unfold pulledForward. rewrite Hq1. unfold pushedBack.
  replace (everyO _ (take (RANK_PER_RUN c) (first :: others))) with (Some true).
  2:{ symmetry. apply everyO_true. intros b Hb.
      apply subseteq_take in Hb.
      destruct (Hfiltered b Hb) as (_ & t & Et & Hlt).
      unfold saturatedBy, slotOf. rewrite Et. cbn.
      f_equal. now apply Z.leb_le. }
  replace (everyO (sameSlotAs c (first :: others))
                  (take (RANK_PER_RUN c) (first :: others))) with (@None bool);
    [reflexivity|].
  destruct (RANK_PER_RUN c) as [|n] eqn:En; [lia|].
  cbn [take everyO]. unfold sameSlotAs at 1, slotOf. rewrite Etb.
  assert (Elast : (first :: others) !! (RANK_PER_RUN c - 1)%nat = None)
    by (apply lookup_ge_None; rewrite Hlen, En; lia).
  now rewrite Elast.
Qed.

Lemma projectFrom_few_resolved rankedLength ranked q qd rest : forall us done,
  keepResolved done = keepResolved ranked ->
  Forall (fun b => unresolved b = true) us ->
  (RANK_PER_RUN c <= length (done ++ us))%nat ->
  (length (done ++ us) < RANK_PER_DAY c)%nat ->
  unresolved q = false -> queueDate q = Some qd ->
  (0 < length (keepResolved ranked) < RANK_PER_RUN c)%nat ->
  Forall (fun b => queueDate b = None /\
                   exists tb, rankDate b = Some tb /\
                              roundMinutes c (Z.max qd 0) true
                              <= roundMinutes c tb true)
         (keepResolved ranked) ->
  projectFrom c localTZA rankedLength done (us ++ q :: rest) = None.
Proof.
  induction us as [|u us IH]; intros done Hkeep Hus Hrun Hday Hres Hqd Hfew Hall;
    cbn [app projectFrom].
  - rewrite app_nil_r in Hrun, Hday.
    rewrite (projectAt_few_resolved done rankedLength q qd); try assumption;
      try reflexivity; try lia; now rewrite Hkeep.
  - destruct (projectAt c localTZA done rankedLength (length done) u) as [u'|] eqn:Hp;
      [|reflexivity].
    inversion Hus as [|? ? Hu Hus']; subst.
    destruct (unscheduled_fields _ _ (projectAt_unscheduled c localTZA _ _ _ _ _ Hp))
      as [_ Hu'].
    apply IH; try assumption.
    + rewrite keepResolved_app. cbn [keepResolved]. rewrite Hu', Hu.
      now rewrite app_nil_r.
    + rewrite <- app_assoc. cbn [app]. rewrite !length_app in *. cbn [length] in *. lia.
    + rewrite <- app_assoc. cbn [app]. rewrite !length_app in *. cbn [length] in *. lia.
Qed.

(** The per-run block also needs [RANK_PER_RUN] sets that are not unresolved
    before it once its outer test holds.  A run throws when, at an index
    from [RANK_PER_RUN] on and with fewer than [RANK_PER_DAY] sets before it,
    the first qualified set that is not unresolved has fewer than
    [RANK_PER_RUN] (but some) ranked sets that are not unresolved before it,
    each ranked in or after the interval of its queue date: the inner
    [every] reads [filteredMaps[RANK_PER_RUN - 1].rankDate] of [undefined]. *)
Theorem adjustRankDates_throws_with_few_resolved (qs rs : list loc) h
    ranked us q rest qd :
  NoDup (rs ++ qs) -> refsTo h rs ranked -> refsTo h qs (us ++ q :: rest) ->
  Forall (fun b => unresolved b = true) us ->
  (RANK_PER_RUN c <= length (ranked ++ us) < RANK_PER_DAY c)%nat ->
  unresolved q = false -> queueDate q = Some qd ->
  (0 < length (keepResolved ranked) < RANK_PER_RUN c)%nat ->
  Forall (fun b => queueDate b = None /\
                   exists tb, rankDate b = Some tb /\
                              roundMinutes c (Z.max qd 0) true
                              <= roundMinutes c tb true)
         (keepResolved ranked) ->
  (adjustRankDates c localTZA qs rs 0 h).1 = None.
Proof.
  intros Hnd Hr Hq Hus [Hrun Hday] Hres Hqd Hfew Hall. apply returned_None.
  pose proof (adjustRankDates_pure c localTZA qs rs h ranked _ Hnd Hr Hq) as Hpure.
  rewrite (projectFrom_few_resolved _ ranked q qd rest us ranked) in Hpure;
    auto.
Qed.

End FewResolvedSets.

Lemma adjustRankDates_throws_with_few_resolved_witness :
  (adjustRankDates specConstants utc [1; 2; 3]%nat [0%nat] 0 oneRankedHeap).1 = None.
Proof.
  apply (adjustRankDates_throws_with_few_resolved specConstants utc
           [1; 2; 3]%nat [0%nat] oneRankedHeap
           [ scheduleOf 100 None (Some (gridTime + 23 * 60000)) false ]
           [ scheduleOf 101 (Some (gridTime + 1 * 60000)) None true;
             scheduleOf 102 (Some (gridTime + 2 * 60000)) None true ]
           (scheduleOf 103 (Some (gridTime + 5 * 60000)) None false) []
           (gridTime + 5 * 60000)).
  - apply NoDup_ListNoDup. repeat constructor; cbn; intuition lia.
  - repeat constructor.
  - repeat constructor.
  - repeat constructor.
  - cbn. lia.
  - reflexivity.
  - reflexivity.
  - cbn. lia.
  - repeat constructor. eexists. split; [reflexivity|]. vm_compute. discriminate.
Defined.

Lemma adjustRankDates_onGrid_witness :
  exists qualified',
    refsTo (adjustRankDates specConstants utc [3; 4]%nat [0; 1; 2]%nat 0
              overflowHeap).2 [3; 4]%nat qualified' /\
    Forall (fun b => exists t, rankDate b = Some t /\
                               (RANK_INTERVAL specConstants * MINUTE specConstants | t))
           qualified'.
Proof.
  apply (adjustRankDates_onGrid specConstants utc eq_refl) with
    (rs := [0; 1; 2]%nat) (h := overflowHeap)
    (ranked := overflowRanked) (qualified := overflowQualified).
  - cbn. lia.
  - apply NoDup_ListNoDup. repeat constructor; cbn; intuition lia.
  - repeat constructor.
  - repeat constructor.
  - vm_compute. reflexivity.
Defined.

Lemma adjustRankDates_in_queue_order_witness :
  exists qualified',
    refsTo (adjustRankDates specConstants utc [3; 4]%nat [0; 1; 2]%nat 0
              overflowHeap).2 [3; 4]%nat qualified' /\
    forall i j a b ta tb,
      (i < j)%nat -> qualified' !! i = Some a -> qualified' !! j = Some b ->
      unresolved a = false -> unresolved b = false ->
      rankDate a = Some ta -> rankDate b = Some tb -> ta <= tb.
Proof.
  apply (adjustRankDates_in_queue_order specConstants utc eq_refl) with
    (rs := [0; 1; 2]%nat) (h := overflowHeap)
    (ranked := overflowRanked) (qualified := overflowQualified).
  - cbn. lia.
  - cbn. lia.
  - apply NoDup_ListNoDup. repeat constructor; cbn; intuition lia.
  - repeat constructor.
  - repeat constructor.
  - repeat constructor. cbn. lia.
  - vm_compute. reflexivity.
Defined.

Lemma adjustRankDates_from_queue_interval_witness :
  exists b qd e t,
    (adjustRankDates specConstants utc [2; 3]%nat [0; 1]%nat 0 pastQueueHeap).2
      !! 3%nat = Some b /\
    queueDate b = Some qd /\ rankDateEarly b = Some e /\ rankDate b = Some t /\
    roundMinutes specConstants qd true <= e <= t.
Proof.
  apply (adjustRankDates_from_queue_interval specConstants utc eq_refl) with
    (qs := [2; 3]%nat) (rs := [0; 1]%nat) (h := pastQueueHeap)
    (ranked := [ scheduleOf 100 None (Some (gridTime - 37 * 60000)) false;
                 scheduleOf 101 None (Some (gridTime + 23 * 60000)) false ])
    (qualified := [ scheduleOf 102 (Some (gridTime - 65 * 60000)) None false;
                    scheduleOf 103 (Some (gridTime - 59 * 60000)) None false ]).
  - cbn. lia.
  - apply NoDup_ListNoDup. repeat constructor; cbn; intuition lia.
  - repeat constructor.
  - repeat constructor.
  - vm_compute. reflexivity.
  - right. left.
Defined.

Lemma adjustRankDates_daily_limit_witness :
  exists qualified',
    refsTo (adjustRankDates specConstants utc [8%nat] (seq 0 8) 0 dailyHeap).2
           [8%nat] qualified' /\
    forall k b m tm,
      qualified' !! k = Some b ->
      rev (keepResolved (dailyRanked ++ take k qualified'))
        !! (RANK_PER_DAY specConstants - 1)%nat = Some m ->
      rankDate m = Some tm ->
      exists t, rankDate b = Some t /\
                roundMinutes specConstants tm true + DAY specConstants <= t.
Proof.
  apply (adjustRankDates_daily_limit specConstants utc eq_refl) with
    (rs := seq 0 8) (h := dailyHeap) (qualified := dailyQualified).
  - cbn. lia.
  - cbn. lia.
  - exists 72. reflexivity.
  - apply NoDup_ListNoDup. repeat constructor; cbn; intuition lia.
  - repeat constructor.
  - repeat constructor.
  - vm_compute. reflexivity.
Defined.

Lemma adjustRankDates_idempotent_witness :
  adjustRankDates specConstants utc [3; 4]%nat [0; 1; 2]%nat 1
    (adjustRankDates specConstants utc [3; 4]%nat [0; 1; 2]%nat 0 overflowHeap).2
  = (Some tt,
     (adjustRankDates specConstants utc [3; 4]%nat [0; 1; 2]%nat 0 overflowHeap).2).
Proof.
  apply (adjustRankDates_idempotent specConstants utc) with
    (h := overflowHeap) (ranked := overflowRanked) (qualified := overflowQualified).
  - apply NoDup_ListNoDup. repeat constructor; cbn; intuition lia.
  - repeat constructor.
  - repeat constructor.
  - vm_compute. reflexivity.
Defined.

(** ** The early-probability pass and the whole projector *)

Lemma reestimated_refl b : reestimated b b.
Proof. repeat split; auto. Qed.

Lemma reestimated_trans b1 b2 b3 :
  reestimated b1 b2 -> reestimated b2 b3 -> reestimated b1 b3.
Proof.
  intros (U1 & R1 & E1 & N1 & S1) (U2 & R2 & E2 & N2 & S2).
  repeat split; try congruence.
  - auto.
  - intros H. rewrite S2 by congruence. auto.
Qed.


Section SecondPass.
Context (c : Constants) (localTZA : Z -> Z).

Lemma recalcSet_reestimated rankDates b b' :
  recalcSet c localTZA rankDates b = Some b' -> reestimated b b'.
Proof.
  unfold recalcSet.
  destruct (rankDateEarly b) as [early|] eqn:Ee; [|discriminate].
  destruct (probability b) as [p|] eqn:Ep.
  - destruct (rankDate b) as [t|] eqn:Et; [|discriminate].
    destruct (early =? t) eqn:Eq; intros [= <-].
    + apply reestimated_refl.
    + repeat split; cbn; try congruence.
      intros Heq. rewrite Ee, Et in Heq. injection Heq as ->.
      rewrite Z.eqb_refl in Eq. discriminate.
  - intros [= <-]. apply reestimated_refl.
Qed.

Lemma forEach_recalcProbability_reestimated rankDates refs : forall h h',
  forEach (recalcProbability c localTZA rankDates) refs h = (Some tt, h') ->
  reestimatedHeap h h'.
Proof.
  induction refs as [|l0 rest IH]; intros h h' H; cbn [forEach] in H.
  - injection H as <-. intros l b E. exists b. split; [exact E | apply reestimated_refl].
  - unfold bind in H. rewrite recalcProbability_pure in H.
    destruct (h !! l0) as [b0|] eqn:E0; [|discriminate].
    destruct (recalcSet c localTZA rankDates b0) as [b0'|] eqn:R0; [|discriminate].
    specialize (IH _ _ H). intros l b E.
    destruct (decide (l0 = l)) as [<-|Hne].
    + rewrite E0 in E. injection E as <-.
      destruct (IH l0 b0' (lookup_insert_eq _ _ _)) as (b' & E' & Hr).
      exists b'. split; [exact E'|].
      eapply reestimated_trans; [eapply recalcSet_reestimated, R0 | exact Hr].
    + apply IH. now rewrite lookup_insert_ne.
Qed.

Lemma countRankDate_reads rankDates l h r h' :
  countRankDate c rankDates l h = (r, h') -> h' = h.
Proof.
  unfold countRankDate, bind, deref, getTime, ret, throw.
  destruct (h !! l) as [b|]; [|now intros [= _ <-]].
  destruct (SPLIT c <? _)%float.
  - destruct (rankDateEarly b); now intros [= _ <-].
  - destruct (rankDate b); now intros [= _ <-].
Qed.

(** The first pass only reads. *)
Lemma countRankDates_reads refs : forall rankDates h r h',
  countRankDates c rankDates refs h = (r, h') -> h' = h.
Proof.
  induction refs as [|l0 rest IH]; intros rankDates h r h' H;
    cbn [countRankDates] in H.
  - now injection H as _ <-.
  - unfold bind at 1 in H.
    destruct (countRankDate c rankDates l0 h) as [[r0|] h0] eqn:E0;
      apply countRankDate_reads in E0; subst h0.
    + eapply IH, H.
    + now injection H as _ <-.
Qed.

Lemma calcEarlyProbability_reestimated (qualifiedMaps : list (list loc)) h h' :
  calcEarlyProbability c localTZA qualifiedMaps h = (Some tt, h') ->
  reestimatedHeap h h'.
Proof.
  unfold calcEarlyProbability, bind. intros H.
  destruct (countRankDates c ∅ (concat qualifiedMaps) h) as [[rankDates|] h0] eqn:E0;
    [|discriminate].
  apply countRankDates_reads in E0. subst h0.
  exact (forEach_recalcProbability_reestimated _ _ _ _ H).
Qed.

(** [calcEarlyProbability] never moves a date: when it returns, every object
    has the [rankDate] and [rankDateEarly] it had, a set without a
    probability is still without one, and a set whose early time is its rank
    time keeps its probability (so the 0 that the per-run block assigns
    stays). *)
Theorem calcEarlyProbability_keeps_dates (qualifiedMaps : list (list loc)) h h' :
  calcEarlyProbability c localTZA qualifiedMaps h = (Some tt, h') ->
  forall l b, h !! l = Some b ->
    exists b', h' !! l = Some b' /\
      unscheduled b' = unscheduled b /\
      rankDate b' = rankDate b /\ rankDateEarly b' = rankDateEarly b /\
      (probability b = None -> probability b' = None) /\
      (rankDateEarly b = rankDate b -> probability b' = probability b).
Proof. exact (calcEarlyProbability_reestimated qualifiedMaps h h'). Qed.

End SecondPass.


Lemma refsTo_exists h ls :
  (forall l, l ∈ ls -> is_Some (h !! l)) -> exists bs, refsTo h ls bs.
Proof.
  induction ls as [|l ls IH]; intros H.
  - exists []. constructor.
  - destruct (H l ltac:(left)) as [b E].
    destruct IH as [bs Hbs]; [intros l' Hl'; apply H; now right|].
    exists (b :: bs). now constructor.
Qed.

Lemma refsTo_Forall (P : BeatmapSet -> Prop) h ls bs :
  refsTo h ls bs -> Forall P bs ->
  forall l, l ∈ ls -> exists b, h !! l = Some b /\ P b.
Proof.
  intros H. induction H as [|l0 b ls' bs' E H IH]; intros HP l Hl.
  - inversion Hl.
  - inversion HP; subst. inversion Hl; subst; eauto.
Qed.

Section AllModes.
Context (c : Constants) (localTZA : Z -> Z).
Hypothesis Hint : 0 < RANK_INTERVAL c * MINUTE c.
Hypothesis Hrun : (1 <= RANK_PER_RUN c)%nat.

Lemma projectAt_projected before rankedLength i q q' :
  projectAt c localTZA before rankedLength i q = Some q' -> projected c q'.
Proof using Hint Hrun.
  intros Hp.
  destruct (projectAt_earlyBeforeRank c localTZA Hint _ _ _ _ _ Hp)
    as (e & t & Ee & Et & Hle).
  destruct (projectAt_onGrid c localTZA Hint Hrun _ _ _ _ _ Hp) as (t' & Et' & Hg).
  exists e, t. repeat split; try assumption.
  rewrite Et in Et'. injection Et' as <-.
  unfold onGrid, roundMinutes in Hg. exists (t / (RANK_INTERVAL c * MINUTE c)). lia.
Qed.

(** One mode's run leaves its qualified sets projected and every other
    object as it was. *)
Lemma adjustRankDates_projects (qs rs : list loc) h h' :
  NoDup (rs ++ qs) -> (forall l, l ∈ rs ++ qs -> is_Some (h !! l)) ->
  adjustRankDates c localTZA qs rs 0 h = (Some tt, h') ->
  (forall l, l ∈ qs -> exists b, h' !! l = Some b /\ projected c b) /\
  (forall l, l ∉ qs -> h' !! l = h !! l).
Proof using Hint Hrun.
  intros Hnd Halloc Hret.
  destruct (refsTo_exists h (rs ++ qs) Halloc) as [all Hall].
  apply Forall2_app_inv_l in Hall as (ranked & qualified & Hr & Hq & ->).
  destruct (adjustRankDates_returned c localTZA qs rs h h' ranked qualified
              Hnd Hr Hq Hret) as (qualified' & Hp & _ & Hq').
  split.
  - destruct (projectFrom_each c localTZA (projected c) (length ranked)
                (fun before => projectAt_projected before (length ranked))
                _ _ _ Hp) as (todo' & E & HF).
    apply app_inv_head in E. subst todo'.
    exact (refsTo_Forall _ _ _ _ Hq' HF).
  - intros l Hl.
    eapply framed_unchanged;
      [exact (writesOnly_adjustRankDates c localTZA qs rs 0 h _ _ Hret) | exact Hl].
Qed.

Section Modes.
Context (qualifiedMaps rankedMaps : list (list loc)).
Hypothesis Hdistinct :
  forall m qs rs, qualifiedMaps !! m = Some qs -> rankedMaps !! m = Some rs ->
                  NoDup (rs ++ qs).


Lemma forEach_modes modes : forall h h',
  allocated qualifiedMaps rankedMaps h ->
  forEach (fun mode =>
             let! qs := arrayAt qualifiedMaps mode in
             let! rs := arrayAt rankedMaps mode in
             adjustRankDates c localTZA qs rs 0) modes h = (Some tt, h') ->
  allocated qualifiedMaps rankedMaps h' /\
  (forall l b, h !! l = Some b -> projected c b ->
               exists b', h' !! l = Some b' /\ projected c b') /\
  (forall m qs l, m ∈ modes -> qualifiedMaps !! m = Some qs -> l ∈ qs ->
                  exists b, h' !! l = Some b /\ projected c b).
Proof using Hint Hrun Hdistinct.
  induction modes as [|m ms IH]; intros h h' Halloc H; cbn [forEach] in H.
  - injection H as <-. split; [exact Halloc|]. split; [eauto|].
    intros m qs l Hm. inversion Hm.
  - unfold bind at 1 in H. unfold bind at 1, arrayAt at 1 in H.
    destruct (qualifiedMaps !! m) as [qs|] eqn:Eq; [|discriminate].
    unfold ret at 1 in H. unfold bind at 1, arrayAt at 1 in H.
    destruct (rankedMaps !! m) as [rs|] eqn:Er; [|discriminate].
    unfold ret at 1 in H.
    destruct (adjustRankDates c localTZA qs rs 0 h) as [[[]|] h1] eqn:E1;
      [|discriminate].
    assert (Hsub : forall l, l ∈ rs ++ qs ->
                             l ∈ concat rankedMaps ++ concat qualifiedMaps).
    { intros l Hl. apply elem_of_app in Hl as [Hl|Hl]; apply elem_of_app;
        [left | right]; apply list_elem_of_In, in_concat.
      - exists rs. split; [apply list_elem_of_In, list_elem_of_lookup; eauto
                          | now apply list_elem_of_In].
      - exists qs. split; [apply list_elem_of_In, list_elem_of_lookup; eauto
                          | now apply list_elem_of_In]. }
    destruct (adjustRankDates_projects qs rs h h1 (Hdistinct m qs rs Eq Er)
                (fun l Hl => Halloc l (Hsub l Hl)) E1) as (Hest & Hframe).
    assert (Hstep : forall l b, h !! l = Some b -> projected c b ->
                                exists b', h1 !! l = Some b' /\ projected c b').
    { intros l b E Hb. destruct (decide (l ∈ qs)) as [Hl|Hl].
      - apply Hest, Hl.
      - exists b. split; [rewrite Hframe by exact Hl; exact E | exact Hb]. }
    assert (Halloc1 : allocated qualifiedMaps rankedMaps h1).
    { intros l Hl. destruct (decide (l ∈ qs)) as [Hq|Hq].
      - destruct (Hest l Hq) as (b & -> & _). eauto.
      - rewrite Hframe by exact Hq. apply Halloc, Hl. }
    destruct (IH h1 h' Halloc1 H) as (Halloc' & Hkeep & Hms).
    split; [exact Halloc'|]. split.
    + intros l b E Hb. destruct (Hstep l b E Hb) as (b1 & E1' & Hb1).
      eapply Hkeep; eauto.
    + intros m' qs' l Hm' Eq' Hl. inversion Hm'; subst.
      * rewrite Eq in Eq'. injection Eq' as <-.
        destruct (Hest l Hl) as (b1 & E1' & Hb1). eapply Hkeep; eauto.
      * eapply Hms; eauto.
Qed.

Lemma adjustAllRankDates_projected h h' :
  allocated qualifiedMaps rankedMaps h ->
  adjustAllRankDates c localTZA qualifiedMaps rankedMaps h = (Some tt, h') ->
  forall m qs l, (m < 4)%nat -> qualifiedMaps !! m = Some qs -> l ∈ qs ->
    exists b, h' !! l = Some b /\ projected c b.
Proof using Hint Hrun Hdistinct.
  intros Halloc H m qs l Hm Eq Hl. unfold adjustAllRankDates in H.
  unfold bind at 1 in H.
  match type of H with
  | context [forEach ?f (seq 0 4) h] =>
      destruct (forEach f (seq 0 4) h) as [[[]|] h1] eqn:E1; [|discriminate]
  end.
  destruct (forEach_modes _ _ _ Halloc E1) as (_ & _ & Hms).
  destruct (Hms m qs l) as (b1 & Eb1 & (e & t & Ee & Et & Hle & Hg)).
  { apply list_elem_of_In, in_seq. lia. }
  { exact Eq. }
  { exact Hl. }
  destruct (calcEarlyProbability_reestimated c localTZA _ _ _ H l b1 Eb1)
    as (b' & Eb' & _ & Hr & He & _).
  exists b'. split; [exact Eb'|]. exists e, t. repeat split; try assumption; congruence.
Qed.

(** When [adjustAllRankDates] returns, every qualified set of the four
    modes has both dates, the early one not after the rank date, and the rank
    date on the interval grid. *)
Theorem adjustAllRankDates_projects h h' :
  allocated qualifiedMaps rankedMaps h ->
  adjustAllRankDates c localTZA qualifiedMaps rankedMaps h = (Some tt, h') ->
  forall m qs l, (m < 4)%nat -> qualifiedMaps !! m = Some qs -> l ∈ qs ->
    exists b e t,
      h' !! l = Some b /\ rankDateEarly b = Some e /\ rankDate b = Some t /\
      e <= t /\ (RANK_INTERVAL c * MINUTE c | t).
Proof using Hint Hrun Hdistinct.
  intros Halloc H m qs l Hm Eq Hl.
  destruct (adjustAllRankDates_projected h h' Halloc H m qs l Hm Eq Hl)
    as (b & Eb & e & t & Ee & Et & Hle & Hg).
  exists b, e, t. auto.
Qed.

End Modes.
End AllModes.



Lemma tableTotal_insert rankDates key counts :
  tableTotal (<[key := counts]> rankDates)
  = reduceSum counts + tableTotal rankDates
    - from_option reduceSum 0 (rankDates !! key).
Proof.
  assert (Hfresh : forall (m : gmap Z (list Z)) x, m !! key = None ->
            tableTotal (<[key := x]> m) = reduceSum x + tableTotal m).
  { intros m x Hm. unfold tableTotal.
    rewrite map_fold_insert_L; [reflexivity | intros; lia | exact Hm]. }
  destruct (rankDates !! key) as [old|] eqn:E; cbn [from_option].
  - rewrite <- (insert_delete_eq rankDates).
    rewrite <- (insert_delete_id rankDates key old E) at 2.
    rewrite !Hfresh by apply lookup_delete_eq. lia.
  - rewrite Hfresh by exact E. lia.
Qed.

Lemma fourCounts_bump m counts :
  fourCounts counts ->
  fourCounts (alter (Z.add 1) (modeIndex m) counts) /\
  reduceSum (alter (Z.add 1) (modeIndex m) counts) = reduceSum counts + 1.
Proof.
  intros [Hlen Hpos].
  destruct counts as [|a [|b [|d [|e [|]]]]]; try discriminate.
  repeat match goal with H : Forall _ (_ :: _) |- _ =>
    apply List.Forall_cons_iff in H as [? H] end.
  unfold reduceSum.
  destruct m; cbn; (split; [split; [reflexivity | repeat constructor; lia] | lia]).
Qed.

Lemma otherModesOf_three m counts :
  length counts = 4%nat -> exists a b d, otherModesOf m counts = [a; b; d].
Proof.
  intros Hlen. destruct counts as [|a [|b [|d [|e [|]]]]]; try discriminate.
  destruct m; cbn; eauto.
Qed.

Section FirstPass.
Context (c : Constants).

Lemma countRankDate_table rankDates l h r h' :
  countRankDate c rankDates l h = (Some r, h') ->
  (forall key counts, rankDates !! key = Some counts -> fourCounts counts) ->
  (forall key counts, r !! key = Some counts -> fourCounts counts) /\
  tableTotal r = tableTotal rankDates + 1.
Proof.
  intros H Hshape.
  assert (Hstep : forall key b,
            r = <[key := alter (Z.add 1) (modeIndex (mode b))
                           (from_option (fun x => x) [0; 0; 0; 0]
                                        (rankDates !! key))]> rankDates ->
            (forall key counts, r !! key = Some counts -> fourCounts counts) /\
            tableTotal r = tableTotal rankDates + 1).
  { intros key b ->.
    assert (Hold : fourCounts (from_option (fun x => x) [0; 0; 0; 0]
                                 (rankDates !! key))).
    { destruct (rankDates !! key) as [old|] eqn:E; cbn [from_option].
      - eapply Hshape, E.
      - split; [reflexivity | repeat constructor; lia]. }
    destruct (fourCounts_bump (mode b) _ Hold) as [Hnew Hsum].
    split.
    - intros k counts. destruct (decide (key = k)) as [<-|Hne].
      + rewrite lookup_insert_eq. now intros [= <-].
      + rewrite lookup_insert_ne by exact Hne. apply Hshape.
    - rewrite tableTotal_insert, Hsum.
      destruct (rankDates !! key); cbn [from_option]; unfold reduceSum; cbn; lia. }
  revert H. unfold countRankDate, bind, deref, getTime, ret, throw.
  destruct (h !! l) as [b|]; [|discriminate].
  destruct (SPLIT c <? _)%float.
  - destruct (rankDateEarly b); [|discriminate]. intros [= <- _]. eapply Hstep. reflexivity.
  - destruct (rankDate b); [|discriminate]. intros [= <- _]. eapply Hstep. reflexivity.
Qed.

Lemma countRankDates_table refs : forall rankDates h r h',
  countRankDates c rankDates refs h = (Some r, h') ->
  (forall key counts, rankDates !! key = Some counts -> fourCounts counts) ->
  (forall key counts, r !! key = Some counts -> fourCounts counts) /\
  tableTotal r = tableTotal rankDates + Z.of_nat (length refs).
Proof.
  induction refs as [|l0 rest IH]; intros rankDates h r h' H Hshape;
    cbn [countRankDates] in H.
  - injection H as <- _. split; [exact Hshape | cbn; lia].
  - unfold bind at 1 in H.
    destruct (countRankDate c rankDates l0 h) as [[r0|] h0] eqn:E0; [|discriminate].
    destruct (countRankDate_table _ _ _ _ _ E0 Hshape) as [Hshape0 Htotal0].
    destruct (IH _ _ _ _ H Hshape0) as [Hshape1 Htotal1].
    split; [exact Hshape1|]. cbn [length]. lia.
Qed.

(** The table that the first loop of [calcEarlyProbability] builds counts
    every set once, and each of its entries holds four counts that are not
    negative; so what the second loop hands to [probabilityAfter] as
    [otherModes] is absent or is exactly three counts. *)
Theorem countRankDates_counts_each_set (refs : list loc) h rankDates h' :
  countRankDates c ∅ refs h = (Some rankDates, h') ->
  tableTotal rankDates = Z.of_nat (length refs) /\
  (forall key counts, rankDates !! key = Some counts ->
     length counts = 4%nat /\ Forall (Z.le 0) counts) /\
  (forall key m, callShape (otherModesOf m <$> rankDates !! key)).
Proof.
  intros H.
  destruct (countRankDates_table refs ∅ h rankDates h' H) as [Hshape Htotal].
  { intros key counts E. rewrite lookup_empty in E. discriminate. }
  split; [|split].
  - rewrite Htotal. unfold tableTotal. now rewrite map_fold_empty.
  - exact Hshape.
  - intros key m. destruct (rankDates !! key) as [counts|] eqn:E; [|now left].
    right. destruct (Hshape key counts E) as [Hlen _].
    destruct (otherModesOf_three m counts Hlen) as (a & b & d & E3).
    exists a, b, d. cbn. now rewrite E3.
Qed.

End FirstPass.

Lemma calcEarlyProbability_keeps_dates_witness :
  exists b',
    (calcEarlyProbability specConstants utc [[0%nat]; []; []; []] lateHeap).2
      !! 0%nat = Some b' /\
    unscheduled b' = unscheduled lateSet /\
    rankDate b' = rankDate lateSet /\ rankDateEarly b' = rankDateEarly lateSet /\
    (probability lateSet = None -> probability b' = None) /\
    (rankDateEarly lateSet = rankDate lateSet -> probability b' = probability lateSet).
Proof.
  apply (calcEarlyProbability_keeps_dates specConstants utc
           [[0%nat]; []; []; []] lateHeap).
  - vm_compute. reflexivity.
  - reflexivity.
Defined.

Lemma adjustAllRankDates_projects_witness :
  exists b e t,
    (adjustAllRankDates specConstants utc [[3; 4]%nat; []; []; []]
       [[0; 1; 2]%nat; []; []; []] overflowHeap).2 !! 4%nat = Some b /\
    rankDateEarly b = Some e /\ rankDate b = Some t /\ e <= t /\
    (RANK_INTERVAL specConstants * MINUTE specConstants | t).
Proof.
  apply (adjustAllRankDates_projects specConstants utc eq_refl) with
    (qualifiedMaps := [[3; 4]%nat; []; []; []])
    (rankedMaps := [[0; 1; 2]%nat; []; []; []]) (h := overflowHeap)
    (m := 0%nat) (qs := [3; 4]%nat).
  - cbn. lia.
  - intros [|[|[|[|m]]]] qs rs; cbn; intros [= <-] [= <-];
      apply NoDup_ListNoDup; repeat constructor; cbn; intuition lia.
  - intros l Hl. cbn in Hl.
    repeat (apply elem_of_cons in Hl as [->|Hl]; [eexists; reflexivity|]).
    inversion Hl.
  - vm_compute. reflexivity.
  - lia.
  - reflexivity.
  - right. left.
Defined.

Lemma countRankDates_counts_each_set_witness :
  exists rankDates,
    (countRankDates specConstants ∅ [0; 0]%nat lateHeap).1 = Some rankDates /\
    tableTotal rankDates = 2 /\
    (forall key counts, rankDates !! key = Some counts ->
       length counts = 4%nat /\ Forall (Z.le 0) counts) /\
    (forall key m, callShape (otherModesOf m <$> rankDates !! key)).
Proof.
  eexists. split; [vm_compute; reflexivity|].
  apply (countRankDates_counts_each_set specConstants [0; 0]%nat lateHeap _ lateHeap).
  vm_compute. reflexivity.
Defined.

(** ** Rounding, the interval offset and the queue date *)

Section RoundingBracket.
Context (c : Constants).
Hypothesis Hint : 0 < RANK_INTERVAL c * MINUTE c.

Lemma onGrid_divide t : onGrid c t <-> (RANK_INTERVAL c * MINUTE c | t).
Proof using Hint.
  unfold onGrid, roundMinutes. split.
  - intros H. exists (t / (RANK_INTERVAL c * MINUTE c)). lia.
  - intros [k ->]. rewrite Z.div_mul by lia. reflexivity.
Qed.

(** [roundMinutes] brackets a time between two neighbouring boundaries of the
    grid: rounding down gives the last boundary at or before it, rounding up
    the first at or after it, and the two differ by one interval unless the
    time is itself a boundary. *)
Theorem roundMinutes_bracket (t : Z) :
  let interval := RANK_INTERVAL c * MINUTE c in
  (interval | roundMinutes c t true) /\
  (interval | roundMinutes c t false) /\
  roundMinutes c t true <= t < roundMinutes c t true + interval /\
  roundMinutes c t false - interval < t <= roundMinutes c t false /\
  roundMinutes c t false
  = (if t mod interval =? 0 then roundMinutes c t true
     else roundMinutes c t true + interval).
Proof using Hint.
  cbv zeta. set (I := RANK_INTERVAL c * MINUTE c) in *.
  assert (Hd : forall x, I * (x / I) <= x < I * (x / I) + I).
  { intros x. pose proof (Z.mul_div_le x I Hint).
    pose proof (Z.mul_succ_div_gt x I Hint). lia. }
  unfold roundMinutes. fold I.
  split; [exists (t / I); lia|].
  split; [exists (- (- t / I)); lia|].
  pose proof (Hd t) as H1. pose proof (Hd (- t)) as H2.
  split; [lia|]. split; [lia|].
  pose proof (Z.div_mod t I ltac:(lia)) as Hm.
  destruct (t mod I =? 0) eqn:E0.
  - apply Z.eqb_eq in E0. rewrite E0, Z.add_0_r in Hm.
    assert (Hn : - t = - (t / I) * I) by lia.
    rewrite Hn, Z.div_mul by lia. lia.
  - apply Z.eqb_neq in E0.
    pose proof (Z.mod_pos_bound t I Hint).
    assert (E : - t / I = - (t / I) - 1).
    { symmetry. apply (Z.div_unique (- t) I _ (I - t mod I)); lia. }
    rewrite E. lia.
Qed.

End RoundingBracket.

(** With the twenty-minute interval of the literal in [intervalTimeDelta], on
    a host whose offset from UTC is a whole number of minutes,
    [intervalTimeDelta(d)] is the number of whole seconds from the boundary
    [roundMinutes(d, true)] to [d], so it lies between 0 and 1199. *)
Theorem intervalTimeDelta_since_boundary (c : Constants) (localTZA : Z -> Z) (d : Z) :
  RANK_INTERVAL c = 20 -> MINUTE c = 60000 -> (60000 | localTZA d) ->
  intervalTimeDelta localTZA d = (d - roundMinutes c d true) / 1000 /\
  0 <= intervalTimeDelta localTZA d < 1200.
Proof.
  intros HI HM Htz. rewrite (intervalTimeDelta_literal localTZA d Htz).
  unfold intervalTimeDeltaSpec, roundMinutes, getUTCMinutes, getUTCSeconds.
  rewrite HI, HM. change (20 * 60000) with 1200000.
  Z.to_euclidean_division_equations. lia.
Qed.

Lemma intervalTimeDelta_since_boundary_witness :
  intervalTimeDelta utc (gridTime + 754321)
  = (gridTime + 754321 - roundMinutes specConstants (gridTime + 754321) true) / 1000 /\
  0 <= intervalTimeDelta utc (gridTime + 754321) < 1200.
Proof.
  apply (intervalTimeDelta_since_boundary specConstants utc).
  - reflexivity.
  - reflexivity.
  - exists 0. reflexivity.
Defined.

(** [sameIds] compares its arguments as sets of equal size: when the first
    has no repeated id, it holds exactly when the second is a rearrangement
    of the first. *)
Theorem sameIds_NoDup (a b : list Z) :
  NoDup a -> sameIds a b = true <-> a ≡ₚ b.
Proof.
  intros Hnd. split.
  - unfold sameIds. intros H. apply andb_true_iff in H as [Hlen Hall].
    apply Nat.eqb_eq in Hlen. apply submseteq_length_Permutation; [|lia].
    apply NoDup_submseteq; [exact Hnd|]. intros x Hx.
    rewrite forallb_forall in Hall. apply list_elem_of_In, hasId_In, Hall.
    now apply list_elem_of_In.
  - apply sameIds_Permutation.
Qed.

Lemma sameIds_NoDup_witness :
  sameIds [7; 8] [8; 7] = true <-> [7; 8] ≡ₚ [8; 7].
Proof.
  apply sameIds_NoDup. apply NoDup_ListNoDup. repeat constructor; cbn; intuition lia.
Defined.

(** With a repeated id the comparison is one-sided. *)
Lemma sameIds_repeated : sameIds [1; 1] [1; 2] = true /\ sameIds [1; 2] [1; 1] = false.
Proof. split; reflexivity. Qed.

Section QueueDateBounds.
Context (c : Constants).

(** Events other than [qualify] and [rank] leave [queuedAt] as it is. *)
Lemma replay_keeps_queuedAt beatmapSet (events : list MapEvent) : forall s,
  Forall (fun e => eventType e <> qualify /\ eventType e <> rank) events ->
  queuedAt (fold_left (replayEvent c beatmapSet) events s) = queuedAt s.
Proof.
  induction events as [|e es IH]; intros s Hall; cbn [fold_left]; [reflexivity|].
  inversion Hall as [|? ? [Hq Hr] Hes]; subst. rewrite IH by exact Hes.
  unfold replayEvent. destruct (eventType e); try reflexivity; contradiction.
Qed.

(** Without a [disqualify] there is no credit and no penalty to carry. *)
Lemma replay_without_disqualify beatmapSet (events : list MapEvent) : forall s,
  0 <= (MINIMUM_DAYS_FOR_RANK c - 1) * DAY c ->
  Forall (fun e => eventType e <> disqualify) events ->
  lastDisqualifiedEvent s = None -> previousQueueDuration s = 0 ->
  lastDisqualifiedEvent (fold_left (replayEvent c beatmapSet) events s) = None /\
  previousQueueDuration (fold_left (replayEvent c beatmapSet) events s) = 0.
Proof.
  intros s Hmin Hall. revert s.
  induction events as [|e es IH]; intros s Hdq Hpqd; cbn [fold_left]; [auto|].
  inversion Hall as [|? ? He Hes]; subst. apply IH; [exact Hes | |].
  - unfold replayEvent, replayQualify. rewrite Hdq.
    destruct (eventType e); try assumption; try reflexivity; contradiction.
  - unfold replayEvent, replayQualify. rewrite Hdq, Hpqd.
    destruct (eventType e); try assumption; try reflexivity; contradiction.
Qed.

(** The last [disqualify] recorded is an event of the log. *)
Lemma replay_lastDisqualified beatmapSet (events : list MapEvent) : forall s dq,
  lastDisqualifiedEvent (fold_left (replayEvent c beatmapSet) events s) = Some dq ->
  lastDisqualifiedEvent s = Some dq \/ In dq events.
Proof.
  induction events as [|e es IH]; intros s dq H; cbn [fold_left] in H; [now left|].
  destruct (IH _ _ H) as [Hs | Hin]; [|right; now right].
  unfold replayEvent, replayQualify in Hs.
  destruct (eventType e); cbn in Hs; try (now left).
  - destruct (lastDisqualifiedEvent s) as [d|]; [|discriminate].
    destruct (diffsAdded _ _); cbn in Hs; now left.
  - injection Hs as <-. right. now left.
Qed.

(** A set with no [disqualify] in its log before its latest [qualify], and
    neither [qualify] nor [rank] after it, is due [MINIMUM_DAYS_FOR_RANK]
    days after that [qualify]. *)
Theorem setQueueDate_first_qualification (beatmapSet : BeatmapSet)
    (post pre : list MapEventAPI) (ev : MapEventAPI) :
  0 <= (MINIMUM_DAYS_FOR_RANK c - 1) * DAY c ->
  type ev = qualify ->
  Forall (fun e => type e <> disqualify) pre ->
  Forall (fun e => type e <> qualify /\ type e <> rank) post ->
  setQueueDate c beatmapSet (Some (post ++ ev :: pre))
  = Returned (withQueueDate
                (Some (created_at ev + MINIMUM_DAYS_FOR_RANK c * DAY c))
                beatmapSet).
Proof.
  intros Hmin Hev Hpre Hpost. unfold setQueueDate, replay.
  rewrite map_app, rev_app_distr. cbn [map rev]. rewrite <- app_assoc.
  rewrite !fold_left_app. cbn [fold_left].
  rewrite replay_keeps_queuedAt.
  2:{ apply List.Forall_forall. intros e He. apply in_rev, in_map_iff in He
        as (a & <- & Ha). rewrite List.Forall_forall in Hpost. apply Hpost, Ha. }
  destruct (replay_without_disqualify beatmapSet (rev (map toMapEvent pre))
              replayStart Hmin) as (Hdq & Hpqd); [|reflexivity|reflexivity|].
  { apply List.Forall_forall. intros e He. apply in_rev, in_map_iff in He
      as (a & <- & Ha). rewrite List.Forall_forall in Hpre. apply Hpre, Ha. }
  unfold replayEvent at 1. cbn [toMapEvent eventType]. rewrite Hev.
  unfold replayQualify. rewrite Hdq, Hpqd. cbn.
  rewrite Z.min_l by lia. unfold queueDateOf. cbn. now rewrite Z.sub_0_r.
Qed.

(** However often a set was disqualified and requalified, the credit for
    time already spent in the queue leaves at least one day to wait after
    the latest [qualify]: with the log in chronological order, the queue date
    is no earlier than a day after it. *)
Theorem setQueueDate_at_least_a_day (beatmapSet : BeatmapSet)
    (post pre : list MapEventAPI) (ev : MapEventAPI) :
  0 < DAY c -> 1 <= MINIMUM_DAYS_FOR_RANK c -> 0 <= MAXIMUM_PENALTY_DAYS c ->
  type ev = qualify ->
  Forall (fun e => created_at e <= created_at ev) pre ->
  Forall (fun e => type e <> qualify /\ type e <> rank) post ->
  exists qd,
    setQueueDate c beatmapSet (Some (post ++ ev :: pre))
    = Returned (withQueueDate (Some qd) beatmapSet) /\
    created_at ev + DAY c <= qd.
Proof.
  intros Hday Hmin Hpen Hev Hpre Hpost. unfold setQueueDate, replay.
  rewrite map_app, rev_app_distr. cbn [map rev]. rewrite <- app_assoc.
  rewrite !fold_left_app. cbn [fold_left].
  rewrite replay_keeps_queuedAt.
  2:{ apply List.Forall_forall. intros e He. apply in_rev, in_map_iff in He
        as (a & <- & Ha). rewrite List.Forall_forall in Hpost. apply Hpost, Ha. }
  eexists. split; [reflexivity|].
  set (s := fold_left (replayEvent c beatmapSet) (rev (map toMapEvent pre)) replayStart).
  assert (Hdq : forall dq, lastDisqualifiedEvent s = Some dq ->
                           time dq <= created_at ev).
  { intros dq E. destruct (replay_lastDisqualified _ _ _ _ E) as [H|H];
      [discriminate|].
    apply in_rev, in_map_iff in H as (a & <- & Ha).
    rewrite List.Forall_forall in Hpre. apply (Hpre a Ha). }
  unfold replayEvent. cbn [toMapEvent eventType]. rewrite Hev.
  unfold replayQualify, queueDateOf. cbn [time].
  assert (Hmax : 0 <= (MINIMUM_DAYS_FOR_RANK c - 1) * DAY c) by nia.
  destruct (lastDisqualifiedEvent s) as [dq|] eqn:Edq.
  - specialize (Hdq dq eq_refl).
    destruct (diffsAdded _ _); cbn; [nia|].
    assert (0 <= (created_at ev - time dq) / (DAY c * 7))
      by (apply Z.div_pos; lia).
    nia.
  - cbn. nia.
Qed.

End QueueDateBounds.

Lemma roundMinutes_bracket_witness :
  let interval := RANK_INTERVAL specConstants * MINUTE specConstants in
  (interval | roundMinutes specConstants (gridTime + 754321) true) /\
  (interval | roundMinutes specConstants (gridTime + 754321) false) /\
  roundMinutes specConstants (gridTime + 754321) true <= gridTime + 754321
    < roundMinutes specConstants (gridTime + 754321) true + interval /\
  roundMinutes specConstants (gridTime + 754321) false - interval
    < gridTime + 754321 <= roundMinutes specConstants (gridTime + 754321) false /\
  roundMinutes specConstants (gridTime + 754321) false
  = (if (gridTime + 754321) mod interval =? 0
     then roundMinutes specConstants (gridTime + 754321) true
     else roundMinutes specConstants (gridTime + 754321) true + interval).
Proof. apply (roundMinutes_bracket specConstants). reflexivity. Defined.

Lemma setQueueDate_first_qualification_witness :
  setQueueDate specConstants sampleSet (Some (s2Nominations ++ s2First :: []))
  = Returned (withQueueDate
                (Some (created_at s2First
                       + MINIMUM_DAYS_FOR_RANK specConstants * DAY specConstants))
                sampleSet).
Proof.
  apply (setQueueDate_first_qualification specConstants).
  - cbn. lia.
  - reflexivity.
  - constructor.
  - repeat constructor; discriminate.
Defined.

Lemma setQueueDate_at_least_a_day_witness :
  exists qd,
    setQueueDate specConstants sampleSet
      (Some ([] ++ s2Second :: rev s2Nominations ++ [s2Disqualify; s2First]))
    = Returned (withQueueDate (Some qd) sampleSet) /\
    created_at s2Second + DAY specConstants <= qd.
Proof.
  apply (setQueueDate_at_least_a_day specConstants).
  - reflexivity.
  - cbn. lia.
  - cbn. lia.
  - reflexivity.
  - repeat constructor; cbn; lia.
  - constructor.
Defined.

(** ** The event feed *)

Lemma mapEventFromAPI_id event mapEvent :
  mapEventFromAPI event = Some mapEvent -> Utils.id mapEvent = Api.id event.
Proof.
  unfold mapEventFromAPI.
  destruct (match Api.beatmapset event with Some i => Some i | None => _ end);
    [|discriminate].
  now intros [= <-].
Qed.

Lemma existsb_eqb_elem (x : Z) (xs : list Z) :
  existsb (Z.eqb x) xs = true <-> x ∈ xs.
Proof.
  rewrite existsb_exists. split.
  - intros (y & Hy & E). apply Z.eqb_eq in E. subst. now apply list_elem_of_In.
  - intros H. exists x. split; [now apply list_elem_of_In | apply Z.eqb_refl].
Qed.

(** What the scan of a page adds: the new events in the order of the page,
    each id once, up to the marker. *)
Lemma scanEvents_spec lastEventId events : forall ne ids,
  ids = map Utils.id ne -> NoDup ids -> (lastEventId ∉ ids) ->
  match scanEvents lastEventId events ne ids with
  | Scanned ne' ids' =>
      (lastEventId ∉ map Api.id events) /\
      exists added,
        ne' = ne ++ added /\ ids' = map Utils.id ne' /\ NoDup ids' /\
        (lastEventId ∉ ids') /\
        (map Utils.id added `sublist_of` map Api.id events) /\
        (forall i, i ∈ map Api.id events -> i ∈ ids')
  | Found ne' =>
      exists pre event post added,
        events = pre ++ event :: post /\ Api.id event = lastEventId /\
        (lastEventId ∉ map Api.id pre) /\
        ne' = ne ++ added /\ NoDup (map Utils.id ne') /\
        (lastEventId ∉ map Utils.id ne') /\
        (map Utils.id added `sublist_of` map Api.id pre) /\
        (forall i, i ∈ map Api.id pre -> i ∈ map Utils.id ne')
  | Broke => True
  end.
Proof.
  induction events as [|event rest IH]; intros ne ids Hids Hnd Hlast;
    cbn [scanEvents].
  - split; [intros H; inversion H|]. exists [].
    rewrite app_nil_r. split; [reflexivity|]. split; [exact Hids|].
    split; [exact Hnd|]. split; [exact Hlast|].
    split; [constructor|]. intros i Hi. inversion Hi.
  - destruct (Api.id event =? lastEventId) eqn:Eid.
    + apply Z.eqb_eq in Eid. exists [], event, rest, [].
      rewrite app_nil_r. subst ids.
      split; [reflexivity|]. split; [exact Eid|].
      split; [intros H; inversion H|]. split; [reflexivity|].
      split; [exact Hnd|]. split; [exact Hlast|].
      split; [constructor|]. intros i Hi. inversion Hi.
    + apply Z.eqb_neq in Eid.
      assert (Hcons : forall xs, (lastEventId ∉ map Api.id xs) ->
                                 lastEventId ∉ map Api.id (event :: xs)).
      { intros xs Hxs H. cbn in H. apply elem_of_cons in H as [H|H];
          [congruence | contradiction]. }
      destruct (existsb (Z.eqb (Api.id event)) ids) eqn:Eseen.
      * apply existsb_eqb_elem in Eseen.
        specialize (IH ne ids Hids Hnd Hlast).
        destruct (scanEvents lastEventId rest ne ids) as [ne'|ne' ids'|]; [| |exact I].
        -- destruct IH as (pre & ev & post & added & -> & Hev & Hpre & -> & Hnd'
                           & Hl' & Hsub & Hall).
           exists (event :: pre), ev, post, added.
           split; [reflexivity|]. split; [exact Hev|]. split; [now apply Hcons|].
           split; [reflexivity|]. split; [exact Hnd'|]. split; [exact Hl'|].
           split; [cbn; now apply sublist_cons|].
           cbn. intros i Hi. apply elem_of_cons in Hi as [->|Hi]; [|auto].
           rewrite map_app. apply elem_of_app. left. now subst ids.
        -- destruct IH as (Hrest & added & -> & -> & Hnd' & Hl' & Hsub & Hall).
           split; [now apply Hcons|]. exists added.
           split; [reflexivity|]. split; [reflexivity|]. split; [exact Hnd'|].
           split; [exact Hl'|]. split; [cbn; now apply sublist_cons|].
           cbn. intros i Hi. apply elem_of_cons in Hi as [->|Hi]; [|auto].
           rewrite map_app. apply elem_of_app. left. now subst ids.
      * assert (Hnew : Api.id event ∉ ids).
        { intros H. apply existsb_eqb_elem in H. congruence. }
        destruct (mapEventFromAPI event) as [mapEvent|] eqn:Emap; [|exact I].
        pose proof (mapEventFromAPI_id _ _ Emap) as Hid.
        specialize (IH (ne ++ [mapEvent]) (ids ++ [Api.id event])).
        assert (H1 : ids ++ [Api.id event] = map Utils.id (ne ++ [mapEvent])).
        { rewrite map_app. cbn. now rewrite Hid, Hids. }
        assert (H2 : NoDup (ids ++ [Api.id event])).
        { apply NoDup_app. split; [exact Hnd|]. split.
          - intros x Hx Hx'. apply list_elem_of_singleton in Hx'. now subst.
          - apply NoDup_singleton. }
        assert (H3 : lastEventId ∉ ids ++ [Api.id event]).
        { intros H. apply elem_of_app in H as [H|H]; [contradiction|].
          apply list_elem_of_singleton in H. congruence. }
        specialize (IH H1 H2 H3).
        destruct (scanEvents lastEventId rest _ _) as [ne'|ne' ids'|]; [| |exact I].
        -- destruct IH as (pre & ev & post & added & -> & Hev & Hpre & -> & Hnd'
                           & Hl' & Hsub & Hall).
           exists (event :: pre), ev, post, (mapEvent :: added).
           split; [reflexivity|]. split; [exact Hev|]. split; [now apply Hcons|].
           rewrite <- app_assoc in *. cbn [app] in *.
           split; [reflexivity|]. split; [exact Hnd'|]. split; [exact Hl'|].
           split; [cbn; rewrite Hid; now apply sublist_skip|].
           cbn. intros i Hi. apply elem_of_cons in Hi as [->|Hi]; [|auto].
           rewrite map_app. apply elem_of_app. right. cbn. rewrite Hid. left.
        -- destruct IH as (Hrest & added & -> & -> & Hnd' & Hl' & Hsub & Hall).
           split; [now apply Hcons|]. exists (mapEvent :: added).
           rewrite <- app_assoc in *. cbn [app] in *.
           split; [reflexivity|]. split; [reflexivity|]. split; [exact Hnd'|].
           split; [exact Hl'|]. split; [cbn; rewrite Hid; now apply sublist_skip|].
           cbn. intros i Hi. apply elem_of_cons in Hi as [->|Hi]; [|auto].
           rewrite map_app. apply elem_of_app. right. cbn. rewrite Hid. left.
Qed.

Lemma seenBefore_next feed n :
  (1 <= n)%nat ->
  seenBefore feed (S n) = seenBefore feed n ++ default [] (feed n).
Proof.
  intros Hn. unfold seenBefore.
  replace (S n - 1)%nat with (S (n - 1)) by lia.
  rewrite seq_S, flat_map_app. cbn [flat_map]. rewrite app_nil_r.
  now replace (1 + (n - 1))%nat with n by lia.
Qed.

Lemma pacedRequests_next k :
  pacedRequests (S k)
  = pacedRequests k
    ++ (if (1 <=? k)%nat && (k mod 31 =? 0)%nat then [Pause 60000] else [])
    ++ [Request (S k)].
Proof.
  unfold pacedRequests. rewrite seq_S, flat_map_app. cbn [flat_map].
  rewrite app_nil_r. f_equal. cbn [Nat.add].
  replace (S k - 1)%nat with k by lia.
  replace (1 <? S k)%nat with (1 <=? k)%nat
    by (destruct (1 <=? k)%nat eqn:E1, (1 <? S k)%nat eqn:E2; try reflexivity;
        [apply Nat.leb_le in E1; apply Nat.ltb_ge in E2
        | apply Nat.leb_gt in E1; apply Nat.ltb_lt in E2]; lia).
  now destruct ((1 <=? k)%nat && (k mod 31 =? 0)%nat).
Qed.

Section FeedFacts.
Context (feed : nat -> option (list Api.MapEventAPI)) (lastEventId : Z).



Lemma Scanning_start : Scanning feed lastEventId loopStart.
Proof.
  constructor; cbn; try (intros; lia); try reflexivity; try constructor;
    try apply not_elem_of_nil; try congruence;
    try (intros i Hi; inversion Hi).
Qed.

Lemma getEventsAfterFrom_new_events fuel : forall s evs newLast tr,
  Scanning feed lastEventId s ->
  getEventsAfterFrom feed fuel lastEventId s = (Some (Fulfilled (evs, newLast)), tr) ->
  exists n pre event post,
    (forall p, (1 <= p < n)%nat -> is_Some (feed p)) /\
    feed n = Some (pre ++ event :: post) /\ Api.id event = lastEventId /\
    (lastEventId ∉ map Api.id (seenBefore feed n ++ pre)) /\
    NoDup (map Utils.id evs) /\ (lastEventId ∉ map Utils.id evs) /\
    (map Utils.id (rev evs) `sublist_of` map Api.id (seenBefore feed n ++ pre)) /\
    (forall i, i ∈ map Api.id (seenBefore feed n ++ pre) -> i ∈ map Utils.id evs) /\
    (firstId feed) = Some newLast.
Proof.
  induction fuel as [|fuel IH]; intros s evs newLast tr HS H;
    cbn [getEventsAfterFrom] in H; [discriminate|].
  destruct HS as [Hp Hf Hids Hnd Hfresh Hun Hord Hall Hfirst Hset].
  destruct (feed (page s)) as [events|] eqn:Efeed; [|discriminate].
  assert (Hnl : match newLastEventId s with
                | Some i => Some i
                | None => Api.id <$> events !! 0%nat
                end = (firstId feed)).
  { rewrite Hfirst. destruct (page s =? 1)%nat eqn:E1.
    - apply Nat.eqb_eq in E1. unfold firstId. rewrite <- E1, Efeed. cbn.
      now destruct events.
    - apply Nat.eqb_neq in E1. destruct (Hset E1) as [i ->]. reflexivity. }
  rewrite Hnl in H. destruct (firstId feed) as [first|] eqn:Efirst; [|discriminate].
  pose proof (scanEvents_spec lastEventId events (newEvents s) (newEventIds s)
                Hids Hnd Hfresh) as Hscan.
  destruct (scanEvents lastEventId events (newEvents s) (newEventIds s))
    as [found|ne' ids'|]; [| |discriminate].
  - injection H as <- <- _.
    destruct Hscan as (pre & event & post & added & -> & Hev & Hpre & -> & Hnd'
                       & Hl' & Hsub & Hall').
    exists (page s), pre, event, post.
    split; [exact Hf|]. split; [exact Efeed|]. split; [exact Hev|].
    rewrite rev_involutive.
    assert (Hin : forall i, i ∈ map Utils.id (rev (newEvents s ++ added))
                            <-> i ∈ map Utils.id (newEvents s ++ added)).
    { intros i. rewrite map_rev. split; intros Hi.
      - apply list_elem_of_In, in_rev, list_elem_of_In in Hi. exact Hi.
      - apply list_elem_of_In, in_rev. rewrite rev_involutive.
        now apply list_elem_of_In. }
    split.
    { rewrite map_app. intros H. apply elem_of_app in H as [H|H]; contradiction. }
    split.
    { rewrite map_rev. apply NoDup_ListNoDup, NoDup_rev, NoDup_ListNoDup. exact Hnd'. }
    split.
    { intros H. apply Hl'. now apply Hin. }
    split; [rewrite !map_app; now apply sublist_app|].
    split; [|reflexivity].
    intros i Hi. apply Hin. rewrite map_app in Hi.
    apply elem_of_app in Hi as [Hi|Hi].
    + rewrite map_app. apply elem_of_app. left. rewrite <- Hids. now apply Hall.
    + now apply Hall'.
  - destruct Hscan as (Hclean & added & -> & -> & Hnd' & Hl' & Hsub & Hall').
    apply IH in H; [exact H|].
    constructor; cbn [page newEvents newEventIds newLastEventId].
    + lia.
    + intros p Hp'. destruct (decide (p = page s)) as [->|]; [now rewrite Efeed|].
      apply Hf. lia.
    + reflexivity.
    + exact Hnd'.
    + exact Hl'.
    + rewrite seenBefore_next, Efeed, map_app by exact Hp. cbn.
      intros H'. apply elem_of_app in H' as [H'|H']; contradiction.
    + rewrite seenBefore_next, Efeed, !map_app by exact Hp. cbn.
      now apply sublist_app.
    + rewrite seenBefore_next, Efeed, map_app by exact Hp. cbn.
      intros i Hi. apply elem_of_app in Hi as [Hi|Hi]; [|now apply Hall'].
      rewrite map_app. apply elem_of_app. left. rewrite <- Hids. now apply Hall.
    + replace (S (page s) =? 1)%nat with false
        by (symmetry; apply Nat.eqb_neq; lia).
      now rewrite Efirst.
    + intros _. rewrite Efirst. eauto.
Qed.

(** What [getEventsAfter] returns: the events of the feed ahead of the one
    with id [lastEventId], each id once, none of them [lastEventId], in the
    reverse of the order in which the feed listed them; and the id of the
    first event of the first page. *)
Theorem getEventsAfter_new_events fuel evs newLast tr :
  getEventsAfter feed fuel lastEventId = (Some (Fulfilled (evs, newLast)), tr) ->
  exists n pre event post,
    (forall p, (1 <= p < n)%nat -> is_Some (feed p)) /\
    feed n = Some (pre ++ event :: post) /\ Api.id event = lastEventId /\
    (lastEventId ∉ map Api.id (seenBefore feed n ++ pre)) /\
    NoDup (map Utils.id evs) /\ (lastEventId ∉ map Utils.id evs) /\
    (map Utils.id (rev evs) `sublist_of` map Api.id (seenBefore feed n ++ pre)) /\
    (forall i, i ∈ map Api.id (seenBefore feed n ++ pre) -> i ∈ map Utils.id evs) /\
    (firstId feed) = Some newLast.
Proof.
  intros H. eapply getEventsAfterFrom_new_events; [apply Scanning_start | exact H].
Qed.

End FeedFacts.

Section FeedRuns.
Context (feed : nat -> option (list Api.MapEventAPI)) (lastEventId : Z).


Lemma scanEvents_plain events : forall ne ids,
  (lastEventId ∉ map Api.id events) ->
  Forall (fun event => is_Some (mapEventFromAPI event)) events ->
  exists ne' ids', scanEvents lastEventId events ne ids = Scanned ne' ids'.
Proof.
  induction events as [|event rest IH]; intros ne ids Hclean Hwf;
    cbn [scanEvents]; [eauto|].
  inversion Hwf as [|? ? [m Hm] Hrest]; subst.
  assert (Hne : Api.id event <> lastEventId).
  { intros E. apply Hclean. cbn. rewrite E. left. }
  assert (Hclean' : lastEventId ∉ map Api.id rest).
  { intros H. apply Hclean. cbn. now right. }
  apply Z.eqb_neq in Hne. rewrite Hne.
  destruct (existsb _ ids); [now apply IH|].
  rewrite Hm. now apply IH.
Qed.

Lemma scanEvents_found pre event post : forall ne ids,
  Api.id event = lastEventId -> (lastEventId ∉ map Api.id pre) ->
  Forall (fun event => is_Some (mapEventFromAPI event)) pre ->
  exists ne', scanEvents lastEventId (pre ++ event :: post) ne ids = Found ne'.
Proof.
  induction pre as [|e rest IH]; intros ne ids Hev Hclean Hwf;
    cbn [app scanEvents].
  - apply Z.eqb_eq in Hev. rewrite Hev. eauto.
  - inversion Hwf as [|? ? [m Hm] Hrest]; subst.
    assert (Hne : Api.id e <> Api.id event).
    { intros E. apply Hclean. cbn. rewrite E. left. }
    assert (Hclean' : Api.id event ∉ map Api.id rest).
    { intros H. apply Hclean. cbn. now right. }
    apply Z.eqb_neq in Hne. rewrite Hne.
    destruct (existsb _ ids); [now apply IH|].
    rewrite Hm. now apply IH.
Qed.


Lemma Paced_start : Paced loopStart.
Proof. constructor; reflexivity. Qed.

Lemma Paced_request s :
  Paced s -> effects s ++ [Request (page s)] = pacedRequests (page s).
Proof.
  intros [Hp _ He]. rewrite He.
  replace (page s) with (S (page s - 1)) at 4 5 by lia.
  now rewrite pacedRequests_next, <- app_assoc.
Qed.

Lemma Paced_next s ne ids newLast :
  Paced s ->
  Paced {| page := S (page s);
           apiCalls := if (30 <? S (apiCalls s))%nat then 0%nat else S (apiCalls s);
           newEvents := ne; newEventIds := ids; newLastEventId := newLast;
           effects := if (30 <? S (apiCalls s))%nat
                      then (effects s ++ [Request (page s)]) ++ [Pause 60000]
                      else effects s ++ [Request (page s)] |}.
Proof.
  intros HP. pose proof (Paced_request s HP) as Hreq.
  destruct HP as [Hp Hc He].
  assert (Hm : (page s mod 31 = if (30 <? S (apiCalls s))%nat then 0
                                else S (apiCalls s))%nat).
  { rewrite Hc. pose proof (Nat.div_mod_eq (page s - 1) 31) as Hdiv.
    pose proof (Nat.mod_upper_bound (page s - 1) 31 ltac:(lia)) as Hlt.
    destruct (30 <? S ((page s - 1) mod 31))%nat eqn:E;
      [apply Nat.ltb_lt in E | apply Nat.ltb_ge in E].
    - assert (E1 : page s = (S ((page s - 1) / 31) * 31)%nat) by lia.
      rewrite E1. apply Nat.Div0.mod_mul.
    - symmetry. apply (Nat.mod_unique (page s) 31 ((page s - 1) / 31)); lia. }
  constructor; cbn [page apiCalls effects].
  - lia.
  - replace (S (page s) - 1)%nat with (page s) by lia. now rewrite Hm.
  - replace (S (page s) - 1)%nat with (page s) by lia. rewrite Hreq, Hm.
    replace (1 <=? page s)%nat with true by (symmetry; now apply Nat.leb_le).
    destruct (30 <? S (apiCalls s))%nat; [reflexivity|].
    cbn. now rewrite app_nil_r.
Qed.

Lemma getEventsAfterFrom_paced fuel : forall s r tr,
  Paced s ->
  getEventsAfterFrom feed fuel lastEventId s = (Some r, tr) ->
  exists n, (page s <= n)%nat /\ tr = pacedRequests n.
Proof.
  induction fuel as [|fuel IH]; intros s r tr HP H;
    cbn [getEventsAfterFrom] in H; [discriminate|].
  pose proof (Paced_request s HP) as Hreq. rewrite Hreq in H.
  destruct (feed (page s)) as [events|]; [|injection H as _ <-; eauto].
  destruct (match newLastEventId s with Some i => Some i | None => _ end)
    as [newLast|]; [|injection H as _ <-; eauto].
  destruct (scanEvents lastEventId events (newEvents s) (newEventIds s))
    as [found|ne' ids'|]; [injection H as _ <-; eauto | | injection H as _ <-; eauto].
  rewrite <- Hreq in H.
  apply IH in H; [|now apply Paced_next].
  destruct H as (n & Hn & ->). exists n. cbn in Hn. split; [lia | reflexivity].
Qed.

(** However a run ends, its requests were for the pages 1, 2, ... in turn,
    with one pause of sixty seconds after every 31st request that was
    followed by another: never 32 requests in a row. *)
Theorem getEventsAfter_paced fuel r tr :
  getEventsAfter feed fuel lastEventId = (Some r, tr) ->
  exists n, (1 <= n)%nat /\ tr = pacedRequests n.
Proof.
  intros H. apply getEventsAfterFrom_paced in H; [exact H | apply Paced_start].
Qed.

Lemma getEventsAfterFrom_running fuel : forall s,
  (1 <= page s)%nat ->
  (forall p, (page s <= p)%nat -> plainPage feed lastEventId p) ->
  (page s = 1%nat -> feed 1%nat <> Some []) ->
  (page s <> 1%nat -> is_Some (newLastEventId s)) ->
  (getEventsAfterFrom feed fuel lastEventId s).1 = None.
Proof.
  induction fuel as [|fuel IH]; intros s Hpage Hplain Hone Hlater;
    cbn [getEventsAfterFrom]; [reflexivity|].
  destruct (Hplain (page s) (le_n _)) as (events & Ef & Hclean & Hwf).
  rewrite Ef.
  assert (Hnl : is_Some (match newLastEventId s with
                         | Some i => Some i
                         | None => Api.id <$> events !! 0%nat
                         end)).
  { destruct (newLastEventId s) as [i|] eqn:E; [eauto|].
    destruct (decide (page s = 1%nat)) as [E1|E1].
    - destruct events as [|e es]; [|cbn; eauto].
      exfalso. apply (Hone E1). now rewrite <- E1.
    - destruct (Hlater E1) as [i Hi]. congruence. }
  destruct Hnl as [newLast ->].
  destruct (scanEvents_plain events (newEvents s) (newEventIds s) Hclean Hwf)
    as (ne' & ids' & ->).
  apply IH; cbn [page newLastEventId].
  - lia.
  - intros p Hp. apply Hplain. lia.
  - intros E. lia.
  - eauto.
Qed.

(** The loop has no other way out than the marker: on a feed whose pages
    all resolve and never list [lastEventId], it neither returns nor
    throws, however many rounds it is given. *)
Theorem getEventsAfter_never_gives_up :
  (forall p, (1 <= p)%nat -> plainPage feed lastEventId p) -> feed 1%nat <> Some [] ->
  forall fuel, (getEventsAfter feed fuel lastEventId).1 = None.
Proof.
  intros Hplain Hone fuel. apply getEventsAfterFrom_running; cbn.
  - lia.
  - exact Hplain.
  - intros _. exact Hone.
  - congruence.
Qed.

Lemma getEventsAfterFrom_returns n pre event post : forall k s,
  (1 <= page s)%nat -> (page s + k = n)%nat ->
  (forall p, (page s <= p < n)%nat -> plainPage feed lastEventId p) ->
  feed n = Some (pre ++ event :: post) -> Api.id event = lastEventId ->
  (lastEventId ∉ map Api.id pre) ->
  Forall (fun event => is_Some (mapEventFromAPI event)) pre ->
  (page s = 1%nat -> feed 1%nat <> Some []) ->
  (page s <> 1%nat -> is_Some (newLastEventId s)) ->
  forall fuel, (k < fuel)%nat ->
    exists evs newLast tr,
      getEventsAfterFrom feed fuel lastEventId s
      = (Some (Fulfilled (evs, newLast)), tr).
Proof.
  induction k as [|k IH];
    intros s Hpage Hk Hplain Hn Hev Hclean Hwf Hone Hlater fuel Hfuel;
    (destruct fuel as [|fuel]; [lia|]); cbn [getEventsAfterFrom].
  - rewrite Nat.add_0_r in Hk. rewrite Hk, Hn.
    assert (Hnl : is_Some (match newLastEventId s with
                           | Some i => Some i
                           | None => Api.id <$> (pre ++ event :: post) !! 0%nat
                           end)).
    { destruct (newLastEventId s) as [i|]; [eauto|]. destruct pre; cbn; eauto. }
    destruct Hnl as [newLast ->].
    destruct (scanEvents_found pre event post (newEvents s) (newEventIds s)
                Hev Hclean Hwf) as (ne' & ->).
    eauto.
  - destruct (Hplain (page s) ltac:(lia)) as (events & Ef & Hc & Hw). rewrite Ef.
    assert (Hnl : is_Some (match newLastEventId s with
                           | Some i => Some i
                           | None => Api.id <$> events !! 0%nat
                           end)).
    { destruct (newLastEventId s) as [i|] eqn:E; [eauto|].
      destruct (decide (page s = 1%nat)) as [E1|E1].
      - destruct events as [|e es]; [|cbn; eauto].
        exfalso. apply (Hone E1). now rewrite <- E1.
      - destruct (Hlater E1) as [i Hi]. congruence. }
    destruct Hnl as [newLast ->].
    destruct (scanEvents_plain events (newEvents s) (newEventIds s) Hc Hw)
      as (ne' & ids' & ->).
    apply (IH _); cbn [page newLastEventId]; try assumption; try lia;
      try (intros E; lia).
    + intros p Hp. apply Hplain. lia.
    + eauto.
Qed.

(** The loop returns as soon as the marker is listed: when page [n] is the
    first to list [lastEventId], the pages before it resolve, and the events
    ahead of the marker can be converted, [n] rounds suffice. *)
Theorem getEventsAfter_returns n pre event post fuel :
  (1 <= n <= fuel)%nat ->
  (forall p, (1 <= p < n)%nat -> plainPage feed lastEventId p) -> feed 1%nat <> Some [] ->
  feed n = Some (pre ++ event :: post) -> Api.id event = lastEventId ->
  (lastEventId ∉ map Api.id pre) ->
  Forall (fun event => is_Some (mapEventFromAPI event)) pre ->
  exists evs newLast tr,
    getEventsAfter feed fuel lastEventId = (Some (Fulfilled (evs, newLast)), tr).
Proof.
  intros Hn Hplain Hone Hfeed Hev Hclean Hwf.
  apply (getEventsAfterFrom_returns n pre event post (n - 1) loopStart);
    cbn; try assumption; try lia; try congruence.
Qed.

End FeedRuns.

Lemma getEventsAfter_new_events_witness :
  let evs := [feedMapEvent 28; feedMapEvent 29; feedMapEvent 30] in
  exists n pre event post,
    (forall p, (1 <= p < n)%nat -> is_Some (sampleFeed p)) /\
    sampleFeed n = Some (pre ++ event :: post) /\ Api.id event = 27 /\
    (27 ∉ map Api.id (seenBefore sampleFeed n ++ pre)) /\
    NoDup (map Utils.id evs) /\ (27 ∉ map Utils.id evs) /\
    (map Utils.id (rev evs) `sublist_of` map Api.id (seenBefore sampleFeed n ++ pre)) /\
    (forall i, i ∈ map Api.id (seenBefore sampleFeed n ++ pre) -> i ∈ map Utils.id evs) /\
    firstId sampleFeed = Some 30.
Proof.
  apply (getEventsAfter_new_events sampleFeed 27 5
           [feedMapEvent 28; feedMapEvent 29; feedMapEvent 30] 30
           [Request 1; Request 2; Request 3]).
  reflexivity.
Defined.

Lemma getEventsAfter_paced_witness :
  exists n, (1 <= n)%nat /\ (getEventsAfter pausedFeed 40 27).2 = pacedRequests n.
Proof.
  apply (getEventsAfter_paced pausedFeed 27 40 (Fulfilled ([feedMapEvent 30], 30))).
  vm_compute. reflexivity.
Defined.

Lemma getEventsAfter_never_gives_up_witness :
  (getEventsAfter endlessFeed 100 27).1 = None.
Proof.
  apply (getEventsAfter_never_gives_up endlessFeed 27).
  - intros p _. exists [feedEvent 30]. split; [reflexivity|]. split.
    + intros H. apply list_elem_of_singleton in H. discriminate.
    + repeat constructor. eexists. reflexivity.
  - discriminate.
Defined.

Lemma getEventsAfter_returns_witness :
  exists evs newLast tr,
    getEventsAfter sampleFeed 5 27 = (Some (Fulfilled (evs, newLast)), tr).
Proof.
  apply (getEventsAfter_returns sampleFeed 27 3 [] (feedEvent 27) [feedEvent 26]).
  - lia.
  - intros [|[|[|p]]] Hp; try lia.
    + exists [feedEvent 30; feedEvent 29]. split; [reflexivity|]. split.
      * intros H. repeat (apply elem_of_cons in H as [H|H]; [discriminate|]).
        inversion H.
      * repeat constructor; eexists; reflexivity.
    + exists [feedEvent 29; feedEvent 28]. split; [reflexivity|]. split.
      * intros H. repeat (apply elem_of_cons in H as [H|H]; [discriminate|]).
        inversion H.
      * repeat constructor; eexists; reflexivity.
  - discriminate.
  - reflexivity.
  - reflexivity.
  - intros H. inversion H.
  - constructor.
Defined.

(** ** Rows, queues and the updates to write *)

Lemma StronglySorted_filter {A} (R : A -> A -> Prop) (P : A -> Prop)
    `{forall x, Decision (P x)} (l : list A) :
  StronglySorted R l -> StronglySorted R (filter P l).
Proof.
  induction 1 as [|x l Hs IH Hall]; [constructor|].
  rewrite filter_cons. destruct (decide (P x)); [|exact IH].
  constructor; [exact IH|].
  rewrite List.Forall_forall in *. intros y Hy. apply Hall.
  apply list_elem_of_In in Hy. apply list_elem_of_filter in Hy as [_ Hy].
  now apply list_elem_of_In.
Qed.


Section SplitModes.
Context (beatmapSetFromDatabase
          : Database.BeatmapSetDatabase -> option BeatmapSet).

Lemma splitModes_step (sets : list BeatmapSet) (b : BeatmapSet) :
  alter (fun xs => xs ++ [b]) (modeIndex (mode b)) (splitByMode sets)
  = splitByMode (sets ++ [b]).
Proof.
  unfold splitByMode, ofMode. cbn [map].
  rewrite !filter_app, !filter_cons, !filter_nil.
  destruct (mode b); cbn [modeIndex];
    repeat match goal with
           | |- context [decide (?x = ?y)] => destruct (decide (x = y)); try lia
           end;
    cbn; now rewrite ?app_nil_r.
Qed.

Lemma splitModes_thrown (data : list Database.BeatmapSetDatabase) :
  fold_left (splitStep beatmapSetFromDatabase) data None = None.
Proof. induction data as [|item rest IH]; [reflexivity | exact IH]. Qed.

Lemma splitModes_fold (data : list Database.BeatmapSetDatabase) : forall done,
  fold_left (splitStep beatmapSetFromDatabase) data (Some (splitByMode done))
  = ((fun sets => splitByMode (done ++ sets)) <$> mapM beatmapSetFromDatabase data).
Proof.
  induction data as [|item rest IH]; intros done; cbn [fold_left mapM].
  - cbn. now rewrite app_nil_r.
  - unfold splitStep at 2.
    destruct (beatmapSetFromDatabase item) as [b|]; cbn [mbind option_bind].
    + rewrite splitModes_step, IH.
      destruct (mapM beatmapSetFromDatabase rest) as [sets|]; cbn;
        [now rewrite <- app_assoc | reflexivity].
    + apply splitModes_thrown.
Qed.

(** [databaseToSplitModes] returns when every row converts, and then it has
    sorted the converted rows into the four queues by their mode, in the
    order of the rows within each queue. *)
Theorem databaseToSplitModes_by_mode (data : list Database.BeatmapSetDatabase) :
  databaseToSplitModes beatmapSetFromDatabase data
  = (splitByMode <$> mapM beatmapSetFromDatabase data).
Proof. exact (splitModes_fold data []). Qed.

(** Rows in the order of a relation give queues in that order: with the rows
    sorted by queue date, as [getFormattedMapsFromDatabase] passes them, every
    one of the four queues is in queue-date order. *)
Theorem databaseToSplitModes_sorted (R : BeatmapSet -> BeatmapSet -> Prop)
    (data : list Database.BeatmapSetDatabase) (sets : list BeatmapSet) :
  mapM beatmapSetFromDatabase data = Some sets ->
  StronglySorted R sets ->
  exists splitMaps,
    databaseToSplitModes beatmapSetFromDatabase data = Some splitMaps /\
    length splitMaps = 4%nat /\
    Forall (StronglySorted R) splitMaps.
Proof.
  intros Hsets Hs. exists (splitByMode sets).
  unfold databaseToSplitModes.
  change [[]; []; []; []] with (splitByMode []).
  rewrite splitModes_fold, Hsets. split; [reflexivity|].
  split; [reflexivity|].
  repeat constructor; now apply StronglySorted_filter.
Qed.

End SplitModes.

Section Updates.
Context (JSON_stringify : list Beatmap -> string).


Lemma updateAll_reports previousData sets : forall rows ids rows' ids',
  updateAll JSON_stringify previousData sets (rows, ids) = Some (rows', ids') ->
  exists newRows newIds,
    rows' = rows ++ newRows /\ ids' = ids ++ newIds /\
    map Database.id newRows = newIds /\
    (newIds `sublist_of` map setId sets) /\
    Forall (fun row => exists b, b ∈ sets /\ beatmapSetToDatabase JSON_stringify b = Some row)
           newRows /\
    (forall b, b ∈ sets -> previousData !! setId b = None -> setId b ∈ newIds).
Proof.
  induction sets as [|b rest IH]; intros rows ids rows' ids' H; cbn [updateAll] in H.
  - injection H as <- <-. exists [], []. rewrite !app_nil_r.
    repeat split; try constructor. intros b Hb. inversion Hb.
  - destruct (updateStep JSON_stringify previousData (rows, ids) b) as [[rows1 ids1]|] eqn:Hstep;
      [|discriminate].
    destruct (IH _ _ _ _ H) as (newRows & newIds & -> & -> & Hids & Hsub & Hrows & Hnew).
    unfold updateStep in Hstep.
    destruct (rankDate b) as [t|] eqn:Et; [|discriminate].
    destruct (rankDateEarly b) as [early|]; [|discriminate].
    unfold beatmapSetToDatabase in Hstep. rewrite Et in Hstep.
    destruct (match previousData !! setId b with None => true | Some _ => _ end)
      eqn:Hcond; cbn [fst snd] in Hstep; injection Hstep as <- <-.
    + eexists (_ :: newRows), (setId b :: newIds).
      rewrite <- !app_assoc. cbn [app].
      split; [reflexivity|]. split; [reflexivity|].
      split; [cbn; now rewrite Hids|].
      split; [cbn; now apply sublist_skip|].
      split.
      * constructor.
        -- exists b. split; [left|]. unfold beatmapSetToDatabase. now rewrite Et.
        -- rewrite List.Forall_forall in *. intros row Hrow.
           destruct (Hrows row Hrow) as (b' & Hb' & E). exists b'. split; [now right|exact E].
      * intros b' Hb' Hprev. inversion Hb'; subst; [left | right; auto].
    + exists newRows, newIds.
      split; [reflexivity|]. split; [reflexivity|]. split; [exact Hids|].
      split; [cbn; now apply sublist_cons|].
      split.
      * rewrite List.Forall_forall in *. intros row Hrow.
        destruct (Hrows row Hrow) as (b' & Hb' & E). exists b'. split; [now right|exact E].
      * intros b' Hb' Hprev. inversion Hb'; subst; [|auto].
        rewrite Hprev in Hcond. discriminate.
Qed.

(** What [getUpdatedMaps] reports: the ids are those of the rows, one for
    one; they are ids of the qualified sets, in the order of the queues; each
    row is the set as [beatmapSetToDatabase] writes it; and a set whose id
    was not stored before is always among them. *)
Theorem getUpdatedMaps_reports (qualifiedMaps : list (list BeatmapSet))
    previousData mapsToUpdate updatedMapIds :
  getUpdatedMaps JSON_stringify qualifiedMaps previousData
  = Some (mapsToUpdate, updatedMapIds) ->
  map Database.id mapsToUpdate = updatedMapIds /\
  (updatedMapIds `sublist_of` map setId (concat qualifiedMaps)) /\
  Forall (fun row => exists b, b ∈ concat qualifiedMaps /\
                               beatmapSetToDatabase JSON_stringify b = Some row)
         mapsToUpdate /\
  (forall b, b ∈ concat qualifiedMaps -> previousData !! setId b = None ->
             setId b ∈ updatedMapIds).
Proof.
  intros H. destruct (updateAll_reports _ _ _ _ _ _ H)
    as (newRows & newIds & -> & -> & H1 & H2 & H3 & H4).
  auto.
Qed.

Lemma updateAll_returns previousData sets : forall st,
  is_Some (updateAll JSON_stringify previousData sets st)
  <-> Forall (fun b => is_Some (rankDate b) /\ is_Some (rankDateEarly b)) sets.
Proof.
  induction sets as [|b rest IH]; intros st; cbn [updateAll].
  - split; [constructor | eauto].
  - rewrite List.Forall_cons_iff.
    unfold updateStep, beatmapSetToDatabase.
    destruct (rankDate b) as [t|] eqn:Et.
    2:{ split; [intros [y Hy]; discriminate Hy|].
        intros [[[y Hy] _] _]. discriminate Hy. }
    destruct (rankDateEarly b) as [early|] eqn:Ee.
    2:{ split; [intros [y Hy]; discriminate Hy|].
        intros [[_ [y Hy]] _]. discriminate Hy. }
    destruct (match previousData !! setId b with None => true | Some _ => _ end);
      rewrite IH; (split; [intros H; split; eauto | now intros [_ H]]).
Qed.

(** [getUpdatedMaps] reads the time of both dates of every set before it
    compares anything: it returns exactly when every qualified set has a
    [rankDate] and a [rankDateEarly], and throws otherwise. *)
Theorem getUpdatedMaps_returns (qualifiedMaps : list (list BeatmapSet)) previousData :
  is_Some (getUpdatedMaps JSON_stringify qualifiedMaps previousData)
  <-> Forall (fun b => is_Some (rankDate b) /\ is_Some (rankDateEarly b))
             (concat qualifiedMaps).
Proof. apply updateAll_returns. Qed.

End Updates.

(** ** Numbers that are not [NaN] *)

Lemma iter_pos_keeps {A} (P : A -> Prop) (f : A -> A) :
  (forall x, P x -> P (f x)) -> forall n x, P x -> P (SpecFloat.iter_pos f n x).
Proof.
  intros Hf. induction n as [n IH|n IH|]; intros x Hx; cbn; auto.
Qed.

Lemma shr_1_nonneg mrs :
  0 <= SpecFloat.shr_m mrs -> 0 <= SpecFloat.shr_m (SpecFloat.shr_1 mrs).
Proof.
  destruct mrs as [m r s]. destruct m as [|[p|p|]|p]; cbn; lia.
Qed.

Lemma shr_fexp_nonneg m e l :
  0 <= m -> 0 <= SpecFloat.shr_m (SpecFloat.shr_fexp prec emax m e l).1.
Proof.
  intros Hm. unfold SpecFloat.shr_fexp, SpecFloat.shr.
  assert (H0 : 0 <= SpecFloat.shr_m (SpecFloat.shr_record_of_loc m l))
    by (destruct l as [|[]]; exact Hm).
  destruct (_ - e) as [|p|p]; cbn [fst]; try exact H0.
  apply (iter_pos_keeps (fun mrs => 0 <= SpecFloat.shr_m mrs)); [|exact H0].
  apply shr_1_nonneg.
Qed.

Lemma round_nearest_even_nonneg m l :
  0 <= m -> 0 <= SpecFloat.round_nearest_even m l.
Proof.
  intros Hm. unfold SpecFloat.round_nearest_even.
  destruct l as [|[]]; try lia. destruct (Z.even m); lia.
Qed.

Lemma binary_round_aux_number sx m e l :
  0 <= m -> SpecFloat.binary_round_aux prec emax sx m e l <> S754_nan.
Proof.
  intros Hm. unfold SpecFloat.binary_round_aux.
  pose proof (shr_fexp_nonneg m e l Hm) as H1.
  destruct (SpecFloat.shr_fexp prec emax m e l) as [mrs' e'].
  cbn [fst] in H1.
  pose proof (shr_fexp_nonneg _ e' SpecFloat.loc_Exact
                (round_nearest_even_nonneg _ (SpecFloat.loc_of_shr_record mrs') H1))
    as H2.
  destruct (SpecFloat.shr_fexp prec emax _ e' SpecFloat.loc_Exact) as [mrs'' e''].
  cbn [fst] in H2.
  destruct (SpecFloat.shr_m mrs'') as [|p|p]; [discriminate | | lia].
  destruct (e'' <=? emax - prec); discriminate.
Qed.

Lemma Z2F_number (t : Z) : Prim2SF (Z2F t) <> S754_nan.
Proof.
  assert (H : forall n, Prim2SF (of_uint63 n) <> S754_nan).
  { intros n. rewrite of_uint63_spec. unfold SpecFloat.binary_normalize.
    destruct (Uint63.to_Z n) as [|p|p]; [discriminate | |];
      unfold SpecFloat.binary_round;
      destruct (SpecFloat.shl_align _ _ _) as [mz ez];
      apply binary_round_aux_number; lia. }
  unfold Z2F. destruct (t <? 0); [|apply H].
  rewrite opp_spec. specialize (H (Uint63.of_Z (- t))).
  destruct (Prim2SF (of_uint63 (Uint63.of_Z (- t)))); cbn; congruence.
Qed.

Lemma toSeconds_number (t : Z) : Prim2SF (toSeconds t) <> S754_nan.
Proof.
  unfold toSeconds. rewrite div_spec.
  pose proof (Z2F_number t) as Ht.
  replace (Prim2SF 1000) with (S754_finite false 8796093022208000 (-43))
    by (vm_compute; reflexivity).
  destruct (Prim2SF (Z2F t)) as [s|s| |s m e]; [discriminate .. | congruence |].
  unfold SF64div, SpecFloat.SFdiv.
  destruct (SpecFloat.SFdiv_core_binary prec emax (Z.pos m) e _ _)
    as [[mz ez] lz] eqn:Hcore.
  apply binary_round_aux_number.
  unfold SpecFloat.SFdiv_core_binary in Hcore.
  cbv zeta in Hcore.
  match type of Hcore with
  | context [Z.div_eucl ?a ?b] =>
      pose proof (Z_div_mod a b ltac:(lia)) as Hdiv;
      assert (Ha : 0 <= a);
      [| destruct (Z.div_eucl a b) as [q r]; injection Hcore as <- _ _; nia]
  end.
  destruct (_ - _ - _) as [|p|p]; [lia | | lia].
  apply Z.shiftl_nonneg. lia.
Qed.

(** A number that is not [NaN] is [===] to itself. *)
Lemma number_same (x : float) :
  Prim2SF x <> S754_nan -> numberDiffers x x = false.
Proof.
  intros Hx. unfold numberDiffers. rewrite FloatAxioms.eqb_spec.
  unfold SFeqb, SFcompare.
  destruct (Prim2SF x) as [s|s| |s m e]; try congruence.
  - reflexivity.
  - now destruct s.
  - change (Pos.compare_cont Eq m m) with (Pos.compare m m).
    destruct s; rewrite Z.compare_refl, Pos.compare_refl; reflexivity.
Qed.


Section SteadyState.
Context (JSON_stringify : list Beatmap -> string).

Lemma storeMapProperties_other rows k :
  forall previousData : gmap Z StoredMapProperties,
  (k ∉ map Database.id rows) ->
  fold_left
    (fun previousData beatmapSet =>
       <[Database.id beatmapSet :=
           (Database.rank_date beatmapSet, Database.rank_date_early beatmapSet,
            Database.probability beatmapSet, Database.unresolved beatmapSet)]>
         previousData) rows previousData !! k
  = previousData !! k.
Proof.
  induction rows as [|r rest IH]; intros previousData Hk; cbn [fold_left];
    [reflexivity|].
  rewrite IH.
  - apply lookup_insert_ne. intros E. apply Hk. cbn. rewrite E. left.
  - intros H. apply Hk. cbn. now right.
Qed.

(** With every id stored once, [storeMapProperties] keeps the four
    properties of each row under its id. *)
Lemma storeMapProperties_lookup rows row :
  NoDup (map Database.id rows) -> row ∈ rows ->
  storeMapProperties rows !! Database.id row
  = Some ((Database.rank_date row, Database.rank_date_early row,
           Database.probability row, Database.unresolved row)
          : StoredMapProperties).
Proof.
  unfold storeMapProperties. generalize (∅ : gmap Z StoredMapProperties).
  induction rows as [|r rest IH]; intros previousData Hnd Hrow; [inversion Hrow|].
  cbn [fold_left]. cbn [map] in Hnd. apply NoDup_cons in Hnd as [Hr Hnd].
  inversion Hrow; subst.
  - rewrite storeMapProperties_other by exact Hr. apply lookup_insert_eq.
  - now apply IH.
Qed.

Lemma updateAll_unchanged previousData sets :
  Forall (fun b =>
            is_Some (rankDate b) /\ is_Some (rankDateEarly b) /\
            probabilityIsNumber b /\
            previousData !! setId b
            = Some ((default 0%float (toSeconds <$> rankDate b),
                     toSeconds <$> rankDateEarly b, probability b, unresolved b)
                    : StoredMapProperties))
         sets ->
  forall st, updateAll JSON_stringify previousData sets st = Some st.
Proof.
  induction 1 as [|b rest (Ht & He & Hp & Hprev) _ IH]; intros st;
    cbn [updateAll]; [reflexivity|].
  unfold updateStep. destruct Ht as [t Et], He as [e Ee].
  rewrite Et, Ee in *. rewrite Hprev. cbn [fmap option_fmap option_map default].
  unfold propertiesDiffer.
  rewrite !number_same by apply toSeconds_number.
  cbn [nullableDiffers]. rewrite number_same by apply toSeconds_number.
  replace (nullableDiffers (probability b) (probability b)) with false.
  2:{ destruct (probability b) as [p|] eqn:Ep; [|reflexivity].
      cbn. symmetry. apply number_same, Hp. exact Ep. }
  rewrite eqb_reflx. cbn. apply IH.
Qed.

(** A second comparison reports nothing: against the properties stored from
    the rows that [beatmapSetToDatabase] writes for the qualified sets,
    [getUpdatedMaps] finds no set to update, when every set has both dates,
    no probability is [NaN], and no id occurs twice. *)
Theorem getUpdatedMaps_steady (qualifiedMaps : list (list BeatmapSet))
    (rows : list Database.BeatmapSetDatabase) :
  Forall2 (fun b row => beatmapSetToDatabase JSON_stringify b = Some row)
          (concat qualifiedMaps) rows ->
  Forall (fun b => is_Some (rankDateEarly b) /\ probabilityIsNumber b)
         (concat qualifiedMaps) ->
  NoDup (map setId (concat qualifiedMaps)) ->
  getUpdatedMaps JSON_stringify qualifiedMaps (storeMapProperties rows)
  = Some ([], []).
Proof.
  intros Hrows Hsets Hnd. unfold getUpdatedMaps. apply updateAll_unchanged.
  assert (Hids : map Database.id rows = map setId (concat qualifiedMaps)).
  { clear Hsets Hnd. induction Hrows as [|b row bs rs E _ IH]; [reflexivity|].
    cbn. rewrite IH. f_equal. unfold beatmapSetToDatabase in E.
    destruct (rankDate b); [|discriminate]. now injection E as <-. }
  rewrite <- Hids in Hnd.
  apply List.Forall_forall. intros b Hb.
  rewrite List.Forall_forall in Hsets. destruct (Hsets b Hb) as [He Hp].
  assert (Hrow : exists row, row ∈ rows /\
                             beatmapSetToDatabase JSON_stringify b = Some row).
  { clear -Hrows Hb. induction Hrows as [|b0 row bs rs E _ IH]; [inversion Hb|].
    destruct Hb as [<- | Hb].
    - exists row. split; [left | exact E].
    - destruct (IH Hb) as (row' & Hin & E'). exists row'. split; [now right | exact E']. }
  destruct Hrow as (row & Hin & E).
  pose proof (storeMapProperties_lookup rows row Hnd Hin) as Hlook.
  unfold beatmapSetToDatabase in E.
  destruct (rankDate b) as [t|] eqn:Et; [|discriminate]. injection E as <-.
  cbn in Hlook. split; [eauto|]. split; [exact He|]. split; [exact Hp|].
  exact Hlook.
Qed.

End SteadyState.

Section RefreshCycle.
Context (c : Constants) (localTZA : Z -> Z) (JSON_stringify : list Beatmap -> string).
Hypothesis Hint : 0 < RANK_INTERVAL c * MINUTE c.
Hypothesis Hrun : (1 <= RANK_PER_RUN c)%nat.

(** The projector hands [getUpdatedMaps] sets it can read: after
    [adjustAllRankDates] has returned on four queues of distinct sets,
    [getUpdatedMaps] on the same queues does not throw, whatever was stored
    before. *)
Theorem getUpdatedMaps_after_projection
    (qualifiedMaps rankedMaps : list (list loc))
    (qualifiedSets : list (list BeatmapSet)) previousData h h' :
  (forall m qs rs, qualifiedMaps !! m = Some qs -> rankedMaps !! m = Some rs ->
                   NoDup (rs ++ qs)) ->
  length qualifiedMaps = 4%nat ->
  allocated qualifiedMaps rankedMaps h ->
  adjustAllRankDates c localTZA qualifiedMaps rankedMaps h = (Some tt, h') ->
  Forall2 (refsTo h') qualifiedMaps qualifiedSets ->
  is_Some (getUpdatedMaps JSON_stringify qualifiedSets previousData).
Proof using Hint Hrun.
  intros Hdistinct Hlen Halloc Hret Hsets.
  apply updateAll_returns. apply List.Forall_forall. intros b Hb.
  apply in_concat in Hb as (sets & Hsets' & Hb).
  apply list_elem_of_In, list_elem_of_lookup in Hsets' as [m Em].
  destruct (Forall2_lookup_r _ _ _ _ _ Hsets Em) as (qs & Eq & Hrefs).
  apply list_elem_of_In, list_elem_of_lookup in Hb as [i Ei].
  destruct (Forall2_lookup_r _ _ _ _ _ Hrefs Ei) as (l & El & Hl).
  assert (Hm : (m < 4)%nat) by (rewrite <- Hlen; eapply lookup_lt_Some, Eq).
  destruct (adjustAllRankDates_projected c localTZA Hint Hrun qualifiedMaps
              rankedMaps Hdistinct h h' Halloc Hret m qs l Hm Eq)
    as (b' & Eb' & e & t & Ee & Et & _).
  { apply list_elem_of_lookup. eauto. }
  rewrite Hl in Eb'. injection Eb' as <-. rewrite Ee, Et. eauto.
Qed.

End RefreshCycle.

(** The sample rows and the sets they convert to agree: every date of a
    row, times 1000, is the time of the set's date, and the mode of the set
    is the least mode of its difficulties. *)
Lemma sampleFromDatabase_rows :
  Forall2 (fun item beatmapSet =>
             sampleFromDatabase item = Some beatmapSet /\
             (Database.rank_date item * 1000)%float
             = Z2F (default 0 (rankDate beatmapSet)) /\
             (fun seconds => (seconds * 1000)%float) <$> Database.queue_date item
             = (Z2F <$> queueDate beatmapSet) /\
             (fun seconds => (seconds * 1000)%float) <$> Database.rank_date_early item
             = (Z2F <$> rankDateEarly beatmapSet) /\
             modeIndex (mode beatmapSet) = leastMode (beatmaps beatmapSet))
          [standardRow; hybridRow] [standardSet; hybridSet].
Proof. repeat constructor; vm_compute; reflexivity. Qed.

Lemma databaseToSplitModes_sorted_witness :
  exists splitMaps,
    databaseToSplitModes sampleFromDatabase [standardRow; hybridRow]
    = Some splitMaps /\
    length splitMaps = 4%nat /\
    Forall (StronglySorted queueLe) splitMaps.
Proof.
  apply (databaseToSplitModes_sorted sampleFromDatabase queueLe
           [standardRow; hybridRow] [standardSet; hybridSet]).
  - vm_compute. reflexivity.
  - repeat constructor. cbn. lia.
Defined.

Lemma getUpdatedMaps_reports_witness :
  map Database.id [lateRow; laterRow] = [200; 201] /\
  ([200; 201] `sublist_of` map setId (concat [[lateSet]; [laterSet]; []; []])) /\
  Forall (fun row => exists b, b ∈ concat [[lateSet]; [laterSet]; []; []] /\
                               beatmapSetToDatabase sampleStringify b = Some row)
         [lateRow; laterRow] /\
  (forall b, b ∈ concat [[lateSet]; [laterSet]; []; []] ->
             (∅ : gmap Z StoredMapProperties) !! setId b = None ->
             setId b ∈ [200; 201]).
Proof.
  apply (getUpdatedMaps_reports sampleStringify [[lateSet]; [laterSet]; []; []] ∅).
  reflexivity.
Defined.

Lemma getUpdatedMaps_steady_witness :
  getUpdatedMaps sampleStringify [[lateSet]; [laterSet]; []; []]
    (storeMapProperties [lateRow; laterRow])
  = Some ([], []).
Proof.
  apply (getUpdatedMaps_steady sampleStringify).
  - repeat constructor.
  - repeat constructor; try (eexists; reflexivity).
    + intros p [= <-]. vm_compute. discriminate.
    + intros p [=].
  - apply NoDup_ListNoDup. repeat constructor; cbn; intuition lia.
Defined.

Lemma getUpdatedMaps_after_projection_witness :
  is_Some
    (getUpdatedMaps sampleStringify
       [ [ setBehind
             (adjustAllRankDates specConstants utc [[3; 4]%nat; []; []; []]
                [[0; 1; 2]%nat; []; []; []] overflowHeap).2 3%nat;
           setBehind
             (adjustAllRankDates specConstants utc [[3; 4]%nat; []; []; []]
                [[0; 1; 2]%nat; []; []; []] overflowHeap).2 4%nat ];
         []; []; [] ]
       (storeMapProperties [lateRow])).
Proof.
  apply (getUpdatedMaps_after_projection specConstants utc sampleStringify eq_refl)
    with (qualifiedMaps := [[3; 4]%nat; []; []; []])
         (rankedMaps := [[0; 1; 2]%nat; []; []; []]) (h := overflowHeap)
         (h' := (adjustAllRankDates specConstants utc [[3; 4]%nat; []; []; []]
                   [[0; 1; 2]%nat; []; []; []] overflowHeap).2).
  - cbn. lia.
  - intros [|[|[|[|m]]]] qs rs; cbn; intros [= <-] [= <-];
      apply NoDup_ListNoDup; repeat constructor; cbn; intuition lia.
  - reflexivity.
  - intros l Hl. cbn in Hl.
    repeat (apply elem_of_cons in Hl as [->|Hl]; [eexists; reflexivity|]).
    inversion Hl.
  - vm_compute. reflexivity.
  - apply List.Forall2_cons; [|repeat constructor].
    apply List.Forall2_cons; [vm_compute; reflexivity|].
    apply List.Forall2_cons; [vm_compute; reflexivity|].
    apply List.Forall2_nil.
Defined.
